(** * RPC providers of the gateway: endpoint resolution and the Helius
      transaction-confirmation monitor

    Shallow embedding of [src/rpc/helius-service.ts] and
    [src/rpc/infura-service.ts].

    The class fields keep their source names.  The JavaScript run time the
    service lives in is made explicit as part of the state: the timers
    that are set, the promises and every call of their [resolve] and
    [reject], the sockets with their [readyState], the async calls
    suspended at an [await], the frames sent and the lines logged.  Every
    method and callback of the source is a state transformer.

    One [event] is one macrotask of the event loop, run to completion
    together with the microtasks it releases: a call of the public
    interface, a timer that fires, or what a socket emits in one tick.
    A call is the only call of its tick.  A [monitorTransaction] call that
    has to wait for the connection is suspended and resumed by the socket
    event that settles the attempt; one that finds the connection open
    goes on, after the [await] of line 85, within its own tick.

    The subscription table is keyed by integers, as
    [Map<number, WebSocketSubscription>] declares, and the event loop
    delivers the frames [interface WebSocketMessage] describes.  The
    interface is erased at run time: what the handler does with any
    parsed value is [handleParsed], which agrees with the typed handler
    on the frames of the interface and says so when a frame would store a
    subscription under a key that is not a number.  Timer handles,
    sockets and calls are numbered in the order they are created. *)

From Stdlib Require Import ZArith String List Bool Lia.
From stdpp Require Import base option list gmap strings pretty.

Import ListNotations.
Local Open Scope string_scope.
Local Open Scope Z_scope.

(* ===================================================================== *)
(** ** Values shared by both providers *)
(* ===================================================================== *)

(** [NetworkInfo] and [RPCProviderConfig] of [rpc-provider-base]. *)
Record NetworkInfo := {
  chain : string;
  network : string;
  chainId : Z;
}.

Record RPCProviderConfig := {
  apiKey : string;
}.

(** [String.prototype.includes]: [needle] occurs somewhere in [hay]. *)
Fixpoint includes (needle hay : string) : bool :=
  String.prefix needle hay ||
  match hay with
  | EmptyString => false
  | String _ rest => includes needle rest
  end.

(** Parsed JSON values, as [JSON.parse] hands them to the handlers.
    Numbers are the integers the protocol uses; a number with a fraction
    or an exponent is not represented. *)
#[local] Unset Elimination Schemes.
Inductive json :=
| JNull
| JBool (b : bool)
| JNum (z : Z)
| JStr (s : string)
| JArr (items : list json)
| JObj (fields : list (string * json)).
#[local] Set Elimination Schemes.

(** JavaScript truthiness of a parsed value. *)
Definition truthy (v : json) : bool :=
  match v with
  | JNull => false
  | JBool b => b
  | JNum z => negb (z =? 0)
  | JStr s => negb (String.eqb s "")
  | JArr _ | JObj _ => true
  end.

(** Own property of a parsed object; [JSON.parse] keeps the last binding of
    a repeated name. *)
Fixpoint last_binding (name : string) (fields : list (string * json))
  : option json :=
  match fields with
  | [] => None
  | (n, v) :: rest =>
      match last_binding name rest with
      | Some v' => Some v'
      | None => if String.eqb n name then Some v else None
      end
  end.

(** [v.name]: [undefined] ([None]) on anything that is not an object with
    that property. *)
Definition get_field (name : string) (v : json) : option json :=
  match v with
  | JObj fields => last_binding name fields
  | _ => None
  end.

(** [typeof v === 'object'] for a truthy [v]. *)
Definition is_object (v : json) : bool :=
  match v with
  | JArr _ | JObj _ => true
  | _ => false
  end.

(* ===================================================================== *)
(** ** Infura: the polling-only provider *)
(* ===================================================================== *)

Module Infura.

(** [InfuraService.NETWORK_MAP]. *)
Definition NETWORK_MAP : list (Z * string) :=
  [ (1, "mainnet");
    (10, "optimism-mainnet");
    (56, "bsc-mainnet");
    (137, "polygon-mainnet");
    (324, "zksync-mainnet");
    (534352, "scroll-mainnet");
    (5000, "mantle-mainnet");
    (8453, "base-mainnet");
    (42161, "arbitrum-mainnet");
    (42220, "celo-mainnet");
    (43114, "avalanche-mainnet");
    (59144, "linea-mainnet");
    (81457, "blast-mainnet");
    (204, "opbnb-mainnet");
    (11297108109, "palm-mainnet");
    (11155111, "sepolia");
    (421614, "arbitrum-sepolia");
    (43113, "avalanche-fuji");
    (84532, "base-sepolia");
    (168587773, "blast-sepolia");
    (97, "bsc-testnet");
    (44787, "celo-alfajores");
    (59141, "linea-sepolia");
    (5003, "mantle-sepolia");
    (5611, "opbnb-testnet");
    (11155420, "optimism-sepolia");
    (11297108099, "palm-testnet");
    (80002, "polygon-amoy");
    (534351, "scroll-sepolia");
    (300, "zksync-sepolia") ].

(** The two errors the class throws. *)
Inductive error :=
| OnlyEthereum
    (* 'InfuraService only supports Ethereum networks' *)
| NetworkNotSupported (id : Z).
    (* 'Infura network not supported for chainID: <id>' *)

(** [NETWORK_MAP[chainId]]: property lookup in the object literal. *)
Fixpoint lookup_network (id : Z) (m : list (Z * string)) : option string :=
  match m with
  | [] => None
  | (k, name) :: rest => if k =? id then Some name else lookup_network id rest
  end.

(** [getInfuraNetworkName]: a missing entry, or a falsy (empty) name,
    throws. *)
Definition getInfuraNetworkName (networkInfo : NetworkInfo)
  : error + string :=
  match lookup_network (chainId networkInfo) NETWORK_MAP with
  | Some name =>
      if String.eqb name "" then inl (NetworkNotSupported (chainId networkInfo))
      else inr name
  | None => inl (NetworkNotSupported (chainId networkInfo))
  end.

(** [getHttpUrl]. *)
Definition getHttpUrl (config : RPCProviderConfig) (networkInfo : NetworkInfo)
  : error + string :=
  match getInfuraNetworkName networkInfo with
  | inl e => inl e
  | inr name => inr ("https://" +:+ name +:+ ".infura.io/v3/" +:+ apiKey config)
  end.

(** [getWebSocketUrl]: never available. *)
Definition getWebSocketUrl (config : RPCProviderConfig)
    (networkInfo : NetworkInfo) : option string := None.

(** The constructed object: the stored arguments and the URL the HTTP
    provider was created with by [initializeHttpProvider]. *)
Record InfuraService := {
  config : RPCProviderConfig;
  networkInfo : NetworkInfo;
  providerUrl : string;
}.

(** The constructor: the chain guard, then [initializeHttpProvider], which
    asks [getHttpUrl] for the endpoint. *)
Definition new (config : RPCProviderConfig) (networkInfo : NetworkInfo)
  : error + InfuraService :=
  if negb (String.eqb (chain networkInfo) "ethereum") then inl OnlyEthereum
  else
    match getHttpUrl config networkInfo with
    | inl e => inl e
    | inr url =>
        inr {| config := config; networkInfo := networkInfo; providerUrl := url |}
    end.

(** The chain ids of the table. *)
Definition mapped (id : Z) : Prop := In id (map fst NETWORK_MAP).

(** What [this.provider.getBlockNumber()] did: it returned a block number,
    or it threw an error with this message. *)
Inductive rpc_outcome :=
| BlockNumber (n : Z)
| RpcFailed (message : string).

(** What a [catch] block of [healthCheck] can be handed: the error of the
    RPC call, or one the class threw itself. *)
Inductive thrown :=
| FromProvider (message : string)
| FromService (e : error).

(** The two lines [healthCheck] logs: debug 'Infura health check passed
    for <network>', error 'Infura health check failed for <network>:
    <message>'. *)
Inductive health_line :=
| HealthPassed (network : string)
| HealthFailed (network : string) (cause : thrown).

(** [healthCheck]: the [try] block awaits the RPC call and then asks for
    the network name for its debug line; the [catch] block asks for the
    network name again for its error line, outside any [try]. *)
Definition healthCheck (svc : InfuraService) (outcome : rpc_outcome)
  : error + (bool * health_line) :=
  let attempt : thrown + (bool * health_line) :=
    match outcome with
    | RpcFailed message => inl (FromProvider message)
    | BlockNumber _ =>
        match getInfuraNetworkName (networkInfo svc) with
        | inl e => inl (FromService e)
        | inr name => inr (true, HealthPassed name)
        end
    end in
  match attempt with
  | inr r => inr r
  | inl cause =>
      match getInfuraNetworkName (networkInfo svc) with
      | inl e => inl e
      | inr name => inr (false, HealthFailed name cause)
      end
  end.

End Infura.

(* ===================================================================== *)
(** ** Helius: the push-capable provider *)
(* ===================================================================== *)

Module Helius.

(** *** The wire messages ([interface WebSocketMessage]) *)

(** [message.error]: any truthy value; the handler reads its [code] and
    [message], either of which may be missing. *)
Record rpc_error := {
  code : option Z;
  message : option string;
}.

(** [message.params] of a notification. *)
Record notification := {
  result : json;
  subscription : Z;
}.

(** A frame as the interface types it: [result], [id] and
    [params.subscription] are numbers where present. *)
Record WebSocketMessage := {
  msg_method : option string;
  msg_params : option notification;
  msg_result : option Z;
  msg_id : option Z;
  msg_error : option rpc_error;
}.

(** What the ['message'] listener receives: data on which the [try] block
    throws ([JSON.parse] fails), or a parsed frame. *)
Inductive inbound :=
| Unparseable
| Parsed (m : WebSocketMessage).

(** *** The subscription table *)

Record TransactionMonitorResult := {
  confirmed : bool;
  txData : option json;
}.

(** The state of the promise a [monitorTransaction] call created. *)
Inductive promise :=
| Pending
| Resolved (r : TransactionMonitorResult)
| Rejected (reason : string).

(** [interface WebSocketSubscription].  The [resolve] and [reject] fields
    of the source are the closures [resolveWithCleanup] and
    [rejectWithCleanup]; both capture the local [subscriptionId] the call
    allocated, which is what [owner] records. *)
Record WebSocketSubscription := {
  signature : string;
  owner : Z;
  timeout : nat;
}.

(** A JavaScript [Map<number, V>]: unique keys, kept in insertion order. *)
Section JsMap.
Context {V : Type}.

Fixpoint map_get (k : Z) (m : list (Z * V)) : option V :=
  match m with
  | [] => None
  | (k', v) :: rest => if k' =? k then Some v else map_get k rest
  end.

Definition map_has (k : Z) (m : list (Z * V)) : bool :=
  match map_get k m with Some _ => true | None => false end.

(** [set] overwrites in place, or appends. *)
Fixpoint map_set (k : Z) (v : V) (m : list (Z * V)) : list (Z * V) :=
  match m with
  | [] => [(k, v)]
  | (k', v') :: rest =>
      if k' =? k then (k, v) :: rest else (k', v') :: map_set k v rest
  end.

Fixpoint map_delete (k : Z) (m : list (Z * V)) : list (Z * V) :=
  match m with
  | [] => []
  | (k', v') :: rest =>
      if k' =? k then map_delete k rest else (k', v') :: map_delete k rest
  end.

End JsMap.

(** *** The run time around the service *)

Inductive ready_state := CONNECTING | OPEN | CLOSING | CLOSED.

(** A [WebSocket] object, with the state of the promise that the
    [connectWebSocket] call which created it returned. *)
Record socket := {
  readyState : ready_state;
  url : string;
  connectSettled : bool;
}.

(** The two callbacks handed to [setTimeout]. *)
Inductive timer_callback :=
| SubscriptionTimeout (subscriptionId : Z)
| IdleDisconnect.

(** A timer that is set: its callback and the delay handed to
    [setTimeout] (Node waits 1 ms instead when that is below 1 or above
    2^31 - 1). *)
Record timer := {
  callback : timer_callback;
  delay : Z;
}.

(** A [monitorTransaction] call suspended inside
    [ensureWebSocketConnected], at [await this.connecting]: the caller that
    started the attempt ([initiator], line 172) or one that joined it
    (line 163). *)
Record waiter := {
  w_call : nat;
  w_attempt : nat;
  w_initiator : bool;
  w_signature : string;
  w_timeoutMs : Z;
}.

(** Where a [monitorTransaction] call stands. *)
Inductive call_state :=
| Suspended
| Unavailable                      (* threw 'WebSocket not available' *)
| Monitoring (subscriptionId : Z). (* returned the promise of this id *)

(** The lines the service hands to the logger. *)
Inductive log_entry :=
| LogMonitoring (sig : string)        (* info, line 128 *)
| LogDisconnected                     (* info, line 148 *)
| LogConnectFailed                    (* warn, line 175 *)
| LogConnecting (subdomain : string)  (* info, line 189 *)
| LogConnected                        (* info, line 196 *)
| LogParseError                       (* error, line 205 *)
| LogSocketError                      (* error, line 210 *)
| LogClosed                           (* info, line 215 *)
| LogRemapped (localId : Z) (serverSubscriptionId : json) (* debug, line 246 *)
| LogErrorFrame (e : json)            (* error, line 259 *)
| LogIdleClose.                       (* info, line 284 *)

Record state := {
  (* the fields of the class *)
  ws : option nat;
  subscriptions : list (Z * WebSocketSubscription);
  nextSubscriptionId : Z;
  idleTimeout : option nat;
  connecting : option nat;
  (* the run time *)
  timers : gmap nat timer;          (* timers set and neither fired nor cleared *)
  nextTimer : nat;
  promises : gmap Z promise;
  settleCalls : list (Z * promise); (* every call of a promise's resolve or reject, oldest first *)
  sockets : gmap nat socket;
  nextSocket : nat;                 (* the number of [new WebSocket] so far *)
  waiters : list waiter;
  calls : gmap nat call_state;
  nextCall : nat;
  sent : list (nat * Z * string);   (* signatureSubscribe frames: socket, id, signature *)
  logs : list log_entry;            (* the calls of the logger, oldest first *)
}.

Definition idleTimeoutMs : Z := 30000.

Definition initial : state := {|
  ws := None;
  subscriptions := [];
  nextSubscriptionId := 1;
  idleTimeout := None;
  connecting := None;
  timers := ∅;
  nextTimer := 0%nat;
  promises := ∅;
  settleCalls := [];
  sockets := ∅;
  nextSocket := 0%nat;
  waiters := [];
  calls := ∅;
  nextCall := 0%nat;
  sent := [];
  logs := [];
|}.

(** Field updates. *)
Definition with_ws (x : option nat) (st : state) : state :=
  {| ws := x; subscriptions := subscriptions st;
     nextSubscriptionId := nextSubscriptionId st; idleTimeout := idleTimeout st;
     connecting := connecting st; timers := timers st; nextTimer := nextTimer st;
     promises := promises st; settleCalls := settleCalls st;
     sockets := sockets st; nextSocket := nextSocket st; waiters := waiters st;
     calls := calls st; nextCall := nextCall st; sent := sent st;
     logs := logs st |}.

Definition with_subscriptions (x : list (Z * WebSocketSubscription))
    (st : state) : state :=
  {| ws := ws st; subscriptions := x;
     nextSubscriptionId := nextSubscriptionId st; idleTimeout := idleTimeout st;
     connecting := connecting st; timers := timers st; nextTimer := nextTimer st;
     promises := promises st; settleCalls := settleCalls st;
     sockets := sockets st; nextSocket := nextSocket st; waiters := waiters st;
     calls := calls st; nextCall := nextCall st; sent := sent st;
     logs := logs st |}.

Definition with_nextSubscriptionId (x : Z) (st : state) : state :=
  {| ws := ws st; subscriptions := subscriptions st;
     nextSubscriptionId := x; idleTimeout := idleTimeout st;
     connecting := connecting st; timers := timers st; nextTimer := nextTimer st;
     promises := promises st; settleCalls := settleCalls st;
     sockets := sockets st; nextSocket := nextSocket st; waiters := waiters st;
     calls := calls st; nextCall := nextCall st; sent := sent st;
     logs := logs st |}.

Definition with_idleTimeout (x : option nat) (st : state) : state :=
  {| ws := ws st; subscriptions := subscriptions st;
     nextSubscriptionId := nextSubscriptionId st; idleTimeout := x;
     connecting := connecting st; timers := timers st; nextTimer := nextTimer st;
     promises := promises st; settleCalls := settleCalls st;
     sockets := sockets st; nextSocket := nextSocket st; waiters := waiters st;
     calls := calls st; nextCall := nextCall st; sent := sent st;
     logs := logs st |}.

Definition with_connecting (x : option nat) (st : state) : state :=
  {| ws := ws st; subscriptions := subscriptions st;
     nextSubscriptionId := nextSubscriptionId st; idleTimeout := idleTimeout st;
     connecting := x; timers := timers st; nextTimer := nextTimer st;
     promises := promises st; settleCalls := settleCalls st;
     sockets := sockets st; nextSocket := nextSocket st; waiters := waiters st;
     calls := calls st; nextCall := nextCall st; sent := sent st;
     logs := logs st |}.

Definition with_timers (x : gmap nat timer) (n : nat) (st : state) : state :=
  {| ws := ws st; subscriptions := subscriptions st;
     nextSubscriptionId := nextSubscriptionId st; idleTimeout := idleTimeout st;
     connecting := connecting st; timers := x; nextTimer := n;
     promises := promises st; settleCalls := settleCalls st;
     sockets := sockets st; nextSocket := nextSocket st; waiters := waiters st;
     calls := calls st; nextCall := nextCall st; sent := sent st;
     logs := logs st |}.

Definition with_promises (x : gmap Z promise) (l : list (Z * promise))
    (st : state) : state :=
  {| ws := ws st; subscriptions := subscriptions st;
     nextSubscriptionId := nextSubscriptionId st; idleTimeout := idleTimeout st;
     connecting := connecting st; timers := timers st; nextTimer := nextTimer st;
     promises := x; settleCalls := l;
     sockets := sockets st; nextSocket := nextSocket st; waiters := waiters st;
     calls := calls st; nextCall := nextCall st; sent := sent st;
     logs := logs st |}.

Definition with_sockets (x : gmap nat socket) (n : nat) (st : state) : state :=
  {| ws := ws st; subscriptions := subscriptions st;
     nextSubscriptionId := nextSubscriptionId st; idleTimeout := idleTimeout st;
     connecting := connecting st; timers := timers st; nextTimer := nextTimer st;
     promises := promises st; settleCalls := settleCalls st;
     sockets := x; nextSocket := n; waiters := waiters st;
     calls := calls st; nextCall := nextCall st; sent := sent st;
     logs := logs st |}.

Definition with_waiters (x : list waiter) (st : state) : state :=
  {| ws := ws st; subscriptions := subscriptions st;
     nextSubscriptionId := nextSubscriptionId st; idleTimeout := idleTimeout st;
     connecting := connecting st; timers := timers st; nextTimer := nextTimer st;
     promises := promises st; settleCalls := settleCalls st;
     sockets := sockets st; nextSocket := nextSocket st; waiters := x;
     calls := calls st; nextCall := nextCall st; sent := sent st;
     logs := logs st |}.

Definition with_calls (x : gmap nat call_state) (n : nat) (st : state) : state :=
  {| ws := ws st; subscriptions := subscriptions st;
     nextSubscriptionId := nextSubscriptionId st; idleTimeout := idleTimeout st;
     connecting := connecting st; timers := timers st; nextTimer := nextTimer st;
     promises := promises st; settleCalls := settleCalls st;
     sockets := sockets st; nextSocket := nextSocket st; waiters := waiters st;
     calls := x; nextCall := n; sent := sent st; logs := logs st |}.

Definition with_sent (x : list (nat * Z * string)) (st : state) : state :=
  {| ws := ws st; subscriptions := subscriptions st;
     nextSubscriptionId := nextSubscriptionId st; idleTimeout := idleTimeout st;
     connecting := connecting st; timers := timers st; nextTimer := nextTimer st;
     promises := promises st; settleCalls := settleCalls st;
     sockets := sockets st; nextSocket := nextSocket st; waiters := waiters st;
     calls := calls st; nextCall := nextCall st; sent := x; logs := logs st |}.

Definition with_logs (x : list log_entry) (st : state) : state :=
  {| ws := ws st; subscriptions := subscriptions st;
     nextSubscriptionId := nextSubscriptionId st; idleTimeout := idleTimeout st;
     connecting := connecting st; timers := timers st; nextTimer := nextTimer st;
     promises := promises st; settleCalls := settleCalls st;
     sockets := sockets st; nextSocket := nextSocket st; waiters := waiters st;
     calls := calls st; nextCall := nextCall st; sent := sent st; logs := x |}.

(** [logger.debug], [.info], [.warn], [.error]. *)
Definition log (entry : log_entry) (st : state) : state :=
  with_logs (logs st ++ [entry]) st.

(** *** The service *)

Section Service.

(** [isApiKeyValid] is inherited from the base class [RPCProvider] of
    [rpc-provider-base], which is not among the sources: it is a parameter
    here, a predicate on the configured key. *)
Variable isApiKeyValid : string -> bool.
Variable config : RPCProviderConfig.
Variable networkInfo : NetworkInfo.

Definition subdomain : string :=
  if includes "devnet" (network networkInfo) then "devnet" else "mainnet".

Definition getHttpUrl : string :=
  "https://" +:+ subdomain +:+ ".helius-rpc.com/?api-key=" +:+ apiKey config.

Definition getWebSocketUrl : option string :=
  if negb (isApiKeyValid (apiKey config)) then None
  else Some ("wss://" +:+ subdomain +:+ ".helius-rpc.com/?api-key=" +:+ apiKey config).

Definition supportsTransactionMonitoring : bool :=
  isApiKeyValid (apiKey config).

(** [this.ws !== null && this.ws.readyState === WebSocket.OPEN]. *)
Definition isWebSocketConnected (st : state) : bool :=
  match ws st with
  | None => false
  | Some s =>
      match sockets st !! s with
      | Some sk => match readyState sk with OPEN => true | _ => false end
      | None => false
      end
  end.

(** [setTimeout] hands out a fresh handle; [clearTimeout] forgets one. *)
Definition setTimeout (cb : timer_callback) (ms : Z) (st : state)
  : nat * state :=
  (nextTimer st,
   with_timers (<[nextTimer st := {| callback := cb; delay := ms |}]> (timers st))
               (S (nextTimer st)) st).

Definition clearTimeout (h : nat) (st : state) : state :=
  with_timers (delete h (timers st)) (nextTimer st) st.

(** Calling the [resolve] or [reject] function of the promise of
    subscription [id]: only the first call settles it. *)
Definition settle (id : Z) (outcome : promise) (st : state) : state :=
  with_promises
    (match promises st !! id with
     | Some Pending => <[id := outcome]> (promises st)
     | _ => promises st
     end)
    (settleCalls st ++ [(id, outcome)]) st.

Definition cancelIdleTimeout (st : state) : state :=
  match idleTimeout st with
  | Some h => with_idleTimeout None (clearTimeout h st)
  | None => st
  end.

Definition scheduleIdleDisconnect (st : state) : state :=
  if (0 <? Z.of_nat (length (subscriptions st))) then st
  else
    let st1 := cancelIdleTimeout st in
    let '(h, st2) := setTimeout IdleDisconnect idleTimeoutMs st1 in
    with_idleTimeout (Some h) st2.

(** The closures of [monitorTransaction], for the call that allocated
    [subscriptionId]. *)
Definition resolveWithCleanup (subscriptionId : Z)
    (r : TransactionMonitorResult) (st : state) : state :=
  let st1 := with_subscriptions (map_delete subscriptionId (subscriptions st)) st in
  settle subscriptionId (Resolved r) (scheduleIdleDisconnect st1).

Definition rejectWithCleanup (subscriptionId : Z) (reason : string)
    (st : state) : state :=
  let st1 := with_subscriptions (map_delete subscriptionId (subscriptions st)) st in
  settle subscriptionId (Rejected reason) (scheduleIdleDisconnect st1).

(** The callback of the countdown timer (lines 107-111): it calls the
    promise's own [resolve]. *)
Definition onSubscriptionTimeout (subscriptionId : Z) (st : state) : state :=
  let st1 := with_subscriptions (map_delete subscriptionId (subscriptions st)) st in
  settle subscriptionId (Resolved {| confirmed := false; txData := None |})
         (scheduleIdleDisconnect st1).

(** [ws.close()] on the current socket. *)
Definition closeSocket (s : nat) (st : state) : state :=
  match sockets st !! s with
  | Some sk =>
      with_sockets
        (<[s := {| readyState := CLOSING; url := url sk;
                   connectSettled := connectSettled sk |}]> (sockets st))
        (nextSocket st) st
  | None => st
  end.

(** The callback of the idle timer (lines 282-288). *)
Definition onIdleTimeout (st : state) : state :=
  match ws st with
  | Some s =>
      if (Z.of_nat (length (subscriptions st)) =? 0)
      then with_ws None (closeSocket s (log LogIdleClose st))
      else st
  | None => st
  end.

(** The body of [monitorTransaction] after [connected] was found true:
    lines 90-129.  [send] on a null [this.ws] throws inside the promise
    executor, which rejects the promise just created. *)
Definition subscribe (call : nat) (sig : string) (timeoutMs : Z)
    (st : state) : state :=
  let st1 := cancelIdleTimeout st in
  let subscriptionId := nextSubscriptionId st1 in
  let st2 := with_nextSubscriptionId (subscriptionId + 1) st1 in
  let st3 := with_promises (<[subscriptionId := Pending]> (promises st2))
                           (settleCalls st2) st2 in
  let '(h, st4) := setTimeout (SubscriptionTimeout subscriptionId) timeoutMs st3 in
  let st5 :=
    with_subscriptions
      (map_set subscriptionId
         {| signature := sig; owner := subscriptionId; timeout := h |}
         (subscriptions st4)) st4 in
  let st6 := with_calls (<[call := Monitoring subscriptionId]> (calls st5))
                        (nextCall st5) st5 in
  match ws st6 with
  | Some s =>
      log (LogMonitoring sig)
          (with_sent (sent st6 ++ [(s, subscriptionId, sig)]) st6)
  | None =>
      settle subscriptionId
        (Rejected "Cannot read properties of null (reading 'send')") st6
  end.

(** [throw new Error('WebSocket not available')]. *)
Definition unavailable (call : nat) (st : state) : state :=
  with_calls (<[call := Unavailable]> (calls st)) (nextCall st) st.

(** [monitorTransaction], up to its first suspension: the synchronous
    part of [ensureWebSocketConnected], and of [connectWebSocket] when this
    call is the one that opens the socket.  When
    [ensureWebSocketConnected] answers at once, the [await] of line 85
    defers the rest by a microtask only: with no other call in the same
    tick it runs on the state the call found, which is what is written
    here. *)
Definition monitorTransaction (sig : string) (timeoutMs : Z)
    (st : state) : state :=
  let call := nextCall st in
  let st := with_calls (<[call := Suspended]> (calls st)) (S call) st in
  if negb (isApiKeyValid (apiKey config)) then unavailable call st
  else if isWebSocketConnected st then subscribe call sig timeoutMs st
  else
    match connecting st with
    | Some attempt =>
        with_waiters
          (waiters st ++
             [{| w_call := call; w_attempt := attempt; w_initiator := false;
                 w_signature := sig; w_timeoutMs := timeoutMs |}]) st
    | None =>
        match getWebSocketUrl with
        | None => unavailable call st
        | Some wsUrl =>
            let st := log (LogConnecting subdomain) st in
            let s := nextSocket st in
            let st1 :=
              with_sockets
                (<[s := {| readyState := CONNECTING; url := wsUrl;
                           connectSettled := false |}]> (sockets st))
                (S s) st in
            let st2 := with_connecting (Some s) (with_ws (Some s) st1) in
            with_waiters
              (waiters st2 ++
                 [{| w_call := call; w_attempt := s; w_initiator := true;
                     w_signature := sig; w_timeoutMs := timeoutMs |}]) st2
        end
    end.

(** The rest of [ensureWebSocketConnected] once the awaited attempt has
    settled ([ok]: fulfilled): the value it returns to the waiter. *)
Definition resumeEnsure (ok : bool) (w : waiter) (st : state) : bool * state :=
  if w_initiator w
  then (ok, with_connecting None (if ok then st else log LogConnectFailed st))
  else ((if ok then isWebSocketConnected st else false), st).

(** The reactions of the settled attempt run first, in the order the
    callers suspended ... *)
Fixpoint resumeAll (ok : bool) (ws : list waiter) (st : state)
  : list (waiter * bool) * state :=
  match ws with
  | [] => ([], st)
  | w :: rest =>
      let '(connected, st1) := resumeEnsure ok w st in
      let '(done, st2) := resumeAll ok rest st1 in
      ((w, connected) :: done, st2)
  end.

(** ... and then each [monitorTransaction] goes on from line 86. *)
Fixpoint continueAll (done : list (waiter * bool)) (st : state) : state :=
  match done with
  | [] => st
  | (w, connected) :: rest =>
      continueAll rest
        (if connected then subscribe (w_call w) (w_signature w) (w_timeoutMs w) st
         else unavailable (w_call w) st)
  end.

Definition awaits (attempt : nat) (w : waiter) : bool :=
  Nat.eqb (w_attempt w) attempt.

(** Settling the promise of [connectWebSocket] for socket [s]: [resolve()]
    in the ['open'] listener, [reject(error)] in the ['error'] listener. *)
Definition settleConnect (s : nat) (ok : bool) (st : state) : state :=
  match sockets st !! s with
  | Some sk =>
      if connectSettled sk then st
      else
        let st1 :=
          with_sockets
            (<[s := {| readyState := readyState sk; url := url sk;
                       connectSettled := true |}]> (sockets st))
            (nextSocket st) st in
        let woken := filter (fun w => awaits s w = true) (waiters st1) in
        let st2 :=
          with_waiters (filter (fun w => awaits s w = false) (waiters st1)) st1 in
        let '(done, st3) := resumeAll ok woken st2 in
        continueAll done st3
  | None => st
  end.

Definition setReadyState (s : nat) (r : ready_state) (st : state) : state :=
  match sockets st !! s with
  | Some sk =>
      with_sockets
        (<[s := {| readyState := r; url := url sk;
                   connectSettled := connectSettled sk |}]> (sockets st))
        (nextSocket st) st
  | None => st
  end.

(** The test of line 236 on the notification's [result]. *)
Definition reportsError (r : json) : bool :=
  truthy r &&
  match get_field "value" r with
  | Some v =>
      truthy v && is_object v &&
      match get_field "err" v with
      | Some e => truthy e
      | None => false
      end
  | None => false
  end.

(** Line 255: the error the handler drops. *)
Definition isInvalidSubscription (e : rpc_error) : bool :=
  match code e, message e with
  | Some c, Some m => (c =? -32602) && includes "Invalid subscription" m
  | _, _ => false
  end.

(** The text [`${message.error.message}`] renders. *)
Definition errorText (e : rpc_error) : string :=
  match message e with
  | Some m => m
  | None => "undefined"
  end.

(** The value of [message.error] for an error of the interface. *)
Definition error_json (e : rpc_error) : json :=
  JObj (match code e with Some c => [("code", JNum c)] | None => [] end ++
        match message e with Some m => [("message", JStr m)] | None => [] end).

(** Line 226: [message.method === 'signatureNotification' && message.params]. *)
Definition asNotification (m : WebSocketMessage) : option notification :=
  match msg_method m, msg_params m with
  | Some meth, Some p =>
      if String.eqb meth "signatureNotification" then Some p else None
  | _, _ => None
  end.

Definition handleWebSocketMessage (m : WebSocketMessage) (st : state) : state :=
  match asNotification m with
  | Some p =>
      match map_get (subscription p) (subscriptions st) with
      | Some sub =>
          let st1 := clearTimeout (timeout sub) st in
          let st2 :=
            with_subscriptions
              (map_delete (subscription p) (subscriptions st1)) st1 in
          if reportsError (result p)
          then resolveWithCleanup (owner sub)
                 {| confirmed := false; txData := Some (result p) |} st2
          else resolveWithCleanup (owner sub)
                 {| confirmed := true; txData := Some (result p) |} st2
      | None => st
      end
  | None =>
      match msg_result m, msg_id m with
      | Some serverSubscriptionId, Some localId =>
          let st := log (LogRemapped localId (JNum serverSubscriptionId)) st in
          match map_get localId (subscriptions st) with
          | Some sub =>
              with_subscriptions
                (map_set serverSubscriptionId sub
                   (map_delete localId (subscriptions st))) st
          | None => st
          end
      | _, _ =>
          match msg_error m with
          | Some e =>
              if isInvalidSubscription e then st
              else
                let st := log (LogErrorFrame (error_json e)) st in
                match msg_id m with
                | Some id =>
                    match map_get id (subscriptions st) with
                    | Some sub =>
                        let st1 := clearTimeout (timeout sub) st in
                        let st2 :=
                          with_subscriptions
                            (map_delete id (subscriptions st1)) st1 in
                        rejectWithCleanup (owner sub)
                          ("WebSocket error: " +:+ errorText e) st2
                    | None => st
                    end
                | None => st
                end
          | None => st
          end
      end
  end.

(** The ['message'] listener: [JSON.parse] inside [try]; a throw is logged
    and the frame dropped. *)
Definition onMessage (data : inbound) (st : state) : state :=
  match data with
  | Unparseable => log LogParseError st
  | Parsed m => handleWebSocketMessage m st
  end.

(** *** The frame as [JSON.parse] returns it

    [interface WebSocketMessage] is erased at run time: the handler is
    handed whatever value the text parses to and reads [method], [params],
    [result], [id] and [error] off it.  [handleWebSocketMessage] above takes
    the frames the interface describes; [handleParsed] below takes the
    parsed value as it is, line by line, and agrees with it on those frames
    ([frame_json], lemma [handleParsed_typed]). *)

(** [`${x}`] for a parsed value [x], as a template literal renders it. *)
Fixpoint toString (v : json) : string :=
  match v with
  | JNull => "null"
  | JBool b => if b then "true" else "false"
  | JNum z => pretty z
  | JStr s => s
  | JArr items =>
      (fix join (l : list json) : string :=
         match l with
         | [] => ""
         | x :: rest =>
             (match x with JNull => "" | _ => toString x end)
             +:+ match rest with [] => "" | _ => "," +:+ join rest end
         end) items
  | JObj _ => "[object Object]"
  end.

(** The same for a property that may be [undefined]. *)
Definition templateText (v : option json) : string :=
  match v with
  | Some x => toString x
  | None => "undefined"
  end.

(** [null] is the one parsed value whose properties cannot be read. *)
Definition isNull (v : json) : bool :=
  match v with
  | JNull => true
  | _ => false
  end.

(** Line 226 on the parsed value. *)
Definition isNotification (frame : json) : bool :=
  match get_field "method" frame, get_field "params" frame with
  | Some (JStr meth), Some params =>
      String.eqb meth "signatureNotification" && truthy params
  | _, _ => false
  end.

(** Line 242 on the parsed value:
    [message.result !== undefined && typeof message.id === 'number'], with
    the [id] and the [result], which may be of any type, [null] included. *)
Definition asAcknowledgment (frame : json) : option (Z * json) :=
  match get_field "result" frame, get_field "id" frame with
  | Some serverSubscriptionId, Some (JNum localId) =>
      Some (localId, serverSubscriptionId)
  | _, _ => None
  end.

(** Line 253 on the parsed value: [message.error], when it is truthy. *)
Definition asError (frame : json) : option json :=
  match get_field "error" frame with
  | Some e => if truthy e then Some e else None
  | None => None
  end.

(** Line 255 on the parsed value of [message.error]:
    [error.code === -32602 && error.message?.includes('Invalid subscription')].
    [None] when the test throws: a number, a boolean or an object has no
    function [includes] to call. *)
Definition invalidSubscription (e : json) : option bool :=
  match get_field "code" e with
  | Some (JNum c) =>
      if c =? -32602 then
        match get_field "message" e with
        | None | Some JNull => Some false
        | Some (JStr m) => Some (includes "Invalid subscription" m)
        | Some (JArr items) =>
            Some (existsb
                    (fun x =>
                       match x with
                       | JStr s => String.eqb s "Invalid subscription"
                       | _ => false
                       end) items)
        | Some _ => None
        end
      else Some false
  | _ => Some false
  end.

(** [this.subscriptions.get(k)] for a value [k] read off a frame.  The
    keys of the table are numbers, so that only a number finds an entry. *)
Definition lookupKey (k : option json) (m : list (Z * WebSocketSubscription))
  : option (Z * WebSocketSubscription) :=
  match k with
  | Some (JNum key) =>
      match map_get key m with
      | Some sub => Some (key, sub)
      | None => None
      end
  | _ => None
  end.

(** How a call of [handleWebSocketMessage] on a parsed value ends. *)
Inductive handled :=
| Returned (st : state)
    (* it returned, leaving the service in [st] *)
| Threw
    (* it threw a [TypeError], having changed nothing *)
| Rekeyed (st : state) (key : json) (sub : WebSocketSubscription).
    (* it returned, having taken [sub] from its key and put it, behind the
       entries of [st], under [key], which is not a number: a table that
       [Map<number, WebSocketSubscription>] does not describe, and that
       [state], whose keys are integers, does not hold *)

Definition handleParsed (frame : json) (st : state) : handled :=
  if isNull frame then Threw        (* [message.method] of [null] *)
  else if isNotification frame then
    let params := get_field "params" frame in
    let subscriptionId :=
      match params with Some p => get_field "subscription" p | None => None end in
    let result :=
      match params with Some p => get_field "result" p | None => None end in
    match lookupKey subscriptionId (subscriptions st) with
    | Some (key, sub) =>
        let st1 := clearTimeout (timeout sub) st in
        let st2 :=
          with_subscriptions (map_delete key (subscriptions st1)) st1 in
        if match result with Some r => reportsError r | None => false end
        then Returned (resolveWithCleanup (owner sub)
                         {| confirmed := false; txData := result |} st2)
        else Returned (resolveWithCleanup (owner sub)
                         {| confirmed := true; txData := result |} st2)
    | None => Returned st
    end
  else
    match asAcknowledgment frame with
    | Some (localId, serverSubscriptionId) =>
        let st := log (LogRemapped localId serverSubscriptionId) st in
        match map_get localId (subscriptions st) with
        | Some sub =>
            let rest := map_delete localId (subscriptions st) in
            match serverSubscriptionId with
            | JNum key =>
                Returned (with_subscriptions (map_set key sub rest) st)
            | _ =>
                Rekeyed (with_subscriptions rest st) serverSubscriptionId sub
            end
        | None => Returned st
        end
    | None =>
        match asError frame with
        | Some e =>
            match invalidSubscription e with
            | None => Threw
            | Some true => Returned st
            | Some false =>
                let st := log (LogErrorFrame e) st in
                match lookupKey (get_field "id" frame) (subscriptions st) with
                | Some (key, sub) =>
                    let st1 := clearTimeout (timeout sub) st in
                    let st2 :=
                      with_subscriptions
                        (map_delete key (subscriptions st1)) st1 in
                    Returned
                      (rejectWithCleanup (owner sub)
                         ("WebSocket error: "
                          +:+ templateText (get_field "message" e)) st2)
                | None => Returned st
                end
            end
        | None => Returned st
        end
    end.

(** The ['message'] listener on the text received: [None] is text that
    [JSON.parse] rejects.  Whatever the [try] block throws is logged. *)
Definition onData (data : option json) (st : state) : handled :=
  match data with
  | None => Returned (log LogParseError st)
  | Some frame =>
      match handleParsed frame st with
      | Threw => Returned (log LogParseError st)
      | done => done
      end
  end.

(** The parsed value of a frame of the interface. *)
Definition frame_json (m : WebSocketMessage) : json :=
  JObj ([("jsonrpc", JStr "2.0")] ++
        match msg_method m with Some meth => [("method", JStr meth)] | None => [] end ++
        match msg_params m with
        | Some p => [("params", JObj [("result", result p);
                                      ("subscription", JNum (subscription p))])]
        | None => []
        end ++
        match msg_result m with Some r => [("result", JNum r)] | None => [] end ++
        match msg_id m with Some id => [("id", JNum id)] | None => [] end ++
        match msg_error m with Some e => [("error", error_json e)] | None => [] end).

(** [for (const [_, subscription] of this.subscriptions)] with a body that
    clears the timer and calls [subscription.reject].  The body deletes
    from the map it iterates; a [Map] iterator skips the entries deleted
    before it reaches them, and nothing is added meanwhile.  [todo] is the
    table as the loop found it. *)
Fixpoint rejectEach (reason : string)
    (todo : list (Z * WebSocketSubscription)) (st : state) : state :=
  match todo with
  | [] => st
  | (key, sub) :: rest =>
      if map_has key (subscriptions st)
      then rejectEach reason rest
             (rejectWithCleanup (owner sub) reason
                (clearTimeout (timeout sub) st))
      else rejectEach reason rest st
  end.

Definition handleWebSocketClose (st : state) : state :=
  let st1 := rejectEach "WebSocket disconnected" (subscriptions st) st in
  let st2 := with_subscriptions [] st1 in
  cancelIdleTimeout st2.

Definition disconnect (st : state) : state :=
  let st1 := cancelIdleTimeout st in
  let st2 := rejectEach "Service disconnected" (subscriptions st1) st1 in
  let st3 := with_subscriptions [] st2 in
  match ws st3 with
  | Some s => log LogDisconnected (with_ws None (closeSocket s st3))
  | None => st3
  end.

(** *** The event loop *)

(** One macrotask: a call of the public interface, a timer that fires, or
    what a socket the service created emits in one tick.  A socket emits
    ['error'] on its own ([SocketError]), which is what the [ws] library
    does on an established connection, or ['error'] and then ['close']
    within one tick ([SocketFail]), which is how the library reports a
    connection attempt that fails: both listeners have run before any
    caller awaiting the attempt is resumed.  The development does not
    restrict which of the two a socket emits when. *)
Inductive event :=
| CallMonitor (sig : string) (timeoutMs : Z)
| CallDisconnect
| TimerFires (h : nat)
| SocketOpen (s : nat)
| SocketMessage (s : nat) (data : inbound)
| SocketError (s : nat)
| SocketClose (s : nat)
| SocketFail (s : nat).

Definition fire (h : nat) (st : state) : state :=
  match timers st !! h with
  | Some t =>
      let st1 := clearTimeout h st in
      match callback t with
      | SubscriptionTimeout id => onSubscriptionTimeout id st1
      | IdleDisconnect => onIdleTimeout st1
      end
  | None => st
  end.

(** Socket [s] exists and is still connecting. *)
Definition isConnecting (s : nat) (st : state) : bool :=
  match sockets st !! s with
  | Some sk => match readyState sk with CONNECTING => true | _ => false end
  | None => false
  end.

(** Socket [s] exists and has not emitted ['close'] yet. *)
Definition isAlive (s : nat) (st : state) : bool :=
  match sockets st !! s with
  | Some sk => match readyState sk with CLOSED => false | _ => true end
  | None => false
  end.

(** The listeners installed by [connectWebSocket] (lines 195-218), each
    after the change of [readyState] the [ws] library makes before it
    emits the event.  A socket opens only while connecting, and emits
    nothing once it has emitted ['close'].  The listeners do not look at
    which socket they were installed on.  The callers that await the
    attempt resume in the microtasks that follow the listeners of the
    tick. *)
Definition step (st : state) (e : event) : state :=
  match e with
  | CallMonitor sig timeoutMs => monitorTransaction sig timeoutMs st
  | CallDisconnect => disconnect st
  | TimerFires h => fire h st
  | SocketOpen s =>
      if isConnecting s st
      then settleConnect s true (log LogConnected (setReadyState s OPEN st))
      else st
  | SocketMessage s data =>
      if isAlive s st then onMessage data st else st
  | SocketError s =>
      if isAlive s st
      then settleConnect s false (log LogSocketError (setReadyState s CLOSING st))
      else st
  | SocketClose s =>
      if isAlive s st
      then handleWebSocketClose
             (with_ws None (log LogClosed (setReadyState s CLOSED st)))
      else st
  | SocketFail s =>
      if isAlive s st
      then
        (* the ['error'] listener: [reject(error)] queues its reactions *)
        let st1 := log LogSocketError (setReadyState s CLOSING st) in
        (* the ['close'] listener, in the same tick *)
        let st2 :=
          handleWebSocketClose
            (with_ws None (log LogClosed (setReadyState s CLOSED st1))) in
        (* the reactions: the callers awaiting the attempt resume *)
        settleConnect s false st2
      else st
  end.

Definition run (st : state) (es : list event) : state :=
  fold_left step es st.

(** The states the service can be in: whatever a sequence of events makes
    of a fresh instance. *)
Inductive reachable : state -> Prop :=
| reachable_initial : reachable initial
| reachable_step st e : reachable st -> reachable (step st e).

(** The idle timer is armed: [idleTimeout] holds a timer that is still
    to fire. *)
Definition idleArmed (st : state) : bool :=
  match idleTimeout st with
  | Some h =>
      match timers st !! h with
      | Some t => match callback t with IdleDisconnect => true | _ => false end
      | None => false
      end
  | None => false
  end.


(** The local ids of the subscriptions in the table. *)
Definition owners (m : list (Z * WebSocketSubscription)) : list Z :=
  (fun e => owner (snd e)) <$> m.

(** What holds of the table, the promises and the timers in every
    reachable state. *)
Record well_formed (st : state) : Prop := {
  wf_keys : NoDup (fst <$> subscriptions st);
  wf_owners : NoDup (owners (subscriptions st));
  wf_allocated :
    Forall (fun id => id < nextSubscriptionId st) (owners (subscriptions st));
  wf_promises :
    forall id, is_Some (promises st !! id) -> id < nextSubscriptionId st;
  wf_timers :
    forall h, is_Some (timers st !! h) -> (h < nextTimer st)%nat;
  wf_handles :
    Forall (fun e => (timeout (snd e) < nextTimer st)%nat) (subscriptions st);
}.


(** What holds of the connection attempt in every reachable state: the
    callers suspended in [ensureWebSocketConnected] all await the attempt
    [connecting] holds, the one that started it first, and no other
    attempt is unsettled. *)
Record attempt_shared (st : state) : Prop := {
  at_fresh : forall s, is_Some (sockets st !! s) -> (s < nextSocket st)%nat;
  at_idle : connecting st = None -> waiters st = [];
  at_unsettled :
    forall s sk, sockets st !! s = Some sk -> connectSettled sk = false ->
                 connecting st = Some s;
  at_waiters :
    forall s, connecting st = Some s ->
      (exists sk, sockets st !! s = Some sk /\ connectSettled sk = false) /\
      Forall (fun w => w_attempt w = s) (waiters st) /\
      exists first rest,
        waiters st = first :: rest /\ w_initiator first = true /\
        Forall (fun w => w_initiator w = false) rest;
}.

(** A transition that registers nothing: the table only loses entries, no
    promise is created, a settled promise keeps its outcome, and the only
    new timers are fresh ones. *)
Record shrinks (st st' : state) : Prop := {
  sh_subscriptions : subscriptions st' `sublist_of` subscriptions st;
  sh_next : nextSubscriptionId st' = nextSubscriptionId st;
  sh_promises :
    forall id, is_Some (promises st' !! id) -> is_Some (promises st !! id);
  sh_outcomes :
    forall id outcome, promises st !! id = Some outcome -> outcome <> Pending ->
                       promises st' !! id = Some outcome;
  sh_timers :
    forall h t, timers st' !! h = Some t ->
                timers st !! h = Some t \/ (nextTimer st <= h < nextTimer st')%nat;
  sh_nextTimer : (nextTimer st <= nextTimer st')%nat;
}.

(** A transition that leaves the connection attempt alone: the sockets
    keep their connect promises as they are. *)
Record same_attempt (st st' : state) : Prop := {
  sa_connecting : connecting st' = connecting st;
  sa_waiters : waiters st' = waiters st;
  sa_nextSocket : nextSocket st' = nextSocket st;
  sa_sockets :
    forall s, connectSettled <$> (sockets st' !! s)
              = connectSettled <$> (sockets st !! s);
}.

(** No entry of the table sits under the local id of another
    subscription: the server has handed out no id that is also the local
    id of a subscription in the table under another key. *)
Definition unaliased (m : list (Z * WebSocketSubscription)) : Prop :=
  forall k sub k' sub',
    (k, sub) ∈ m -> (k', sub') ∈ m -> k' = owner sub -> k' = k.

(** An attempt is in flight on socket [s]: the state [Connecting] of the
    connection state machine. *)
Definition joining (s : nat) (st : state) : Prop :=
  ws st = Some s /\ connecting st = Some s /\ isConnecting s st = true.

(** The calls [monitorTransaction(signature, timeoutMs)], one per request. *)
Definition monitorCalls (requests : list (string * Z)) : list event :=
  (fun r => CallMonitor (fst r) (snd r)) <$> requests.

(** A frame matches a tracked subscription, in one of the three shapes
    the handler distinguishes: a notification whose [params.subscription]
    is a key of the table; otherwise a frame with a [result], of whatever
    type, and a numeric [id] that is a key; otherwise a frame with a truthy
    [error] on which the test of line 255 is false, and an [id] that is a
    key. *)
Definition tracked (k : option json) (st : state) : bool :=
  match lookupKey k (subscriptions st) with
  | Some _ => true
  | None => false
  end.

Definition matches (st : state) (frame : json) : bool :=
  if isNotification frame then
    tracked (match get_field "params" frame with
             | Some p => get_field "subscription" p
             | None => None
             end) st
  else
    match asAcknowledgment frame with
    | Some (localId, _) => tracked (Some (JNum localId)) st
    | None =>
        match asError frame with
        | Some e =>
            match invalidSubscription e with
            | Some false => tracked (get_field "id" frame) st
            | _ => false
            end
        | None => false
        end
    end.

(** What was received matches no tracked subscription: text that does not
    parse, or a parsed value that matches none. *)
Definition unmatched (st : state) (data : option json) : Prop :=
  match data with
  | None => True
  | Some frame => matches st frame = false
  end.

(** The lines the logger is handed for what was received, by its shape
    alone: the error line of the [catch] block for text that does not
    parse and for a value that makes the handler throw ([null], or an error
    with code -32602 whose [message] has no [includes]); the debug line of
    the remap for a value, not a notification, with a [result] and a
    numeric [id]; the error line for one, neither of these, with a truthy
    [error] that is not of the dropped class; nothing otherwise. *)
Definition logged (data : option json) : list log_entry :=
  match data with
  | None => [LogParseError]
  | Some frame =>
      if isNull frame then [LogParseError]
      else if isNotification frame then []
      else
        match asAcknowledgment frame with
        | Some (localId, serverSubscriptionId) =>
            [LogRemapped localId serverSubscriptionId]
        | None =>
            match asError frame with
            | Some e =>
                match invalidSubscription e with
                | None => [LogParseError]
                | Some true => []
                | Some false => [LogErrorFrame e]
                end
            | None => []
            end
        end
  end.

End Service.

(** *** Frames and instances used in the traces below *)

(** Modelled from the spec: [isApiKeyValid] of the absent base class, in
    the one respect the spec and the tests fix: "missing/invalid key →
    capability predicate false", an empty key being the tested case. *)
Definition nonEmptyKey (key : string) : bool := negb (String.eqb key "").

Definition testConfig : RPCProviderConfig := {| apiKey := "test-api-key-123" |}.

Definition mainnetBeta : NetworkInfo :=
  {| chain := "solana"; network := "mainnet-beta"; chainId := 101 |}.

(** [{jsonrpc:'2.0', result, id}]. *)
Definition ackFrame (serverId localId : Z) : WebSocketMessage :=
  {| msg_method := None; msg_params := None; msg_result := Some serverId;
     msg_id := Some localId; msg_error := None |}.

(** [{jsonrpc:'2.0', method:'signatureNotification', params:{result, subscription}}]. *)
Definition notificationFrame (r : json) (serverId : Z) : WebSocketMessage :=
  {| msg_method := Some "signatureNotification";
     msg_params := Some {| result := r; subscription := serverId |};
     msg_result := None; msg_id := None; msg_error := None |}.

(** [{jsonrpc:'2.0', id, error:{code, message}}]. *)
Definition errorFrame (localId c : Z) (m : string) : WebSocketMessage :=
  {| msg_method := None; msg_params := None; msg_result := None;
     msg_id := Some localId;
     msg_error := Some {| code := Some c; message := Some m |} |}.

(** [{context:{slot}, value:{err}}]. *)
Definition signatureResult (slot : Z) (err : json) : json :=
  JObj [("context", JObj [("slot", JNum slot)]); ("value", JObj [("err", err)])].

(** The service of the test suite. *)
Definition testRun : state -> list event -> state :=
  run nonEmptyKey testConfig mainnetBeta.

(** *** Further relations and invariants *)

(** The correlation id of a [signatureSubscribe] frame that was sent. *)
Definition frameId (f : nat * Z * string) : Z := snd (fst f).

(** A transition made of subscriptions and cleanups: the counter only
    grows, the promises it creates and the frames it sends carry the ids
    the counter passed over, each once, and it accepts no call and creates
    no socket. *)
Record allocates (st st' : state) : Prop := {
  al_next : nextSubscriptionId st <= nextSubscriptionId st';
  al_promises :
    forall id, is_Some (promises st' !! id) ->
      is_Some (promises st !! id) \/
      nextSubscriptionId st <= id < nextSubscriptionId st';
  al_sent :
    exists new,
      sent st' = (sent st ++ new)%list /\
      Forall (fun f => nextSubscriptionId st <= frameId f < nextSubscriptionId st') new /\
      NoDup (frameId <$> new);
  al_nextCall : nextCall st' = nextCall st;
  al_nextSocket : nextSocket st' = nextSocket st;
}.

(** What holds of the frames sent in every reachable state: their ids were
    handed out by the counter, no two frames carry the same id, and no
    more sockets were created than calls accepted. *)
Record wire_ok (st : state) : Prop := {
  wo_allocated : Forall (fun f => frameId f < nextSubscriptionId st) (sent st);
  wo_distinct : NoDup (frameId <$> sent st);
  wo_sockets : (nextSocket st <= nextCall st)%nat;
}.

(** What holds of the idle timers in every reachable state: the only one
    that is set is the one [idleTimeout] holds, with the delay
    [idleTimeoutMs]. *)
Definition idle_timers_held (st : state) : Prop :=
  forall h t, timers st !! h = Some t -> callback t = IdleDisconnect ->
    idleTimeout st = Some h /\ delay t = idleTimeoutMs.

(** A transition that neither accepts, resumes nor answers a call. *)
Record keeps_callers (st st' : state) : Prop := {
  kc_calls : calls st' = calls st;
  kc_waiters : waiters st' = waiters st;
  kc_nextCall : nextCall st' = nextCall st;
}.

(** What holds of the callers in every reachable state: a call that is
    still suspended is one of the waiters, and calls are numbered below
    [nextCall]. *)
Record callers_wait (st : state) : Prop := {
  cw_suspended :
    forall c, calls st !! c = Some Suspended -> c ∈ w_call <$> waiters st;
  cw_waiters : Forall (fun w => (w_call w < nextCall st)%nat) (waiters st);
}.

(** A transition that leaves the sockets, [this.ws] and [connecting]
    alone. *)
Record same_connection (st st' : state) : Prop := {
  sc_sockets : sockets st' = sockets st;
  sc_ws : ws st' = ws st;
  sc_connecting : connecting st' = connecting st;
}.

(** What holds of the sockets in every reachable state: the promise of a
    socket that is still connecting is not settled, the promise of an open
    socket is, and while an attempt is in flight [this.ws] is null or the
    socket of the attempt. *)
Record attempt_pending (st : state) : Prop := {
  ap_connecting :
    forall s sk, sockets st !! s = Some sk -> readyState sk = CONNECTING ->
                 connectSettled sk = false;
  ap_open :
    forall s sk, sockets st !! s = Some sk -> readyState sk = OPEN ->
                 connectSettled sk = true;
  ap_ws : forall s s', connecting st = Some s -> ws st = Some s' -> s' = s;
}.

End Helius.

Import Helius.

(* ===================================================================== *)
(** ** Endpoint resolution *)
(* ===================================================================== *)

Lemma lookup_network_unmapped (id : Z) (m : list (Z * string)) :
  ~ In id (map fst m) -> Infura.lookup_network id m = None.
Proof.
  induction m as [|[k name] m IH]; simpl; intros Hnot; [reflexivity|].
  destruct (Z.eqb_spec k id) as [->|Hne].
  - exfalso. apply Hnot. now left.
  - apply IH. intros Hin. apply Hnot. now right.
Qed.

Lemma negb_eqb_neq (a b : string) : a <> b -> negb (String.eqb a b) = true.
Proof. intros H. apply negb_true_iff, String.eqb_neq, H. Qed.

(** C10. Constructing an [InfuraService] throws when the chain is not
    'ethereum'; [getHttpUrl], and with it the constructor, throws when the
    chain id is not in the network map; and for every chain id of the map
    [getHttpUrl] is 'https://{networkName}.infura.io/v3/{apiKey}'. *)
Theorem infura_endpoint (config : RPCProviderConfig) (networkInfo : NetworkInfo) :
  (chain networkInfo <> "ethereum" ->
     Infura.new config networkInfo = inl Infura.OnlyEthereum) /\
  (~ Infura.mapped (chainId networkInfo) ->
     Infura.getHttpUrl config networkInfo
       = inl (Infura.NetworkNotSupported (chainId networkInfo)) /\
     exists e, Infura.new config networkInfo = inl e) /\
  (Infura.mapped (chainId networkInfo) ->
     exists name,
       In (chainId networkInfo, name) Infura.NETWORK_MAP /\
       Infura.getHttpUrl config networkInfo
         = inr ("https://" +:+ name +:+ ".infura.io/v3/" +:+ apiKey config)).
Proof.
  split; [|split].
  - intros Hchain. unfold Infura.new. now rewrite (negb_eqb_neq _ _ Hchain).
  - intros Hnot.
    assert (Hurl : Infura.getHttpUrl config networkInfo
                   = inl (Infura.NetworkNotSupported (chainId networkInfo))).
    { unfold Infura.getHttpUrl, Infura.getInfuraNetworkName.
      now rewrite (lookup_network_unmapped _ _ Hnot). }
    split; [exact Hurl|].
    unfold Infura.new. rewrite Hurl.
    destruct (negb _); eauto.
  - intros Hin. unfold Infura.mapped in Hin.
    unfold Infura.getHttpUrl, Infura.getInfuraNetworkName.
    simpl in Hin.
    repeat (destruct Hin as [<-|Hin];
            [eexists; split; [|reflexivity]; simpl; tauto|]).
    contradiction.
Qed.

Lemma infura_endpoint_witness :
  Infura.new {| apiKey := "k" |} {| chain := "solana"; network := "mainnet"; chainId := 1 |}
    = inl Infura.OnlyEthereum /\
  Infura.getHttpUrl {| apiKey := "k" |} {| chain := "ethereum"; network := "x"; chainId := 2 |}
    = inl (Infura.NetworkNotSupported 2) /\
  (exists name,
     In (1, name) Infura.NETWORK_MAP /\
     Infura.getHttpUrl {| apiKey := "k" |}
         {| chain := "ethereum"; network := "mainnet"; chainId := 1 |}
       = inr ("https://" +:+ name +:+ ".infura.io/v3/k")).
Proof.
  split; [|split].
  - apply (infura_endpoint {| apiKey := "k" |}
             {| chain := "solana"; network := "mainnet"; chainId := 1 |}).
    simpl. discriminate.
  - apply (infura_endpoint {| apiKey := "k" |}
             {| chain := "ethereum"; network := "x"; chainId := 2 |}).
    unfold Infura.mapped. simpl. intros H.
    repeat (destruct H as [H|H]; [discriminate H|]). exact H.
  - apply (infura_endpoint {| apiKey := "k" |}
             {| chain := "ethereum"; network := "mainnet"; chainId := 1 |}).
    unfold Infura.mapped. simpl. now left.
Defined.

(** C8. The Helius URLs depend on nothing but the API key and the network
    name; a network name containing 'devnet' selects the devnet subdomain
    and any other the mainnet one; with an empty API key the HTTP URL is
    still formed and ends in '?api-key=', while [getWebSocketUrl] is null
    and [supportsTransactionMonitoring] is false. *)
Theorem helius_urls (isApiKeyValid : string -> bool)
    (c1 c2 : RPCProviderConfig) (n1 n2 : NetworkInfo) :
  isApiKeyValid "" = false ->
  (apiKey c1 = apiKey c2 -> network n1 = network n2 ->
     Helius.getHttpUrl c1 n1 = Helius.getHttpUrl c2 n2 /\
     Helius.getWebSocketUrl isApiKeyValid c1 n1
       = Helius.getWebSocketUrl isApiKeyValid c2 n2) /\
  (includes "devnet" (network n1) = true ->
     Helius.getHttpUrl c1 n1
       = "https://devnet.helius-rpc.com/?api-key=" +:+ apiKey c1 /\
     (isApiKeyValid (apiKey c1) = true ->
        Helius.getWebSocketUrl isApiKeyValid c1 n1
          = Some ("wss://devnet.helius-rpc.com/?api-key=" +:+ apiKey c1))) /\
  (includes "devnet" (network n1) = false ->
     Helius.getHttpUrl c1 n1
       = "https://mainnet.helius-rpc.com/?api-key=" +:+ apiKey c1 /\
     (isApiKeyValid (apiKey c1) = true ->
        Helius.getWebSocketUrl isApiKeyValid c1 n1
          = Some ("wss://mainnet.helius-rpc.com/?api-key=" +:+ apiKey c1))) /\
  (apiKey c1 = "" ->
     (Helius.getHttpUrl c1 n1 = "https://devnet.helius-rpc.com/?api-key=" \/
      Helius.getHttpUrl c1 n1 = "https://mainnet.helius-rpc.com/?api-key=") /\
     Helius.getWebSocketUrl isApiKeyValid c1 n1 = None /\
     Helius.supportsTransactionMonitoring isApiKeyValid c1 = false).
Proof.
  intros Hempty. repeat split.
  - unfold Helius.getHttpUrl, Helius.subdomain. now rewrite H, H0.
  - unfold Helius.getWebSocketUrl, Helius.subdomain. now rewrite H, H0.
  - unfold Helius.getHttpUrl, Helius.subdomain. now rewrite H.
  - intros Hvalid. unfold Helius.getWebSocketUrl, Helius.subdomain.
    now rewrite Hvalid, H.
  - unfold Helius.getHttpUrl, Helius.subdomain. now rewrite H.
  - intros Hvalid. unfold Helius.getWebSocketUrl, Helius.subdomain.
    now rewrite Hvalid, H.
  - unfold Helius.getHttpUrl, Helius.subdomain. rewrite H.
    destruct (includes "devnet" (network n1)); [now left | now right].
  - unfold Helius.getWebSocketUrl. now rewrite H, Hempty.
  - unfold Helius.supportsTransactionMonitoring. now rewrite H, Hempty.
Qed.

Lemma helius_urls_witness :
  Helius.getHttpUrl {| apiKey := "k1" |} Helius.mainnetBeta
    = "https://mainnet.helius-rpc.com/?api-key=k1" /\
  Helius.getWebSocketUrl Helius.nonEmptyKey {| apiKey := "k1" |}
      {| chain := "solana"; network := "solana-devnet"; chainId := 103 |}
    = Some "wss://devnet.helius-rpc.com/?api-key=k1" /\
  Helius.getWebSocketUrl Helius.nonEmptyKey {| apiKey := "" |} Helius.mainnetBeta
    = None.
Proof.
  split; [|split].
  - apply (helius_urls Helius.nonEmptyKey {| apiKey := "k1" |} {| apiKey := "k1" |}
             Helius.mainnetBeta Helius.mainnetBeta); reflexivity.
  - apply (helius_urls Helius.nonEmptyKey {| apiKey := "k1" |} {| apiKey := "k1" |}
             {| chain := "solana"; network := "solana-devnet"; chainId := 103 |}
             Helius.mainnetBeta); reflexivity.
  - apply (helius_urls Helius.nonEmptyKey {| apiKey := "" |} {| apiKey := "" |}
             Helius.mainnetBeta Helius.mainnetBeta); reflexivity.
Defined.

(* ===================================================================== *)
(** ** The subscription table as a [Map] *)
(* ===================================================================== *)

Section JsMapFacts.
Context {V : Type}.
Implicit Types (m : list (Z * V)) (k : Z) (v : V).

Lemma map_get_delete_eq m k : Helius.map_get k (Helius.map_delete k m) = None.
Proof.
  induction m as [|[k' v'] m IH]; simpl; [reflexivity|].
  destruct (Z.eqb_spec k' k) as [->|Hne]; [exact IH|].
  simpl. destruct (Z.eqb_spec k' k); [contradiction|exact IH].
Qed.

Lemma map_get_delete_ne m k k' :
  k <> k' -> Helius.map_get k' (Helius.map_delete k m) = Helius.map_get k' m.
Proof.
  intros Hne. induction m as [|[k0 v0] m IH]; simpl; [reflexivity|].
  destruct (Z.eqb_spec k0 k) as [->|Hk].
  - destruct (Z.eqb_spec k k'); [contradiction|exact IH].
  - simpl. now rewrite IH.
Qed.

Lemma map_get_set_eq m k v : Helius.map_get k (Helius.map_set k v m) = Some v.
Proof.
  induction m as [|[k' v'] m IH]; simpl.
  - now rewrite Z.eqb_refl.
  - destruct (Z.eqb_spec k' k) as [->|Hne]; simpl.
    + now rewrite Z.eqb_refl.
    + destruct (Z.eqb_spec k' k); [contradiction|exact IH].
Qed.

Lemma map_get_set_ne m k k' v :
  k <> k' -> Helius.map_get k' (Helius.map_set k v m) = Helius.map_get k' m.
Proof.
  intros Hne. induction m as [|[k0 v0] m IH]; simpl.
  - destruct (Z.eqb_spec k k'); [contradiction|reflexivity].
  - destruct (Z.eqb_spec k0 k) as [->|Hk]; simpl.
    + destruct (Z.eqb_spec k k'); [contradiction|reflexivity].
    + now rewrite IH.
Qed.

Lemma map_get_elem_of m k v : Helius.map_get k m = Some v -> (k, v) ∈ m.
Proof.
  induction m as [|[k' v'] m IH]; simpl; [discriminate|].
  destruct (Z.eqb_spec k' k) as [->|Hne].
  - intros [= ->]. left.
  - intros H. right. now apply IH.
Qed.

Lemma map_get_None m k : k ∉ (fst <$> m) -> Helius.map_get k m = None.
Proof.
  induction m as [|[k' v'] m IH]; simpl; [reflexivity|].
  intros Hnot. apply not_elem_of_cons in Hnot as [Hne Hnot].
  destruct (Z.eqb_spec k' k) as [->|_]; [contradiction|now apply IH].
Qed.

Lemma elem_of_map_get m k v :
  NoDup (fst <$> m) -> (k, v) ∈ m -> Helius.map_get k m = Some v.
Proof.
  induction m as [|[k' v'] m IH]; simpl; intros Hnd Hin.
  - now apply elem_of_nil in Hin.
  - apply NoDup_cons in Hnd as [Hk' Hnd].
    apply elem_of_cons in Hin as [[= -> ->]|Hin].
    + now rewrite Z.eqb_refl.
    + destruct (Z.eqb_spec k' k) as [->|_]; [|now apply IH].
      exfalso. apply Hk'. apply list_elem_of_fmap. now exists (k, v).
Qed.

Lemma map_delete_sublist m k : Helius.map_delete k m `sublist_of` m.
Proof.
  induction m as [|[k' v'] m IH]; simpl; [constructor|].
  destruct (k' =? k); now constructor.
Qed.

Lemma elem_of_map_set m k v e :
  e ∈ Helius.map_set k v m -> e = (k, v) \/ e ∈ m.
Proof.
  induction m as [|[k' v'] m IH]; simpl.
  - intros ->%list_elem_of_singleton. now left.
  - destruct (k' =? k).
    + intros [->|Hin]%elem_of_cons; [now left|right; now right].
    + intros [->|Hin]%elem_of_cons; [right; left|].
      destruct (IH Hin) as [->|Hin']; [now left|right; now right].
Qed.

Lemma map_set_keys_NoDup m k v :
  NoDup (fst <$> m) -> NoDup (fst <$> Helius.map_set k v m).
Proof.
  induction m as [|[k' v'] m IH]; simpl; intros Hnd.
  - apply NoDup_singleton.
  - apply NoDup_cons in Hnd as [Hk' Hnd].
    destruct (Z.eqb_spec k' k) as [->|Hne]; simpl.
    + now apply NoDup_cons.
    + apply NoDup_cons. split; [|now apply IH].
      intros ([k0 v0] & Hk0 & Hin)%list_elem_of_fmap. simpl in Hk0. subst k0.
      apply elem_of_map_set in Hin as [[= -> ->]|Hin]; [contradiction|].
      apply Hk'. apply list_elem_of_fmap. now exists (k', v0).
Qed.

Lemma map_set_Forall m k v (P : Z * V -> Prop) :
  P (k, v) -> Forall P m -> Forall P (Helius.map_set k v m).
Proof.
  intros Hkv Hm. apply Forall_forall. intros e He.
  apply elem_of_map_set in He as [->|He]; [exact Hkv|].
  rewrite Forall_forall in Hm. now apply Hm.
Qed.

End JsMapFacts.

Lemma map_set_owners_NoDup (m : list (Z * Helius.WebSocketSubscription)) k v :
  NoDup (Helius.owners m) -> Helius.owner v ∉ Helius.owners m ->
  NoDup (Helius.owners (Helius.map_set k v m)).
Proof.
  unfold Helius.owners.
  induction m as [|[k' v'] m IH]; simpl; intros Hnd Hv.
  - apply NoDup_singleton.
  - apply NoDup_cons in Hnd as [Hv' Hnd].
    apply not_elem_of_cons in Hv as [Hne Hv].
    destruct (k' =? k); simpl.
    + now apply NoDup_cons.
    + apply NoDup_cons. split; [|now apply IH].
      intros ([k0 v0] & Hk0 & Hin)%list_elem_of_fmap. simpl in Hk0.
      apply elem_of_map_set in Hin as [[= -> ->]|Hin]; [congruence|].
      apply Hv'. apply list_elem_of_fmap. now exists (k0, v0).
Qed.

Lemma owners_sublist (m m' : list (Z * Helius.WebSocketSubscription)) :
  m' `sublist_of` m -> Helius.owners m' `sublist_of` Helius.owners m.
Proof. intros H. unfold Helius.owners. now apply fmap_sublist. Qed.

Lemma Forall_sublist {A} (P : A -> Prop) (l l' : list A) :
  l' `sublist_of` l -> Forall P l -> Forall P l'.
Proof.
  intros Hsub Hl. apply Forall_forall. intros x Hx.
  rewrite Forall_forall in Hl. apply Hl. eapply elem_of_sublist; eauto.
Qed.

(* ===================================================================== *)
(** ** Transitions that register nothing *)
(* ===================================================================== *)

Lemma shrinks_refl st : shrinks st st.
Proof. split; auto. Qed.

Lemma shrinks_trans st1 st2 st3 :
  shrinks st1 st2 -> shrinks st2 st3 -> shrinks st1 st3.
Proof.
  intros [S1 N1 P1 O1 T1 L1] [S2 N2 P2 O2 T2 L2]. split.
  - etrans; eauto.
  - congruence.
  - auto.
  - eauto.
  - intros h t Hh. destruct (T2 h t Hh) as [Hh'|Hh']; [|right; lia].
    destruct (T1 h t Hh') as [?|?]; [now left|right; lia].
  - lia.
Qed.

Lemma shrinks_well_formed st st' :
  well_formed st -> shrinks st st' -> well_formed st'.
Proof.
  intros [K O A P T H] [S1 N1 P1 _ T1 L1]. split.
  - refine (sublist_NoDup _ _ K _). now apply fmap_sublist.
  - refine (sublist_NoDup _ _ O _). now apply owners_sublist.
  - rewrite N1. eapply Forall_sublist; [|exact A]. now apply owners_sublist.
  - intros id Hid. rewrite N1. auto.
  - intros h [t Hh]. destruct (T1 h t Hh) as [Hh'|Hh']; [|lia].
    specialize (T h (mk_is_Some _ _ Hh')). lia.
  - eapply Forall_sublist; [exact S1|].
    eapply Forall_impl; [exact H|]. simpl. intros e He. lia.
Qed.

Ltac same_fields := split; simpl; auto; try lia.

Lemma shrinks_clearTimeout st h : shrinks st (clearTimeout h st).
Proof.
  same_fields. intros h' t Hh'. left.
  destruct (decide (h = h')) as [->|Hne].
  - now rewrite lookup_delete_eq in Hh'.
  - now rewrite lookup_delete_ne in Hh'.
Qed.

Lemma shrinks_settle st id outcome : shrinks st (settle id outcome st).
Proof.
  same_fields.
  - intros id' Hid'.
    destruct (promises st !! id) as [[| |]|] eqn:E; auto.
    destruct (decide (id = id')) as [->|Hne].
    + now rewrite E.
    + now rewrite lookup_insert_ne in Hid'.
  - intros id' o Hid' Ho.
    destruct (promises st !! id) as [[| |]|] eqn:E; auto.
    rewrite lookup_insert_ne; [exact Hid'|]. congruence.
Qed.

Lemma shrinks_cancelIdleTimeout st : shrinks st (cancelIdleTimeout st).
Proof.
  unfold cancelIdleTimeout. destruct (idleTimeout st) as [h|].
  - eapply shrinks_trans; [apply (shrinks_clearTimeout st h)|]. same_fields.
  - apply shrinks_refl.
Qed.

Lemma shrinks_setTimeout st cb ms :
  shrinks st (setTimeout cb ms st).2.
Proof.
  same_fields. intros h t Hh.
  destruct (decide (nextTimer st = h)) as [<-|Hne].
  - right. lia.
  - left. now rewrite lookup_insert_ne in Hh.
Qed.

Lemma shrinks_scheduleIdleDisconnect st : shrinks st (scheduleIdleDisconnect st).
Proof.
  unfold scheduleIdleDisconnect. destruct (0 <? _); [apply shrinks_refl|].
  eapply shrinks_trans; [apply shrinks_cancelIdleTimeout|].
  eapply shrinks_trans; [apply (shrinks_setTimeout _ IdleDisconnect idleTimeoutMs)|].
  same_fields.
Qed.

Lemma shrinks_delete st k :
  shrinks st (with_subscriptions (map_delete k (subscriptions st)) st).
Proof. same_fields. apply map_delete_sublist. Qed.

Lemma shrinks_clear st : shrinks st (with_subscriptions [] st).
Proof. same_fields. apply sublist_nil_l. Qed.

Lemma shrinks_resolveWithCleanup st id r : shrinks st (resolveWithCleanup id r st).
Proof.
  unfold resolveWithCleanup.
  eapply shrinks_trans; [apply (shrinks_delete st id)|].
  eapply shrinks_trans; [apply shrinks_scheduleIdleDisconnect|].
  apply shrinks_settle.
Qed.

Lemma shrinks_rejectWithCleanup st id reason :
  shrinks st (rejectWithCleanup id reason st).
Proof.
  unfold rejectWithCleanup.
  eapply shrinks_trans; [apply (shrinks_delete st id)|].
  eapply shrinks_trans; [apply shrinks_scheduleIdleDisconnect|].
  apply shrinks_settle.
Qed.

Lemma shrinks_onSubscriptionTimeout st id : shrinks st (onSubscriptionTimeout id st).
Proof.
  unfold onSubscriptionTimeout.
  eapply shrinks_trans; [apply (shrinks_delete st id)|].
  eapply shrinks_trans; [apply shrinks_scheduleIdleDisconnect|].
  apply shrinks_settle.
Qed.

Lemma shrinks_closeSocket st s : shrinks st (closeSocket s st).
Proof. unfold closeSocket. destruct (sockets st !! s); same_fields. Qed.

Lemma shrinks_setReadyState st s r : shrinks st (setReadyState s r st).
Proof. unfold setReadyState. destruct (sockets st !! s); same_fields. Qed.

Lemma shrinks_with_ws st x : shrinks st (with_ws x st).
Proof. same_fields. Qed.

Lemma shrinks_log st entry : shrinks st (log entry st).
Proof. same_fields. Qed.

Lemma shrinks_onIdleTimeout st : shrinks st (onIdleTimeout st).
Proof.
  unfold onIdleTimeout. destruct (ws st) as [s|]; [|apply shrinks_refl].
  destruct (_ =? 0); [|apply shrinks_refl].
  eapply shrinks_trans; [apply (shrinks_log st LogIdleClose)|].
  eapply shrinks_trans; [apply shrinks_closeSocket|apply shrinks_with_ws].
Qed.

Lemma shrinks_fire st h : shrinks st (fire h st).
Proof.
  unfold fire. destruct (timers st !! h) as [t|]; [|apply shrinks_refl].
  eapply shrinks_trans; [apply (shrinks_clearTimeout st h)|].
  destruct (callback t);
    [apply shrinks_onSubscriptionTimeout|apply shrinks_onIdleTimeout].
Qed.

Lemma shrinks_rejectEach reason todo st : shrinks st (rejectEach reason todo st).
Proof.
  revert st. induction todo as [|[key sub] todo IH]; intros st; simpl.
  - apply shrinks_refl.
  - destruct (map_has key (subscriptions st)); [|apply IH].
    eapply shrinks_trans; [|apply IH].
    eapply shrinks_trans; [apply (shrinks_clearTimeout st (timeout sub))|].
    apply shrinks_rejectWithCleanup.
Qed.

Lemma shrinks_handleWebSocketClose st : shrinks st (handleWebSocketClose st).
Proof.
  unfold handleWebSocketClose.
  eapply shrinks_trans; [apply shrinks_rejectEach|].
  eapply shrinks_trans; [apply shrinks_clear|].
  apply shrinks_cancelIdleTimeout.
Qed.

Lemma shrinks_disconnect st : shrinks st (disconnect st).
Proof.
  unfold disconnect.
  eapply shrinks_trans; [apply shrinks_cancelIdleTimeout|].
  eapply shrinks_trans; [apply shrinks_rejectEach|].
  eapply shrinks_trans; [apply shrinks_clear|].
  match goal with |- context [ws ?x] => destruct (ws x) as [s|] end;
    [|apply shrinks_refl].
  eapply shrinks_trans; [apply shrinks_closeSocket|].
  eapply shrinks_trans; [apply shrinks_with_ws|apply shrinks_log].
Qed.

Lemma shrinks_unavailable st call : shrinks st (unavailable call st).
Proof. same_fields. Qed.

(* ===================================================================== *)
(** ** The table stays well formed *)
(* ===================================================================== *)

Lemma well_formed_initial : well_formed initial.
Proof.
  split; simpl; try constructor.
  - intros id [x Hx]. now rewrite lookup_empty in Hx.
  - intros h [x Hx]. now rewrite lookup_empty in Hx.
Qed.

Lemma owner_not_in_delete (m : list (Z * WebSocketSubscription)) k sub :
  NoDup (owners m) -> map_get k m = Some sub ->
  owner sub ∉ owners (map_delete k m).
Proof.
  unfold owners.
  induction m as [|[k' v'] m IH]; simpl; [discriminate|].
  intros Hnd Hget. apply NoDup_cons in Hnd as [Hv' Hnd].
  destruct (Z.eqb_spec k' k) as [->|Hne].
  - injection Hget as ->. intros Hin. apply Hv'.
    eapply elem_of_sublist; [exact Hin|]. apply fmap_sublist, map_delete_sublist.
  - simpl. apply not_elem_of_cons. split; [|now apply IH].
    intros Heq. apply Hv'. rewrite <- Heq.
    apply list_elem_of_fmap. exists (k, sub). split; [reflexivity|].
    now apply map_get_elem_of.
Qed.

(** The move an acknowledgment makes. *)
Lemma well_formed_remap st localId serverId sub :
  well_formed st ->
  map_get localId (subscriptions st) = Some sub ->
  well_formed
    (with_subscriptions
       (map_set serverId sub (map_delete localId (subscriptions st))) st).
Proof.
  intros [K O A P T H] Hget.
  pose proof (map_get_elem_of _ _ _ Hget) as Hin.
  pose proof (map_delete_sublist (subscriptions st) localId) as Hsub.
  split; simpl; auto.
  - apply map_set_keys_NoDup.
    refine (sublist_NoDup _ _ K _). now apply fmap_sublist.
  - apply map_set_owners_NoDup.
    + refine (sublist_NoDup _ _ O _). now apply owners_sublist.
    + now apply owner_not_in_delete.
  - unfold owners in *. apply Forall_fmap. apply Forall_fmap in A.
    apply map_set_Forall.
    + rewrite Forall_forall in A. apply (A _ Hin).
    + eapply Forall_sublist; eauto.
  - apply map_set_Forall.
    + rewrite Forall_forall in H. apply (H _ Hin).
    + eapply Forall_sublist; eauto.
Qed.

(** The registration [monitorTransaction] makes once connected. *)
Lemma well_formed_subscribe st call sig timeoutMs :
  well_formed st -> well_formed (subscribe call sig timeoutMs st).
Proof.
  intros Hwf.
  pose proof (shrinks_well_formed _ _ Hwf (shrinks_cancelIdleTimeout st))
    as [K O A P T H].
  unfold subscribe, setTimeout. cbv beta iota zeta.
  set (st1 := cancelIdleTimeout st) in *.
  match goal with
  | |- well_formed (match ws ?x with _ => _ end) => set (st6 := x)
  end.
  assert (Hwf6 : well_formed st6).
  { subst st6. split; simpl.
    - now apply map_set_keys_NoDup.
    - apply map_set_owners_NoDup; [exact O|]. simpl.
      intros Hin. rewrite Forall_forall in A. specialize (A _ Hin). lia.
    - unfold owners in *. apply Forall_fmap. apply Forall_fmap in A.
      apply map_set_Forall; simpl; [lia|].
      eapply Forall_impl; [exact A|]. simpl. intros e He. lia.
    - intros id Hid.
      destruct (decide (nextSubscriptionId st1 = id)) as [<-|Hne]; [lia|].
      rewrite lookup_insert_ne in Hid by exact Hne. specialize (P _ Hid). lia.
    - intros h Hh.
      destruct (decide (nextTimer st1 = h)) as [<-|Hne]; [lia|].
      rewrite lookup_insert_ne in Hh by exact Hne. specialize (T _ Hh). lia.
    - apply map_set_Forall; simpl; [lia|].
      eapply Forall_impl; [exact H|]. simpl. intros e He. lia. }
  destruct (ws st6).
  - eapply shrinks_well_formed; [exact Hwf6|]. same_fields.
  - eapply shrinks_well_formed; [exact Hwf6|]. apply shrinks_settle.
Qed.

Lemma well_formed_handleWebSocketMessage st m :
  well_formed st -> well_formed (handleWebSocketMessage m st).
Proof.
  intros Hwf. unfold handleWebSocketMessage.
  destruct (asNotification m) as [p|].
  - destruct (map_get _ _) as [sub|]; [|exact Hwf].
    eapply shrinks_well_formed; [exact Hwf|].
    eapply shrinks_trans; [apply (shrinks_clearTimeout st (timeout sub))|].
    eapply shrinks_trans; [apply shrinks_delete|].
    destruct (reportsError _); apply shrinks_resolveWithCleanup.
  - destruct (msg_result m) as [serverId|], (msg_id m) as [localId|].
    + cbv zeta.
      pose proof (shrinks_well_formed _ _ Hwf
                    (shrinks_log st (LogRemapped localId (JNum serverId)))) as Hwf'.
      set (st' := log _ st) in *.
      destruct (map_get _ _) as [sub|] eqn:Hget; [|exact Hwf'].
      now apply well_formed_remap.
    + destruct (msg_error m) as [e|]; [|exact Hwf].
      destruct (isInvalidSubscription e); [exact Hwf|].
      eapply shrinks_well_formed; [exact Hwf|apply shrinks_log].
    + destruct (msg_error m) as [e|]; [|exact Hwf].
      destruct (isInvalidSubscription e); [exact Hwf|].
      cbv zeta.
      pose proof (shrinks_well_formed _ _ Hwf
                    (shrinks_log st (LogErrorFrame (error_json e)))) as Hwf'.
      set (st' := log _ st) in *.
      destruct (map_get _ _) as [sub|]; [|exact Hwf'].
      eapply shrinks_well_formed; [exact Hwf'|].
      eapply shrinks_trans; [apply (shrinks_clearTimeout st' (timeout sub))|].
      eapply shrinks_trans; [apply shrinks_delete|].
      apply shrinks_rejectWithCleanup.
    + destruct (msg_error m) as [e|]; [|exact Hwf].
      destruct (isInvalidSubscription e); [exact Hwf|].
      eapply shrinks_well_formed; [exact Hwf|apply shrinks_log].
Qed.

Section WellFormed.
Variable isApiKeyValid : string -> bool.
Variable config : RPCProviderConfig.
Variable networkInfo : NetworkInfo.

Lemma well_formed_monitorTransaction st sig timeoutMs :
  well_formed st ->
  well_formed (monitorTransaction isApiKeyValid config networkInfo sig timeoutMs st).
Proof.
  intros Hwf. unfold monitorTransaction.
  match goal with
  | |- context [isWebSocketConnected ?x] => set (st0 := x)
  end.
  assert (Hwf0 : well_formed st0).
  { eapply shrinks_well_formed; [exact Hwf|]. subst st0. same_fields. }
  clearbody st0.
  destruct (negb _).
  { eapply shrinks_well_formed; [exact Hwf0|apply shrinks_unavailable]. }
  destruct (isWebSocketConnected st0); [now apply well_formed_subscribe|].
  destruct (connecting st0).
  { eapply shrinks_well_formed; [exact Hwf0|]. same_fields. }
  destruct (getWebSocketUrl _ _ _).
  - eapply shrinks_well_formed; [exact Hwf0|]. same_fields.
  - eapply shrinks_well_formed; [exact Hwf0|apply shrinks_unavailable].
Qed.

Lemma shrinks_resumeAll ok ws st : shrinks st (resumeAll ok ws st).2.
Proof.
  revert st. induction ws as [|w ws IH]; intros st; simpl.
  - apply shrinks_refl.
  - unfold resumeEnsure. destruct (w_initiator w).
    + set (st1 := with_connecting None _).
      specialize (IH st1). destruct (resumeAll ok ws st1) as [done st2].
      simpl in *. eapply shrinks_trans; [|exact IH].
      subst st1. destruct ok; same_fields.
    + specialize (IH st). destruct (resumeAll ok ws st) as [done st2].
      exact IH.
Qed.

Lemma well_formed_continueAll done st :
  well_formed st -> well_formed (continueAll done st).
Proof.
  revert st. induction done as [|[w connected] done IH]; intros st Hwf; simpl.
  - exact Hwf.
  - apply IH. destruct connected.
    + now apply well_formed_subscribe.
    + eapply shrinks_well_formed; [exact Hwf|apply shrinks_unavailable].
Qed.

Lemma well_formed_settleConnect st s ok :
  well_formed st -> well_formed (settleConnect s ok st).
Proof.
  intros Hwf. unfold settleConnect.
  destruct (sockets st !! s) as [sk|]; [|exact Hwf].
  destruct (connectSettled sk); [exact Hwf|].
  match goal with
  | |- context [resumeAll ok ?l ?x] =>
      pose proof (shrinks_resumeAll ok l x) as Hsh;
      assert (Hwfx : well_formed x)
        by (eapply shrinks_well_formed; [exact Hwf|same_fields]);
      destruct (resumeAll ok l x) as [done st3]
  end.
  simpl in Hsh. apply well_formed_continueAll.
  eapply shrinks_well_formed; eauto.
Qed.

Lemma well_formed_step st e :
  well_formed st -> well_formed (step isApiKeyValid config networkInfo st e).
Proof.
  intros Hwf. destruct e; simpl.
  - now apply well_formed_monitorTransaction.
  - eapply shrinks_well_formed; [exact Hwf|apply shrinks_disconnect].
  - eapply shrinks_well_formed; [exact Hwf|apply shrinks_fire].
  - destruct (isConnecting s st); [|exact Hwf].
    apply well_formed_settleConnect.
    eapply shrinks_well_formed; [exact Hwf|].
    eapply shrinks_trans; [apply shrinks_setReadyState|apply shrinks_log].
  - destruct (isAlive s st); [|exact Hwf].
    destruct data; [|now apply well_formed_handleWebSocketMessage].
    eapply shrinks_well_formed; [exact Hwf|apply shrinks_log].
  - destruct (isAlive s st); [|exact Hwf].
    apply well_formed_settleConnect.
    eapply shrinks_well_formed; [exact Hwf|].
    eapply shrinks_trans; [apply shrinks_setReadyState|apply shrinks_log].
  - destruct (isAlive s st); [|exact Hwf].
    eapply shrinks_well_formed; [exact Hwf|].
    eapply shrinks_trans; [apply (shrinks_setReadyState st s CLOSED)|].
    eapply shrinks_trans; [apply shrinks_log|].
    eapply shrinks_trans; [apply shrinks_with_ws|].
    apply shrinks_handleWebSocketClose.
  - destruct (isAlive s st); [|exact Hwf].
    apply well_formed_settleConnect.
    eapply shrinks_well_formed; [exact Hwf|].
    eapply shrinks_trans; [apply (shrinks_setReadyState st s CLOSING)|].
    eapply shrinks_trans; [apply shrinks_log|].
    eapply shrinks_trans; [apply (shrinks_setReadyState _ s CLOSED)|].
    eapply shrinks_trans; [apply shrinks_log|].
    eapply shrinks_trans; [apply shrinks_with_ws|].
    apply shrinks_handleWebSocketClose.
Qed.

(** Invariant 2 of the data model, with the facts it rests on: in every
    reachable state the keys of the table are distinct and no
    subscription sits under two of them. *)
Lemma reachable_well_formed st :
  reachable isApiKeyValid config networkInfo st -> well_formed st.
Proof.
  induction 1 as [|st e _ IH]; [apply well_formed_initial|].
  now apply well_formed_step.
Qed.

End WellFormed.

(* ===================================================================== *)
(** ** Transitions that leave the connection attempt alone *)
(* ===================================================================== *)

Lemma same_attempt_refl st : same_attempt st st.
Proof. split; auto. Qed.

Lemma same_attempt_trans st1 st2 st3 :
  same_attempt st1 st2 -> same_attempt st2 st3 -> same_attempt st1 st3.
Proof.
  intros [C1 W1 N1 S1] [C2 W2 N2 S2].
  split; [congruence|congruence|congruence|].
  intros s. now rewrite S2, S1.
Qed.

Lemma same_attempt_readyState st s r : same_attempt st (setReadyState s r st).
Proof.
  unfold setReadyState. destruct (sockets st !! s) as [sk|] eqn:E;
    [|apply same_attempt_refl].
  split; simpl; auto. intros s'.
  destruct (decide (s = s')) as [<-|Hne].
  - now rewrite lookup_insert_eq, E.
  - now rewrite lookup_insert_ne.
Qed.

Lemma same_attempt_closeSocket st s : same_attempt st (closeSocket s st).
Proof. apply (same_attempt_readyState st s CLOSING). Qed.

Lemma same_attempt_clearTimeout st h : same_attempt st (clearTimeout h st).
Proof. same_fields. Qed.

Lemma same_attempt_settle st id outcome : same_attempt st (settle id outcome st).
Proof. same_fields. Qed.

Lemma same_attempt_cancelIdleTimeout st : same_attempt st (cancelIdleTimeout st).
Proof. unfold cancelIdleTimeout. destruct (idleTimeout st); same_fields. Qed.

Lemma same_attempt_scheduleIdleDisconnect st :
  same_attempt st (scheduleIdleDisconnect st).
Proof.
  unfold scheduleIdleDisconnect. destruct (0 <? _); [apply same_attempt_refl|].
  eapply same_attempt_trans; [apply same_attempt_cancelIdleTimeout|].
  same_fields.
Qed.

Lemma same_attempt_subscriptions st x : same_attempt st (with_subscriptions x st).
Proof. same_fields. Qed.

Lemma same_attempt_resolveWithCleanup st id r :
  same_attempt st (resolveWithCleanup id r st).
Proof.
  unfold resolveWithCleanup.
  eapply same_attempt_trans; [apply same_attempt_subscriptions|].
  eapply same_attempt_trans; [apply same_attempt_scheduleIdleDisconnect|].
  apply same_attempt_settle.
Qed.

Lemma same_attempt_rejectWithCleanup st id reason :
  same_attempt st (rejectWithCleanup id reason st).
Proof.
  unfold rejectWithCleanup.
  eapply same_attempt_trans; [apply same_attempt_subscriptions|].
  eapply same_attempt_trans; [apply same_attempt_scheduleIdleDisconnect|].
  apply same_attempt_settle.
Qed.

Lemma same_attempt_onSubscriptionTimeout st id :
  same_attempt st (onSubscriptionTimeout id st).
Proof.
  unfold onSubscriptionTimeout.
  eapply same_attempt_trans; [apply same_attempt_subscriptions|].
  eapply same_attempt_trans; [apply same_attempt_scheduleIdleDisconnect|].
  apply same_attempt_settle.
Qed.

Lemma same_attempt_with_ws st x : same_attempt st (with_ws x st).
Proof. same_fields. Qed.

Lemma same_attempt_log st entry : same_attempt st (log entry st).
Proof. same_fields. Qed.

Lemma same_attempt_onIdleTimeout st : same_attempt st (onIdleTimeout st).
Proof.
  unfold onIdleTimeout. destruct (ws st) as [s|]; [|apply same_attempt_refl].
  destruct (_ =? 0); [|apply same_attempt_refl].
  eapply same_attempt_trans; [apply (same_attempt_log st LogIdleClose)|].
  eapply same_attempt_trans;
    [apply same_attempt_closeSocket|apply same_attempt_with_ws].
Qed.

Lemma same_attempt_fire st h : same_attempt st (fire h st).
Proof.
  unfold fire. destruct (timers st !! h) as [t|]; [|apply same_attempt_refl].
  eapply same_attempt_trans; [apply (same_attempt_clearTimeout st h)|].
  destruct (callback t);
    [apply same_attempt_onSubscriptionTimeout|apply same_attempt_onIdleTimeout].
Qed.

Lemma same_attempt_rejectEach reason todo st :
  same_attempt st (rejectEach reason todo st).
Proof.
  revert st. induction todo as [|[key sub] todo IH]; intros st; simpl.
  - apply same_attempt_refl.
  - destruct (map_has key (subscriptions st)); [|apply IH].
    eapply same_attempt_trans; [|apply IH].
    eapply same_attempt_trans;
      [apply (same_attempt_clearTimeout st (timeout sub))|].
    apply same_attempt_rejectWithCleanup.
Qed.

Lemma same_attempt_handleWebSocketClose st :
  same_attempt st (handleWebSocketClose st).
Proof.
  unfold handleWebSocketClose.
  eapply same_attempt_trans; [apply same_attempt_rejectEach|].
  eapply same_attempt_trans; [apply same_attempt_subscriptions|].
  apply same_attempt_cancelIdleTimeout.
Qed.

Lemma same_attempt_disconnect st : same_attempt st (disconnect st).
Proof.
  unfold disconnect.
  eapply same_attempt_trans; [apply same_attempt_cancelIdleTimeout|].
  eapply same_attempt_trans; [apply same_attempt_rejectEach|].
  eapply same_attempt_trans; [apply same_attempt_subscriptions|].
  match goal with |- context [ws ?x] => destruct (ws x) as [s|] end;
    [|apply same_attempt_refl].
  eapply same_attempt_trans; [apply same_attempt_closeSocket|].
  eapply same_attempt_trans; [apply same_attempt_with_ws|apply same_attempt_log].
Qed.

Lemma same_attempt_unavailable st call : same_attempt st (unavailable call st).
Proof. same_fields. Qed.

Lemma same_attempt_subscribe st call sig timeoutMs :
  same_attempt st (subscribe call sig timeoutMs st).
Proof.
  eapply same_attempt_trans; [apply same_attempt_cancelIdleTimeout|].
  unfold subscribe, setTimeout. cbv beta iota zeta.
  set (st1 := cancelIdleTimeout st).
  match goal with
  | |- same_attempt _ (match ws ?x with _ => _ end) => set (st6 := x)
  end.
  assert (H6 : same_attempt st1 st6) by (subst st6; same_fields).
  destruct (ws st6).
  - eapply same_attempt_trans; [exact H6|]. same_fields.
  - eapply same_attempt_trans; [exact H6|apply same_attempt_settle].
Qed.

Lemma same_attempt_handleWebSocketMessage st m :
  same_attempt st (handleWebSocketMessage m st).
Proof.
  unfold handleWebSocketMessage.
  destruct (asNotification m) as [p|].
  - destruct (map_get _ _) as [sub|]; [|apply same_attempt_refl].
    eapply same_attempt_trans;
      [apply (same_attempt_clearTimeout st (timeout sub))|].
    eapply same_attempt_trans; [apply same_attempt_subscriptions|].
    destruct (reportsError _); apply same_attempt_resolveWithCleanup.
  - destruct (msg_result m) as [serverId|], (msg_id m) as [localId|].
    + cbv zeta.
      eapply same_attempt_trans;
        [apply (same_attempt_log st (LogRemapped localId (JNum serverId)))|].
      destruct (map_get _ _) as [sub|]; [|apply same_attempt_refl].
      apply same_attempt_subscriptions.
    + destruct (msg_error m) as [e|]; [|apply same_attempt_refl].
      destruct (isInvalidSubscription e);
        [apply same_attempt_refl|apply same_attempt_log].
    + destruct (msg_error m) as [e|]; [|apply same_attempt_refl].
      destruct (isInvalidSubscription e); [apply same_attempt_refl|].
      cbv zeta.
      eapply same_attempt_trans; [apply (same_attempt_log st (LogErrorFrame (error_json e)))|].
      set (st' := log _ st).
      destruct (map_get _ _) as [sub|]; [|apply same_attempt_refl].
      eapply same_attempt_trans;
        [apply (same_attempt_clearTimeout st' (timeout sub))|].
      eapply same_attempt_trans; [apply same_attempt_subscriptions|].
      apply same_attempt_rejectWithCleanup.
    + destruct (msg_error m) as [e|]; [|apply same_attempt_refl].
      destruct (isInvalidSubscription e);
        [apply same_attempt_refl|apply same_attempt_log].
Qed.

Lemma same_attempt_continueAll done st : same_attempt st (continueAll done st).
Proof.
  revert st. induction done as [|[w connected] done IH]; intros st; simpl.
  - apply same_attempt_refl.
  - eapply same_attempt_trans; [|apply IH].
    destruct connected;
      [apply same_attempt_subscribe|apply same_attempt_unavailable].
Qed.

Lemma same_attempt_shared st st' :
  attempt_shared st -> same_attempt st st' -> attempt_shared st'.
Proof.
  intros [F I U W] [C Wt N S]. split.
  - intros s Hs. rewrite N. apply F.
    specialize (S s). destruct Hs as [sk Hsk]. rewrite Hsk in S.
    destruct (sockets st !! s); [eauto|discriminate].
  - rewrite C, Wt. exact I.
  - intros s sk Hsk Hun. rewrite C.
    specialize (S s). rewrite Hsk in S. simpl in S.
    destruct (sockets st !! s) as [sk0|] eqn:E; [|discriminate].
    apply (U s sk0 E). simpl in S. congruence.
  - intros s Hs. rewrite C in Hs. rewrite Wt.
    destruct (W s Hs) as [[sk [Hsk Hun]] HW]. split; [|exact HW].
    specialize (S s). rewrite Hsk in S. simpl in S.
    destruct (sockets st' !! s) as [sk'|]; [|discriminate].
    exists sk'. split; [reflexivity|]. simpl in S. congruence.
Qed.

(* ===================================================================== *)
(** ** One connection attempt at a time *)
(* ===================================================================== *)

Lemma attempt_shared_initial : attempt_shared initial.
Proof.
  split; simpl;
    [ intros s [x Hx]; now rewrite lookup_empty in Hx
    | reflexivity
    | intros s sk Hs; now rewrite lookup_empty in Hs
    | discriminate ].
Qed.

(** What [ensureWebSocketConnected] hands back to the suspended callers,
    and what it leaves behind. *)
Lemma resumeAll_joiners ok l st :
  Forall (fun w => w_initiator w = false) l -> (resumeAll ok l st).2 = st.
Proof.
  induction 1 as [|w l Hw _ IH]; simpl; [reflexivity|].
  unfold resumeEnsure. rewrite Hw.
  destruct (resumeAll ok l st) as [done st2]. exact IH.
Qed.

Lemma resumeAll_state ok first rest st :
  w_initiator first = true ->
  Forall (fun w => w_initiator w = false) rest ->
  (resumeAll ok (first :: rest) st).2
  = with_connecting None (if ok then st else log LogConnectFailed st).
Proof.
  intros Hfirst Hrest. simpl. unfold resumeEnsure. rewrite Hfirst.
  set (st1 := with_connecting None _).
  pose proof (resumeAll_joiners ok rest st1 Hrest) as H.
  destruct (resumeAll ok rest st1) as [done st2]. exact H.
Qed.

Lemma resumeAll_answers ok l st :
  (resumeAll ok l st).1
  = (fun w => (w, if w_initiator w then ok
                  else if ok then isWebSocketConnected st else false)) <$> l.
Proof.
  revert st. induction l as [|w l IH]; intros st; simpl; [reflexivity|].
  unfold resumeEnsure. destruct (w_initiator w); simpl.
  - set (st1 := with_connecting None _).
    specialize (IH st1).
    assert (Hc : isWebSocketConnected st1 = isWebSocketConnected st)
      by (subst st1; now destruct ok).
    destruct (resumeAll ok l st1) as [done st2].
    simpl in *. now rewrite IH, Hc.
  - specialize (IH st). destruct (resumeAll ok l st) as [done st2].
    simpl in *. now rewrite IH.
Qed.

Lemma resumeAll_untouched ok l st :
  idleTimeout (resumeAll ok l st).2 = idleTimeout st /\
  timers (resumeAll ok l st).2 = timers st /\
  subscriptions (resumeAll ok l st).2 = subscriptions st /\
  promises (resumeAll ok l st).2 = promises st.
Proof.
  revert st. induction l as [|w l IH]; intros st; simpl; [auto|].
  unfold resumeEnsure. destruct (w_initiator w).
  - set (st1 := with_connecting None _).
    specialize (IH st1). destruct (resumeAll ok l st1) as [done st2].
    simpl in *. destruct IH as (-> & -> & -> & ->). subst st1. now destruct ok.
  - specialize (IH st). now destruct (resumeAll ok l st) as [done st2].
Qed.

Lemma filter_all {A} (P : A -> Prop) `{!forall x, Decision (P x)} (l : list A) :
  Forall P l -> filter P l = l.
Proof.
  induction 1 as [|x l Hx _ IH]; [reflexivity|].
  rewrite filter_cons_True by exact Hx. now rewrite IH.
Qed.

Lemma filter_none {A} (P : A -> Prop) `{!forall x, Decision (P x)} (l : list A) :
  Forall (fun x => ~ P x) l -> filter P l = [].
Proof.
  induction 1 as [|x l Hx _ IH]; [reflexivity|].
  now rewrite filter_cons_False by exact Hx.
Qed.

Lemma awaits_true s w : awaits s w = true <-> w_attempt w = s.
Proof. unfold awaits. apply Nat.eqb_eq. Qed.

Lemma awaited_all s (l : list waiter) :
  Forall (fun w => w_attempt w = s) l ->
  filter (fun w => awaits s w = true) l = l /\
  filter (fun w => awaits s w = false) l = [].
Proof.
  intros Hall. split.
  - apply filter_all. eapply Forall_impl; [exact Hall|].
    intros w Hw. now apply awaits_true.
  - apply filter_none. eapply Forall_impl; [exact Hall|].
    intros w Hw. simpl. apply awaits_true in Hw. now rewrite Hw.
Qed.

Section AttemptShared.
Variable isApiKeyValid : string -> bool.
Variable config : RPCProviderConfig.
Variable networkInfo : NetworkInfo.

Lemma attempt_shared_monitorTransaction st sig timeoutMs :
  attempt_shared st ->
  attempt_shared
    (monitorTransaction isApiKeyValid config networkInfo sig timeoutMs st).
Proof.
  intros Hat. unfold monitorTransaction.
  set (call := nextCall st).
  match goal with
  | |- context [isWebSocketConnected ?x] => set (st0 := x)
  end.
  assert (Hat0 : attempt_shared st0).
  { eapply same_attempt_shared; [exact Hat|]. subst st0. same_fields. }
  clearbody st0 call. clear Hat st.
  destruct (negb _).
  { eapply same_attempt_shared; [exact Hat0|apply same_attempt_unavailable]. }
  destruct (isWebSocketConnected st0).
  { eapply same_attempt_shared; [exact Hat0|apply same_attempt_subscribe]. }
  destruct Hat0 as [F I U W].
  destruct (connecting st0) as [p|] eqn:Hc.
  - (* joins the attempt in flight *)
    destruct (W p eq_refl) as (Hsk & Hall & first & rest & Hw & Hfirst & Hrest).
    split; simpl; auto.
    + rewrite Hc. discriminate.
    + rewrite Hc. exact U.
    + rewrite Hc. intros s [= <-]. split; [exact Hsk|]. split.
      * apply Forall_app. split; [exact Hall|]. now repeat constructor.
      * eexists first, _. rewrite Hw. split; [reflexivity|].
        split; [exact Hfirst|].
        apply Forall_app. split; [exact Hrest|]. now repeat constructor.
  - (* starts the attempt *)
    destruct (getWebSocketUrl _ _ _) as [wsUrl|].
    2:{ eapply same_attempt_shared; [|apply same_attempt_unavailable].
        split; rewrite ?Hc; assumption. }
    specialize (I eq_refl).
    split; simpl.
    + intros s Hs. destruct (decide (nextSocket st0 = s)) as [<-|Hne]; [lia|].
      rewrite lookup_insert_ne in Hs by exact Hne. specialize (F s Hs). lia.
    + discriminate.
    + intros s sk Hs Hun.
      destruct (decide (nextSocket st0 = s)) as [<-|Hne]; [reflexivity|].
      rewrite lookup_insert_ne in Hs by exact Hne.
      specialize (U s sk Hs Hun). congruence.
    + intros s [= <-]. rewrite lookup_insert_eq. split; [eauto|].
      rewrite I. simpl. split; [now repeat constructor|].
      eexists _, []. split; [reflexivity|]. split; [reflexivity|constructor].
Qed.

Lemma attempt_shared_settleConnect st s ok :
  attempt_shared st -> attempt_shared (settleConnect s ok st).
Proof.
  intros Hat. unfold settleConnect.
  destruct (sockets st !! s) as [sk|] eqn:Hs; [|exact Hat].
  destruct (connectSettled sk) eqn:Hun; [exact Hat|].
  destruct Hat as [F I U W].
  pose proof (U s sk Hs Hun) as Hc.
  destruct (W s Hc) as (_ & Hall & first & rest & Hw & Hfirst & Hrest).
  cbn [waiters with_sockets with_waiters].
  destruct (awaited_all s (waiters st) Hall) as [-> ->].
  rewrite Hw.
  match goal with
  | |- context [resumeAll ok _ ?x] =>
      pose proof (resumeAll_state ok first rest x Hfirst Hrest) as Hst;
      destruct (resumeAll ok (first :: rest) x) as [done st3]
  end.
  simpl in Hst. subst st3.
  eapply same_attempt_shared; [|apply same_attempt_continueAll].
  split; [destruct ok; simpl..].
  all: try discriminate; try reflexivity.
  all: try (intros s' Hs'; destruct (decide (s = s')) as [<-|Hne];
            [apply F; eauto|];
            rewrite lookup_insert_ne in Hs' by exact Hne; now apply F).
  all: intros s' sk' Hs' Hun';
    (destruct (decide (s = s')) as [<-|Hne];
     [rewrite lookup_insert_eq in Hs'; injection Hs' as <-; discriminate|]);
    rewrite lookup_insert_ne in Hs' by exact Hne;
    specialize (U s' sk' Hs' Hun'); congruence.
Qed.

Lemma attempt_shared_step st e :
  attempt_shared st ->
  attempt_shared (step isApiKeyValid config networkInfo st e).
Proof.
  intros Hat. destruct e; simpl.
  - now apply attempt_shared_monitorTransaction.
  - eapply same_attempt_shared; [exact Hat|apply same_attempt_disconnect].
  - eapply same_attempt_shared; [exact Hat|apply same_attempt_fire].
  - destruct (isConnecting s st); [|exact Hat].
    apply attempt_shared_settleConnect.
    eapply same_attempt_shared; [exact Hat|].
    eapply same_attempt_trans;
      [apply same_attempt_readyState|apply same_attempt_log].
  - destruct (isAlive s st); [|exact Hat].
    destruct data;
      (eapply same_attempt_shared;
       [exact Hat
       |first [apply same_attempt_log|apply same_attempt_handleWebSocketMessage]]).
  - destruct (isAlive s st); [|exact Hat].
    apply attempt_shared_settleConnect.
    eapply same_attempt_shared; [exact Hat|].
    eapply same_attempt_trans;
      [apply same_attempt_readyState|apply same_attempt_log].
  - destruct (isAlive s st); [|exact Hat].
    eapply same_attempt_shared; [exact Hat|].
    eapply same_attempt_trans; [apply (same_attempt_readyState st s CLOSED)|].
    eapply same_attempt_trans; [apply same_attempt_log|].
    eapply same_attempt_trans; [apply same_attempt_with_ws|].
    apply same_attempt_handleWebSocketClose.
  - destruct (isAlive s st); [|exact Hat].
    apply attempt_shared_settleConnect.
    eapply same_attempt_shared; [exact Hat|].
    eapply same_attempt_trans; [apply (same_attempt_readyState st s CLOSING)|].
    eapply same_attempt_trans; [apply same_attempt_log|].
    eapply same_attempt_trans; [apply (same_attempt_readyState _ s CLOSED)|].
    eapply same_attempt_trans; [apply same_attempt_log|].
    eapply same_attempt_trans; [apply same_attempt_with_ws|].
    apply same_attempt_handleWebSocketClose.
Qed.

Lemma reachable_attempt_shared st :
  reachable isApiKeyValid config networkInfo st -> attempt_shared st.
Proof.
  induction 1 as [|st e _ IH]; [apply attempt_shared_initial|].
  now apply attempt_shared_step.
Qed.

End AttemptShared.

(* ===================================================================== *)
(** ** What the callbacks touch *)
(* ===================================================================== *)

Lemma idleTimeout_cancelIdleTimeout st :
  idleTimeout (cancelIdleTimeout st) = None.
Proof.
  unfold cancelIdleTimeout.
  destruct (idleTimeout st) eqn:E; [reflexivity|exact E].
Qed.

Lemma subscriptions_cancelIdleTimeout st :
  subscriptions (cancelIdleTimeout st) = subscriptions st.
Proof. unfold cancelIdleTimeout. now destruct (idleTimeout st). Qed.

Lemma promises_scheduleIdleDisconnect st :
  promises (scheduleIdleDisconnect st) = promises st.
Proof.
  unfold scheduleIdleDisconnect, cancelIdleTimeout.
  destruct (0 <? _); [reflexivity|]. now destruct (idleTimeout st).
Qed.

Lemma settleCalls_scheduleIdleDisconnect st :
  settleCalls (scheduleIdleDisconnect st) = settleCalls st.
Proof.
  unfold scheduleIdleDisconnect, cancelIdleTimeout.
  destruct (0 <? _); [reflexivity|]. now destruct (idleTimeout st).
Qed.

Lemma subscriptions_scheduleIdleDisconnect st :
  subscriptions (scheduleIdleDisconnect st) = subscriptions st.
Proof.
  unfold scheduleIdleDisconnect, cancelIdleTimeout.
  destruct (0 <? _); [reflexivity|]. now destruct (idleTimeout st).
Qed.

(** Scheduling the idle disconnect leaves every timer below the next
    handle as it was, the idle timer's own apart. *)
Lemma timers_scheduleIdleDisconnect st h :
  timers st !! h = None -> (h < nextTimer st)%nat ->
  timers (scheduleIdleDisconnect st) !! h = None.
Proof.
  intros Hnone Hlt. unfold scheduleIdleDisconnect, cancelIdleTimeout.
  destruct (0 <? _); [exact Hnone|].
  destruct (idleTimeout st) as [i|]; simpl.
  - rewrite lookup_insert_ne by lia.
    destruct (decide (i = h)) as [->|Hne];
      [apply lookup_delete_eq|now rewrite lookup_delete_ne].
  - now rewrite lookup_insert_ne by lia.
Qed.

Lemma promises_settle_pending st id outcome :
  promises st !! id = Some Pending ->
  promises (settle id outcome st) !! id = Some outcome.
Proof. intros H. unfold settle. simpl. rewrite H. apply lookup_insert_eq. Qed.

Lemma promises_settle_other st id id' outcome :
  id' <> id -> promises (settle id outcome st) !! id' = promises st !! id'.
Proof.
  intros Hne. unfold settle. simpl.
  destruct (promises st !! id) as [[| |]|]; try reflexivity.
  now rewrite lookup_insert_ne.
Qed.

(** A promise that is settled stays as it is: the later calls of its
    [resolve] and [reject] change nothing. *)
Lemma promises_settle_settled st id id' outcome :
  promises st !! id' <> Some Pending ->
  promises (settle id outcome st) !! id' = promises st !! id'.
Proof.
  intros Hset. destruct (decide (id' = id)) as [->|Hne];
    [|now apply promises_settle_other].
  unfold settle. simpl.
  destruct (promises st !! id) as [[| |]|] eqn:E; try exact E. congruence.
Qed.

Lemma map_get_delete_None {V} (m : list (Z * V)) k k' :
  map_get k m = None -> map_get k (map_delete k' m) = None.
Proof.
  intros H. destruct (Z.eq_dec k' k) as [->|Hne];
    [apply map_get_delete_eq|now rewrite map_get_delete_ne].
Qed.

(* ===================================================================== *)
(** ** Frames that match nothing *)
(* ===================================================================== *)

Lemma asNotification_Some m p :
  msg_method m = Some "signatureNotification" -> msg_params m = Some p ->
  asNotification m = Some p.
Proof. intros Hm Hp. unfold asNotification. now rewrite Hm, Hp. Qed.

Lemma asNotification_other m meth :
  msg_method m = Some meth -> meth <> "signatureNotification" ->
  asNotification m = None.
Proof.
  intros Hm Hne. unfold asNotification. rewrite Hm.
  destruct (msg_params m); [|reflexivity].
  apply String.eqb_neq in Hne. now rewrite Hne.
Qed.

Lemma with_logs_same st : with_logs (logs st ++ []) st = st.
Proof. destruct st. unfold with_logs. simpl. now rewrite app_nil_r. Qed.

(** Counterexample to C9 as stated ("is logged"): a frame with a method
    the handler does not know, and a notification for an id that is not
    tracked, are dropped without a line to the logger; unparseable bytes
    do get their line. *)
Lemma unknown_method_not_logged :
  let st := testRun initial [CallMonitor "TestSignature" 1000; SocketOpen 0%nat] in
  let unknown :=
    Parsed {| msg_method := Some "unknownMethod";
              msg_params := Some {| result := JObj []; subscription := 999 |};
              msg_result := None; msg_id := None; msg_error := None |} in
  let stray := Parsed (notificationFrame (signatureResult 1 JNull) 999) in
  logs (step nonEmptyKey testConfig mainnetBeta st (SocketMessage 0%nat unknown))
    = logs st /\
  logs (step nonEmptyKey testConfig mainnetBeta st (SocketMessage 0%nat stray))
    = logs st /\
  logs (step nonEmptyKey testConfig mainnetBeta st (SocketMessage 0%nat Unparseable))
    = (logs st ++ [LogParseError])%list.
Proof. vm_compute. repeat split; reflexivity. Qed.

Lemma method_frame_json m :
  get_field "method" (frame_json m) = JStr <$> msg_method m.
Proof.
  destruct m as [[meth|] [p|] [r|] [id|] [e|]]; reflexivity.
Qed.

Lemma params_frame_json m :
  get_field "params" (frame_json m)
  = (fun p => JObj [("result", result p); ("subscription", JNum (subscription p))])
      <$> msg_params m.
Proof.
  destruct m as [[meth|] [p|] [r|] [id|] [e|]]; reflexivity.
Qed.

Lemma result_frame_json m :
  get_field "result" (frame_json m) = JNum <$> msg_result m.
Proof.
  destruct m as [[meth|] [p|] [r|] [id|] [e|]]; reflexivity.
Qed.

Lemma id_frame_json m :
  get_field "id" (frame_json m) = JNum <$> msg_id m.
Proof.
  destruct m as [[meth|] [p|] [r|] [id|] [e|]]; reflexivity.
Qed.

Lemma error_frame_json m :
  get_field "error" (frame_json m) = error_json <$> msg_error m.
Proof.
  destruct m as [[meth|] [p|] [r|] [id|] [e|]]; reflexivity.
Qed.

Lemma isNotification_frame_json m :
  isNotification (frame_json m)
  = match asNotification m with Some _ => true | None => false end.
Proof.
  unfold isNotification, asNotification.
  rewrite method_frame_json, params_frame_json.
  destruct (msg_method m) as [meth|], (msg_params m) as [p|]; simpl;
    try reflexivity.
  destruct (String.eqb meth "signatureNotification"); reflexivity.
Qed.

Lemma invalidSubscription_error_json e :
  invalidSubscription (error_json e) = Some (isInvalidSubscription e).
Proof.
  destruct e as [[c|] [msg|]]; unfold invalidSubscription, isInvalidSubscription;
    simpl; try reflexivity; destruct (c =? -32602); reflexivity.
Qed.

Lemma templateText_error_json e :
  templateText (get_field "message" (error_json e)) = errorText e.
Proof. destruct e as [[c|] [msg|]]; reflexivity. Qed.

Lemma truthy_error_json e : truthy (error_json e) = true.
Proof. reflexivity. Qed.

Lemma asAcknowledgment_frame_json m :
  asAcknowledgment (frame_json m)
  = match msg_result m, msg_id m with
    | Some serverId, Some localId => Some (localId, JNum serverId)
    | _, _ => None
    end.
Proof.
  unfold asAcknowledgment. rewrite result_frame_json, id_frame_json.
  now destruct (msg_result m), (msg_id m).
Qed.

Lemma asError_frame_json m :
  asError (frame_json m) = error_json <$> msg_error m.
Proof.
  unfold asError. rewrite error_frame_json. now destruct (msg_error m).
Qed.

(** On the frames of the interface the two handlers agree. *)
Lemma handleParsed_typed m st :
  handleParsed (frame_json m) st = Returned (handleWebSocketMessage m st).
Proof.
  unfold handleParsed, handleWebSocketMessage.
  rewrite isNotification_frame_json, params_frame_json,
    asAcknowledgment_frame_json, asError_frame_json, id_frame_json.
  change (isNull (frame_json m)) with false. cbv iota.
  destruct (asNotification m) as [p|] eqn:Hn.
  - assert (Hp : msg_params m = Some p).
    { unfold asNotification in Hn.
      destruct (msg_method m), (msg_params m); try discriminate.
      destruct (String.eqb _ _); now inversion Hn. }
    rewrite Hp. simpl.
    destruct (map_get (subscription p) (subscriptions st)) as [sub|];
      [|reflexivity].
    destruct (reportsError (result p)); reflexivity.
  - destruct (msg_result m) as [serverId|], (msg_id m) as [localId|];
      cbn [fmap option_fmap option_map].
    1:{ cbv zeta.
        change (subscriptions (log _ st)) with (subscriptions st).
        destruct (map_get localId (subscriptions st)); reflexivity. }
    all: destruct (msg_error m) as [e|]; cbn [fmap option_fmap option_map];
      [|reflexivity].
    all: rewrite invalidSubscription_error_json.
    all: destruct (isInvalidSubscription e); [reflexivity|].
    all: cbv zeta; rewrite templateText_error_json.
    all: change (subscriptions (log _ st)) with (subscriptions st).
    all: unfold lookupKey; try reflexivity.
    destruct (map_get localId (subscriptions st)) as [sub|]; reflexivity.
Qed.

Lemma onData_typed m st :
  onData (Some (frame_json m)) st = Returned (onMessage (Parsed m) st).
Proof. unfold onData. now rewrite handleParsed_typed. Qed.

Lemma tracked_lookupKey k st :
  tracked k st = false -> lookupKey k (subscriptions st) = None.
Proof. unfold tracked. now destruct (lookupKey k (subscriptions st)). Qed.

Lemma tracked_number id st :
  tracked (Some (JNum id)) st = false -> map_get id (subscriptions st) = None.
Proof.
  unfold tracked, lookupKey. now destruct (map_get id (subscriptions st)).
Qed.

(** C9 (amended). What the listener receives and that matches no tracked
    subscription is ignored: the listener returns, and the table, the
    connection and the rest of the state are what they were, the log
    apart.  This covers text that does not parse, the value [null], a
    value that is not an object, [{}], a frame with a method the handler
    does not know, a notification without [params], and every
    notification, acknowledgment or error whose id finds no entry, as
    well as an error of the class the handler drops whatever its id.  The
    log gains the lines of [logged]: the error line of the [catch] block
    when the text does not parse or the handler throws, the debug line of
    the remap for a frame with a [result] and a numeric [id], the error
    line for a frame with an [error] outside the dropped class, and
    nothing otherwise. *)
Theorem unmatched_frame_ignored (st : state) (data : option json) :
  unmatched st data ->
  onData data st = Returned (with_logs (logs st ++ logged data) st).
Proof.
  destruct data as [frame|]; [|reflexivity].
  unfold unmatched, matches, onData, handleParsed, logged.
  destruct (isNull frame); [reflexivity|].
  destruct (isNotification frame).
  { intros Hm. cbv zeta. rewrite (tracked_lookupKey _ _ Hm).
    now rewrite with_logs_same. }
  destruct (asAcknowledgment frame) as [[localId serverSubscriptionId]|].
  { intros Hm. cbv zeta.
    change (subscriptions (log (LogRemapped localId serverSubscriptionId) st))
      with (subscriptions st).
    now rewrite (tracked_number _ _ Hm). }
  destruct (asError frame) as [e|]; [|now rewrite with_logs_same].
  destruct (invalidSubscription e) as [[|]|];
    [now rewrite with_logs_same| |reflexivity].
  intros Hm. cbv zeta.
  change (subscriptions (log (LogErrorFrame e) st)) with (subscriptions st).
  now rewrite (tracked_lookupKey _ _ Hm).
Qed.

Lemma unmatched_frame_ignored_witness :
  let st := testRun initial [CallMonitor "TestSignature" 1000; SocketOpen 0%nat] in
  let empty := JObj [] in
  let bare :=
    JObj [("jsonrpc", JStr "2.0"); ("method", JStr "signatureNotification")] in
  let stray :=
    JObj [("jsonrpc", JStr "2.0"); ("result", JStr "abc"); ("id", JNum 99)] in
  let benign :=
    JObj [("jsonrpc", JStr "2.0"); ("id", JNum 99);
          ("error", JObj [("code", JNum (-32602));
                          ("message", JStr "Invalid subscription id")])] in
  map_get 1 (subscriptions st)
  = Some {| signature := "TestSignature"; owner := 1; timeout := 0%nat |} /\
  onData None st = Returned (with_logs (logs st ++ [LogParseError]) st) /\
  onData (Some JNull) st = Returned (with_logs (logs st ++ [LogParseError]) st) /\
  onData (Some empty) st = Returned (with_logs (logs st ++ []) st) /\
  onData (Some bare) st = Returned (with_logs (logs st ++ []) st) /\
  onData (Some stray) st
  = Returned (with_logs (logs st ++ [LogRemapped 99 (JStr "abc")]) st) /\
  onData (Some benign) st = Returned (with_logs (logs st ++ []) st).
Proof.
  intros st empty bare stray benign.
  split; [reflexivity|].
  split; [exact (unmatched_frame_ignored st None I)|].
  split; [exact (unmatched_frame_ignored st (Some JNull) eq_refl)|].
  split; [exact (unmatched_frame_ignored st (Some empty) eq_refl)|].
  split; [exact (unmatched_frame_ignored st (Some bare) eq_refl)|].
  split; [exact (unmatched_frame_ignored st (Some stray) eq_refl)|].
  exact (unmatched_frame_ignored st (Some benign) eq_refl).
Defined.

(** An acknowledgment whose [result] is not a number, for an id that is
    tracked: the subscription leaves its key and is stored under the
    string, where no notification with a numeric subscription id and no
    error with a numeric id finds it; its promise stays pending and its
    countdown keeps running. *)
Lemma non_numeric_result_rekeys :
  let st := testRun initial [CallMonitor "sig" 30000; SocketOpen 0%nat] in
  let frame :=
    JObj [("jsonrpc", JStr "2.0"); ("result", JStr "abc"); ("id", JNum 1)] in
  matches st frame = true /\
  onData (Some frame) st
  = Rekeyed (with_subscriptions [] (log (LogRemapped 1 (JStr "abc")) st))
      (JStr "abc") {| signature := "sig"; owner := 1; timeout := 0%nat |} /\
  promises st !! 1 = Some Pending /\
  timers st !! 0%nat
  = Some {| callback := SubscriptionTimeout 1; delay := 30000 |}.
Proof. vm_compute. repeat split; reflexivity. Qed.

(** The listener never lets a throw of the handler through. *)
Lemma listener_never_throws data st : onData data st <> Threw.
Proof.
  unfold onData. destruct data as [frame|]; [|discriminate].
  now destruct (handleParsed frame st).
Qed.

(* ===================================================================== *)
(** ** Acknowledgment, then notification *)
(* ===================================================================== *)

Lemma reportsError_null payload v :
  get_field "value" payload = Some v -> get_field "err" v = Some JNull ->
  reportsError payload = false.
Proof.
  intros Hv He. unfold reportsError. rewrite Hv, He. simpl.
  now rewrite !andb_false_r.
Qed.

Lemma reportsError_object payload v e :
  get_field "value" payload = Some v -> get_field "err" v = Some e ->
  is_object e = true -> reportsError payload = true.
Proof.
  intros Hv He Hobj. unfold reportsError. rewrite Hv, He.
  destruct payload; try discriminate Hv.
  destruct v; try discriminate He.
  destruct e; try discriminate Hobj; reflexivity.
Qed.

(** What a notification does to the promise of the subscription it finds
    under its key. *)
Lemma notification_resolves st note payload serverId sub :
  asNotification note = Some {| result := payload; subscription := serverId |} ->
  map_get serverId (subscriptions st) = Some sub ->
  promises st !! owner sub = Some Pending ->
  promises (handleWebSocketMessage note st) !! owner sub
  = Some (Resolved {| confirmed := negb (reportsError payload);
                      txData := Some payload |}).
Proof.
  intros Hnote Hget Hpending. unfold handleWebSocketMessage.
  rewrite Hnote. simpl. rewrite Hget.
  destruct (reportsError payload); simpl;
    unfold resolveWithCleanup; apply promises_settle_pending;
    now rewrite promises_scheduleIdleDisconnect.
Qed.

(** C3. An acknowledgment for a tracked local id moves the subscription
    to the server-assigned id, under which alone it is found afterwards;
    a notification for that id then resolves the waiter: confirmed with
    the payload as details when [value.err] is null, not confirmed with the
    payload as details when [value.err] is a non-null object. *)
Theorem acknowledgment_then_notification (isApiKeyValid : string -> bool)
    (config : RPCProviderConfig) (networkInfo : NetworkInfo)
    (st : state) (ack note : WebSocketMessage) (localId serverId : Z)
    (sub : WebSocketSubscription) (payload : json) :
  reachable isApiKeyValid config networkInfo st ->
  asNotification ack = None ->
  msg_result ack = Some serverId -> msg_id ack = Some localId ->
  map_get localId (subscriptions st) = Some sub ->
  promises st !! owner sub = Some Pending ->
  msg_method note = Some "signatureNotification" ->
  msg_params note = Some {| result := payload; subscription := serverId |} ->
  let st1 := handleWebSocketMessage ack st in
  let st2 := handleWebSocketMessage note st1 in
  (map_get serverId (subscriptions st1) = Some sub /\
   (serverId <> localId -> map_get localId (subscriptions st1) = None) /\
   (forall k sub', map_get k (subscriptions st1) = Some sub' ->
                   owner sub' = owner sub -> k = serverId)) /\
  (forall v, get_field "value" payload = Some v ->
             get_field "err" v = Some JNull ->
             promises st2 !! owner sub
             = Some (Resolved {| confirmed := true; txData := Some payload |})) /\
  (forall v e, get_field "value" payload = Some v ->
               get_field "err" v = Some e -> is_object e = true ->
               promises st2 !! owner sub
               = Some (Resolved {| confirmed := false; txData := Some payload |})).
Proof.
  intros Hreach Hnot Hres Hid Hget Hpending Hm Hp st1 st2.
  pose proof (reachable_well_formed _ _ _ _ Hreach) as Hwf.
  assert (Hst1 : st1 = with_subscriptions
                         (map_set serverId sub
                            (map_delete localId (subscriptions st)))
                         (log (LogRemapped localId (JNum serverId)) st)).
  { subst st1. unfold handleWebSocketMessage. rewrite Hnot, Hres, Hid.
    simpl. now rewrite Hget. }
  assert (Hget1 : map_get serverId (subscriptions st1) = Some sub).
  { rewrite Hst1. simpl. apply map_get_set_eq. }
  assert (Hpending1 : promises st1 !! owner sub = Some Pending).
  { now rewrite Hst1. }
  pose proof (notification_resolves st1 note payload serverId sub
                (asNotification_Some _ _ Hm Hp) Hget1 Hpending1) as Hnote.
  split; [split; [exact Hget1|split]|split].
  - intros Hne. rewrite Hst1. simpl.
    rewrite map_get_set_ne by exact Hne. apply map_get_delete_eq.
  - intros k sub' Hk Hown.
    destruct (Z.eq_dec serverId k) as [->|Hne]; [reflexivity|exfalso].
    rewrite Hst1 in Hk. simpl in Hk. rewrite map_get_set_ne in Hk by exact Hne.
    apply (owner_not_in_delete _ _ _ (wf_owners _ Hwf) Hget).
    rewrite <- Hown. apply list_elem_of_fmap. exists (k, sub').
    split; [reflexivity|]. now apply map_get_elem_of.
  - intros v Hv He. fold st2 in Hnote.
    now rewrite Hnote, (reportsError_null _ _ Hv He).
  - intros v e Hv He Hobj. fold st2 in Hnote.
    now rewrite Hnote, (reportsError_object _ _ _ Hv He Hobj).
Qed.

Lemma reachable_run (isApiKeyValid : string -> bool)
    (config : RPCProviderConfig) (networkInfo : NetworkInfo) st es :
  reachable isApiKeyValid config networkInfo st ->
  reachable isApiKeyValid config networkInfo
    (run isApiKeyValid config networkInfo st es).
Proof.
  revert st. induction es as [|e es IH]; intros st Hst; simpl; [exact Hst|].
  apply IH. now constructor.
Qed.

Lemma acknowledgment_then_notification_witness :
  let st := testRun initial [CallMonitor "sig" 30000; SocketOpen 0%nat] in
  let sub := {| signature := "sig"; owner := 1; timeout := 0%nat |} in
  let st1 := handleWebSocketMessage (ackFrame 20100749 1) st in
  let success := signatureResult 5207624 JNull in
  let failure :=
    signatureResult 5207625
      (JObj [("InstructionError", JArr [JNum 0; JStr "InvalidAccountData"])]) in
  map_get 20100749 (subscriptions st1) = Some sub /\
  map_get 1 (subscriptions st1) = None /\
  promises (handleWebSocketMessage (notificationFrame success 20100749) st1) !! 1
    = Some (Resolved {| confirmed := true; txData := Some success |}) /\
  promises (handleWebSocketMessage (notificationFrame failure 20100749) st1) !! 1
    = Some (Resolved {| confirmed := false; txData := Some failure |}).
Proof.
  intros st sub st1 success failure.
  assert (Hreach : reachable nonEmptyKey testConfig mainnetBeta st).
  { apply reachable_run. constructor. }
  pose proof (acknowledgment_then_notification nonEmptyKey testConfig mainnetBeta
                st (ackFrame 20100749 1) (notificationFrame success 20100749)
                1 20100749 sub success Hreach eq_refl eq_refl eq_refl eq_refl
                eq_refl eq_refl eq_refl) as [[Hkey [Hgone _]] [Hok _]].
  pose proof (acknowledgment_then_notification nonEmptyKey testConfig mainnetBeta
                st (ackFrame 20100749 1) (notificationFrame failure 20100749)
                1 20100749 sub failure Hreach eq_refl eq_refl eq_refl eq_refl
                eq_refl eq_refl eq_refl) as [_ [_ Hfail]].
  split; [exact Hkey|]. split; [apply Hgone; discriminate|].
  split.
  - apply (Hok (JObj [("err", JNull)])); reflexivity.
  - eapply Hfail; reflexivity.
Defined.

(* ===================================================================== *)
(** ** Error responses *)
(* ===================================================================== *)

(** An error of the class the handler drops changes nothing, whatever id
    it carries and whether or not that id is tracked. *)
Lemma dropped_error_changes_nothing (st : state) (frame : WebSocketMessage)
    (e : rpc_error) :
  asNotification frame = None ->
  msg_result frame = None \/ msg_id frame = None ->
  msg_error frame = Some e -> isInvalidSubscription e = true ->
  handleWebSocketMessage frame st = st.
Proof.
  intros Hnot Hres Herr Hdrop. unfold handleWebSocketMessage.
  rewrite Hnot, Herr, Hdrop.
  destruct Hres as [-> | ->]; [reflexivity|].
  now destruct (msg_result frame).
Qed.




(* ===================================================================== *)
(** ** A settled promise keeps its outcome *)
(* ===================================================================== *)

Lemma outcome_subscribe st call sig timeoutMs id outcome :
  well_formed st ->
  promises st !! id = Some outcome -> outcome <> Pending ->
  promises (subscribe call sig timeoutMs st) !! id = Some outcome.
Proof.
  intros Hwf Hid Ho.
  pose proof (shrinks_cancelIdleTimeout st) as Hsh.
  pose proof (shrinks_well_formed _ _ Hwf Hsh) as Hwf1.
  pose proof (sh_outcomes _ _ Hsh id outcome Hid Ho) as Hid1.
  assert (Hne : nextSubscriptionId (cancelIdleTimeout st) <> id).
  { pose proof (wf_promises _ Hwf1 id (mk_is_Some _ _ Hid1)). lia. }
  unfold subscribe, setTimeout. cbv beta iota zeta.
  set (st1 := cancelIdleTimeout st) in *.
  match goal with
  | |- promises (match ws ?x with _ => _ end) !! _ = _ => destruct (ws x)
  end.
  - simpl. now rewrite lookup_insert_ne.
  - rewrite promises_settle_other by congruence.
    simpl. now rewrite lookup_insert_ne.
Qed.

Lemma outcome_handleWebSocketMessage st m id outcome :
  promises st !! id = Some outcome -> outcome <> Pending ->
  promises (handleWebSocketMessage m st) !! id = Some outcome.
Proof.
  intros Hid Ho. unfold handleWebSocketMessage.
  destruct (asNotification m) as [p|].
  - destruct (map_get _ _) as [sub|]; [|exact Hid].
    refine (sh_outcomes _ _ _ id outcome Hid Ho).
    eapply shrinks_trans; [apply (shrinks_clearTimeout st (timeout sub))|].
    eapply shrinks_trans; [apply shrinks_delete|].
    destruct (reportsError _); apply shrinks_resolveWithCleanup.
  - destruct (msg_result m) as [serverId|], (msg_id m) as [localId|];
      cbv zeta.
    + now destruct (map_get _ _).
    + destruct (msg_error m) as [e|]; [|exact Hid].
      now destruct (isInvalidSubscription e).
    + destruct (msg_error m) as [e|]; [|exact Hid].
      destruct (isInvalidSubscription e); [exact Hid|].
      set (st' := log _ st).
      destruct (map_get _ _) as [sub|]; [|exact Hid].
      refine (sh_outcomes _ _ _ id outcome Hid Ho).
      eapply shrinks_trans; [apply (shrinks_log st (LogErrorFrame (error_json e)))|].
      eapply shrinks_trans; [apply (shrinks_clearTimeout st' (timeout sub))|].
      eapply shrinks_trans; [apply shrinks_delete|].
      apply shrinks_rejectWithCleanup.
    + destruct (msg_error m) as [e|]; [|exact Hid].
      now destruct (isInvalidSubscription e).
Qed.

Lemma outcome_continueAll done st id outcome :
  well_formed st ->
  promises st !! id = Some outcome -> outcome <> Pending ->
  promises (continueAll done st) !! id = Some outcome.
Proof.
  revert st. induction done as [|[w connected] done IH];
    intros st Hwf Hid Ho; simpl; [exact Hid|].
  destruct connected.
  - apply IH; [now apply well_formed_subscribe| |exact Ho].
    now apply outcome_subscribe.
  - apply IH; [|exact Hid|exact Ho].
    eapply shrinks_well_formed; [exact Hwf|apply shrinks_unavailable].
Qed.

Lemma outcome_settleConnect st s ok id outcome :
  well_formed st ->
  promises st !! id = Some outcome -> outcome <> Pending ->
  promises (settleConnect s ok st) !! id = Some outcome.
Proof.
  intros Hwf Hid Ho. unfold settleConnect.
  destruct (sockets st !! s) as [sk|]; [|exact Hid].
  destruct (connectSettled sk); [exact Hid|].
  match goal with
  | |- context [resumeAll ok ?l ?x] =>
      pose proof (shrinks_resumeAll ok l x) as Hsh;
      assert (Hshx : shrinks st x) by same_fields;
      destruct (resumeAll ok l x) as [done st3]
  end.
  simpl in Hsh.
  pose proof (shrinks_trans _ _ _ Hshx Hsh) as Hsh3.
  apply outcome_continueAll; [|eauto using sh_outcomes|exact Ho].
  eapply shrinks_well_formed; eauto.
Qed.

(** The promise of a subscription changes state once at most: whatever
    events follow, a settled promise keeps the outcome it has. *)
Lemma settled_promise_final (isApiKeyValid : string -> bool)
    (config : RPCProviderConfig) (networkInfo : NetworkInfo)
    (st : state) (es : list event) (id : Z) (outcome : promise) :
  reachable isApiKeyValid config networkInfo st ->
  promises st !! id = Some outcome -> outcome <> Pending ->
  promises (run isApiKeyValid config networkInfo st es) !! id = Some outcome.
Proof.
  revert st. induction es as [|e es IH]; intros st Hreach Hid Ho; simpl;
    [exact Hid|].
  apply IH; [now constructor| |exact Ho].
  pose proof (reachable_well_formed _ _ _ _ Hreach) as Hwf.
  destruct e; simpl.
  - unfold monitorTransaction.
    match goal with
    | |- context [isWebSocketConnected ?x] => set (st0 := x)
    end.
    assert (Hsh0 : shrinks st st0) by (subst st0; same_fields).
    pose proof (shrinks_well_formed _ _ Hwf Hsh0) as Hwf0.
    pose proof (sh_outcomes _ _ Hsh0 id outcome Hid Ho) as Hid0.
    clearbody st0.
    destruct (negb _); [exact Hid0|].
    destruct (isWebSocketConnected st0); [now apply outcome_subscribe|].
    destruct (connecting st0); [exact Hid0|].
    now destruct (getWebSocketUrl _ _ _).
  - exact (sh_outcomes _ _ (shrinks_disconnect st) id outcome Hid Ho).
  - exact (sh_outcomes _ _ (shrinks_fire st h) id outcome Hid Ho).
  - destruct (isConnecting s st); [|exact Hid].
    assert (Hsh : shrinks st (log LogConnected (setReadyState s OPEN st))).
    { eapply shrinks_trans; [apply shrinks_setReadyState|apply shrinks_log]. }
    apply outcome_settleConnect;
      [eapply shrinks_well_formed; eauto
      |exact (sh_outcomes _ _ Hsh id outcome Hid Ho)|exact Ho].
  - destruct (isAlive s st); [|exact Hid].
    destruct data; [exact Hid|now apply outcome_handleWebSocketMessage].
  - destruct (isAlive s st); [|exact Hid].
    assert (Hsh : shrinks st (log LogSocketError (setReadyState s CLOSING st))).
    { eapply shrinks_trans; [apply shrinks_setReadyState|apply shrinks_log]. }
    apply outcome_settleConnect;
      [eapply shrinks_well_formed; eauto
      |exact (sh_outcomes _ _ Hsh id outcome Hid Ho)|exact Ho].
  - destruct (isAlive s st); [|exact Hid].
    refine (sh_outcomes _ _ _ id outcome Hid Ho).
    eapply shrinks_trans; [apply (shrinks_setReadyState st s CLOSED)|].
    eapply shrinks_trans; [apply shrinks_log|].
    eapply shrinks_trans; [apply shrinks_with_ws|].
    apply shrinks_handleWebSocketClose.
  - destruct (isAlive s st); [|exact Hid].
    match goal with
    | |- promises (settleConnect s false ?x) !! id = _ =>
        assert (Hsh : shrinks st x)
    end.
    { eapply shrinks_trans; [apply (shrinks_setReadyState st s CLOSING)|].
      eapply shrinks_trans; [apply shrinks_log|].
      eapply shrinks_trans; [apply (shrinks_setReadyState _ s CLOSED)|].
      eapply shrinks_trans; [apply shrinks_log|].
      eapply shrinks_trans; [apply shrinks_with_ws|].
      apply shrinks_handleWebSocketClose. }
    apply outcome_settleConnect;
      [eapply shrinks_well_formed; eauto
      |exact (sh_outcomes _ _ Hsh id outcome Hid Ho)|exact Ho].
Qed.

(* ===================================================================== *)
(** ** A pending promise has its countdown running *)
(* ===================================================================== *)






















Section Countdown.
Variable isApiKeyValid : string -> bool.
Variable config : RPCProviderConfig.
Variable networkInfo : NetworkInfo.




End Countdown.

(** ... and the countdown, when it fires, resolves it: not confirmed, no
    details. *)
Lemma countdown_resolves st h id ms :
  timers st !! h = Some {| callback := SubscriptionTimeout id; delay := ms |} ->
  promises st !! id = Some Pending ->
  promises (fire h st) !! id
  = Some (Resolved {| confirmed := false; txData := None |}).
Proof.
  intros Ht Hid. unfold fire. rewrite Ht. simpl.
  unfold onSubscriptionTimeout. apply promises_settle_pending.
  now rewrite promises_scheduleIdleDisconnect.
Qed.

(* ===================================================================== *)
(** ** The countdown of a subscription that was acknowledged *)
(* ===================================================================== *)

(** C2. The countdown callback deletes the local id.  Before the
    acknowledgment that is the key of the entry, and the entry goes; after
    it the entry sits under the server id and stays in the table, although
    the promise is resolved with [confirmed: false] and no details as the
    claim says. *)
Theorem timeout_after_acknowledgment_keeps_entry :
  let unacknowledged :=
    testRun initial
      [CallMonitor "sig" 30000; SocketOpen 0%nat; TimerFires 0%nat] in
  let acknowledged :=
    testRun initial
      [CallMonitor "sig" 30000; SocketOpen 0%nat;
       SocketMessage 0%nat (Parsed (ackFrame 20100749 1)); TimerFires 0%nat] in
  (subscriptions unacknowledged = [] /\
   promises unacknowledged !! 1
     = Some (Resolved {| confirmed := false; txData := None |})) /\
  (promises acknowledged !! 1
     = Some (Resolved {| confirmed := false; txData := None |}) /\
   timers acknowledged !! 0%nat = None /\
   subscriptions acknowledged
     = [(20100749, {| signature := "sig"; owner := 1; timeout := 0%nat |})] /\
   idleArmed acknowledged = false).
Proof. vm_compute. repeat split; reflexivity. Qed.

(** C1. A notification that arrives after the countdown of an
    acknowledged subscription has fired still finds the entry the
    countdown left behind and calls the subscription's [resolve] again:
    the promise keeps its first outcome, but the resolution path runs a
    second time.  When the local id it deletes is by then the key of
    another subscription (the server handed out an id equal to it), that
    subscription loses its entry while its promise is still pending. *)
Theorem late_notification_resolves_again :
  let success := signatureResult 5207624 JNull in
  let late :=
    testRun initial
      [CallMonitor "sig" 30000; SocketOpen 0%nat;
       SocketMessage 0%nat (Parsed (ackFrame 20100749 1)); TimerFires 0%nat;
       SocketMessage 0%nat (Parsed (notificationFrame success 20100749))] in
  let clash :=
    testRun initial
      [CallMonitor "sigA" 30000; SocketOpen 0%nat;
       SocketMessage 0%nat (Parsed (ackFrame 7 1)); TimerFires 0%nat;
       CallMonitor "sigB" 30000;
       SocketMessage 0%nat (Parsed (ackFrame 1 2));
       SocketMessage 0%nat (Parsed (notificationFrame success 7))] in
  (promises late !! 1
     = Some (Resolved {| confirmed := false; txData := None |}) /\
   settleCalls late
     = [(1, Resolved {| confirmed := false; txData := None |});
        (1, Resolved {| confirmed := true; txData := Some success |})]) /\
  (promises clash !! 2 = Some Pending /\
   timers clash !! 1%nat
     = Some {| callback := SubscriptionTimeout 2; delay := 30000 |} /\
   subscriptions clash = [] /\
   idleArmed clash = true).
Proof. vm_compute. repeat split; reflexivity. Qed.

(* ===================================================================== *)
(** ** The rejection loop on a table without aliases *)
(* ===================================================================== *)

Lemma timers_stay_cleared st st' h :
  shrinks st st' -> timers st !! h = None -> (h < nextTimer st)%nat ->
  timers st' !! h = None.
Proof.
  intros Hsh Hnone Hlt.
  destruct (timers st' !! h) as [t|] eqn:E; [exfalso|reflexivity].
  destruct (sh_timers _ _ Hsh h t E) as [Ht'|Hge]; [congruence|lia].
Qed.

Lemma promises_rejectWithCleanup_pending st id reason :
  promises st !! id = Some Pending ->
  promises (rejectWithCleanup id reason st) !! id = Some (Rejected reason).
Proof.
  intros H. unfold rejectWithCleanup. apply promises_settle_pending.
  now rewrite promises_scheduleIdleDisconnect.
Qed.

Lemma promises_rejectWithCleanup_other st id id' reason :
  id' <> id ->
  promises (rejectWithCleanup id reason st) !! id' = promises st !! id'.
Proof.
  intros H. unfold rejectWithCleanup. rewrite promises_settle_other by exact H.
  now rewrite promises_scheduleIdleDisconnect.
Qed.

Lemma subscriptions_rejectWithCleanup st id reason :
  subscriptions (rejectWithCleanup id reason st)
  = map_delete id (subscriptions st).
Proof.
  unfold rejectWithCleanup. simpl.
  now rewrite subscriptions_scheduleIdleDisconnect.
Qed.

(** When the entries still to visit are in the table, under distinct keys
    none of which is the local id of another, the loop reaches every one
    of them: its countdown is cleared and its promise, if pending, is
    rejected with the loop's reason. *)
Lemma rejectEach_reaches_all reason todo st :
  NoDup (fst <$> todo) -> NoDup (owners todo) -> unaliased todo ->
  (forall k sub, (k, sub) ∈ todo ->
     map_get k (subscriptions st) = Some sub /\
     (timeout sub < nextTimer st)%nat) ->
  forall k sub, (k, sub) ∈ todo ->
    timers (rejectEach reason todo st) !! timeout sub = None /\
    (promises st !! owner sub = Some Pending ->
     promises (rejectEach reason todo st) !! owner sub
     = Some (Rejected reason)).
Proof.
  revert st. induction todo as [|[k0 sub0] todo IH];
    intros st Hkeys Howners Hun Hin k sub Hk.
  { now apply elem_of_nil in Hk. }
  simpl. unfold map_has.
  destruct (Hin k0 sub0 (list_elem_of_here _ _)) as [Hget0 Hlt0].
  rewrite Hget0.
  set (st1 := rejectWithCleanup (owner sub0) reason
                (clearTimeout (timeout sub0) st)).
  assert (Hsh1 : shrinks st st1).
  { eapply shrinks_trans; [apply (shrinks_clearTimeout st (timeout sub0))|].
    apply shrinks_rejectWithCleanup. }
  simpl in Hkeys. apply NoDup_cons in Hkeys as [Hk0 Hkeys].
  unfold owners in Howners. simpl in Howners.
  apply NoDup_cons in Howners as [Ho0 Howners].
  assert (Hun' : unaliased todo).
  { intros a b a' b' Ha Ha' Heq.
    apply (Hun a b a' b'); [now right|now right|exact Heq]. }
  assert (Hin' : forall k sub, (k, sub) ∈ todo ->
            map_get k (subscriptions st1) = Some sub /\
            (timeout sub < nextTimer st1)%nat).
  { intros k' sub' Hk'. destruct (Hin k' sub' (list_elem_of_further _ _ _ Hk'))
      as [Hget' Hlt']. split.
    - subst st1. rewrite subscriptions_rejectWithCleanup. simpl.
      rewrite map_get_delete_ne; [exact Hget'|].
      intros Heq.
      assert (Hkk : k' = k0).
      { apply (Hun k0 sub0 k' sub'); [left|now right|now symmetry]. }
      apply Hk0. apply list_elem_of_fmap.
      exists (k', sub'). split; [now rewrite Hkk|exact Hk'].
    - pose proof (sh_nextTimer _ _ Hsh1). lia. }
  apply elem_of_cons in Hk as [[= -> ->]|Hk].
  - (* the entry the loop is at *)
    pose proof (shrinks_rejectEach reason todo st1) as Hsh.
    split.
    + apply (timers_stay_cleared st1 _ _ Hsh).
      * subst st1. unfold rejectWithCleanup. simpl.
        apply timers_scheduleIdleDisconnect; simpl;
          [apply lookup_delete_eq|exact Hlt0].
      * pose proof (sh_nextTimer _ _ Hsh1). lia.
    + intros Hpending.
      apply (sh_outcomes _ _ Hsh); [|discriminate].
      subst st1. now apply promises_rejectWithCleanup_pending.
  - (* an entry further on *)
    destruct (IH st1 Hkeys Howners Hun' Hin' k sub Hk) as [Ht Hp].
    split; [exact Ht|]. intros Hpending. apply Hp.
    subst st1. rewrite promises_rejectWithCleanup_other; [exact Hpending|].
    intros Heq. apply Ho0. rewrite <- Heq.
    apply list_elem_of_fmap. now exists (k, sub).
Qed.

(** Where the table has no aliases, a transport close leaves no
    subscription behind: every entry has its countdown cleared and its
    pending promise rejected, the table is empty and no idle timer is
    armed. *)
Lemma close_rejects_every_entry (isApiKeyValid : string -> bool)
    (config : RPCProviderConfig) (networkInfo : NetworkInfo) (st : state) :
  reachable isApiKeyValid config networkInfo st ->
  unaliased (subscriptions st) ->
  let st' := handleWebSocketClose st in
  subscriptions st' = [] /\ idleTimeout st' = None /\
  forall k sub, (k, sub) ∈ subscriptions st ->
    timers st' !! timeout sub = None /\
    (promises st !! owner sub = Some Pending ->
     promises st' !! owner sub = Some (Rejected "WebSocket disconnected")).
Proof.
  intros Hreach Hun st'.
  pose proof (reachable_well_formed _ _ _ _ Hreach) as Hwf.
  set (st1 := rejectEach "WebSocket disconnected" (subscriptions st) st).
  assert (Hsh : shrinks st1 st').
  { subst st' st1. unfold handleWebSocketClose.
    eapply shrinks_trans; [apply shrinks_clear|apply shrinks_cancelIdleTimeout]. }
  assert (Hall : forall k sub, (k, sub) ∈ subscriptions st ->
            map_get k (subscriptions st) = Some sub /\
            (timeout sub < nextTimer st)%nat).
  { intros k sub Hk. split.
    - apply elem_of_map_get; [apply (wf_keys _ Hwf)|exact Hk].
    - pose proof (wf_handles _ Hwf) as H. rewrite Forall_forall in H.
      apply (H _ Hk). }
  split; [|split].
  - subst st'. unfold handleWebSocketClose.
    now rewrite subscriptions_cancelIdleTimeout.
  - apply idleTimeout_cancelIdleTimeout.
  - intros k sub Hk.
    destruct (rejectEach_reaches_all "WebSocket disconnected" _ st
                (wf_keys _ Hwf) (wf_owners _ Hwf) Hun Hall k sub Hk)
      as [Ht Hp].
    fold st1 in Ht, Hp.
    pose proof (shrinks_rejectEach "WebSocket disconnected"
                  (subscriptions st) st) as Hsh0.
    fold st1 in Hsh0. split.
    + apply (timers_stay_cleared st1 _ _ Hsh Ht).
      pose proof (sh_nextTimer _ _ Hsh0).
      destruct (Hall k sub Hk) as [_ Hlt]. lia.
    + intros Hpending.
      apply (sh_outcomes _ _ Hsh); [now apply Hp|discriminate].
Qed.

(* ===================================================================== *)
(** ** Disconnection *)
(* ===================================================================== *)

(** C4. Rejecting a subscription deletes its local id from the table the
    loop is iterating.  With subscription 1 acknowledged under 5 and
    subscription 2 acknowledged under 1, rejecting the first removes the
    entry of the second before the loop reaches it: on a transport close,
    and on [disconnect()], subscription 2 is neither rejected nor is its
    countdown cleared, and the table is empty. *)
Theorem disconnection_skips_a_subscription :
  let both :=
    [CallMonitor "sigA" 30000; SocketOpen 0%nat; CallMonitor "sigB" 30000;
     SocketMessage 0%nat (Parsed (ackFrame 5 1));
     SocketMessage 0%nat (Parsed (ackFrame 1 2))] in
  let before := testRun initial both in
  let closed := testRun initial (both ++ [SocketClose 0%nat]) in
  let disconnected := testRun initial (both ++ [CallDisconnect]) in
  subscriptions before
    = [(5, {| signature := "sigA"; owner := 1; timeout := 0%nat |});
       (1, {| signature := "sigB"; owner := 2; timeout := 1%nat |})] /\
  promises before !! 2 = Some Pending /\
  (subscriptions closed = [] /\
   promises closed !! 1 = Some (Rejected "WebSocket disconnected") /\
   promises closed !! 2 = Some Pending /\
   timers closed !! 1%nat
     = Some {| callback := SubscriptionTimeout 2; delay := 30000 |}) /\
  (subscriptions disconnected = [] /\
   promises disconnected !! 1 = Some (Rejected "Service disconnected") /\
   promises disconnected !! 2 = Some Pending /\
   timers disconnected !! 1%nat
     = Some {| callback := SubscriptionTimeout 2; delay := 30000 |}).
Proof. vm_compute. repeat split; reflexivity. Qed.

(* ===================================================================== *)
(** ** The idle timer *)
(* ===================================================================== *)

(** A transition that touches neither the table nor the timers. *)
Lemma idle_frame st st' :
  idleTimeout st' = idleTimeout st -> timers st' = timers st ->
  subscriptions st' = subscriptions st ->
  (idleArmed st = true -> subscriptions st = []) ->
  idleArmed st' = true -> subscriptions st' = [].
Proof.
  intros Hi Ht Hs H. unfold idleArmed in *. now rewrite Hi, Ht, Hs.
Qed.

Lemma idle_clearTimeout st h :
  idleArmed (clearTimeout h st) = true -> idleArmed st = true.
Proof.
  unfold idleArmed. simpl. destruct (idleTimeout st) as [i|]; [|discriminate].
  destruct (decide (h = i)) as [->|Hne].
  - now rewrite lookup_delete_eq.
  - now rewrite lookup_delete_ne.
Qed.

Lemma idle_cancelIdleTimeout st : idleArmed (cancelIdleTimeout st) = false.
Proof.
  unfold idleArmed. now rewrite idleTimeout_cancelIdleTimeout.
Qed.

Lemma idle_scheduleIdleDisconnect st :
  (idleArmed st = true -> subscriptions st = []) ->
  idleArmed (scheduleIdleDisconnect st) = true ->
  subscriptions (scheduleIdleDisconnect st) = [].
Proof.
  intros H. rewrite subscriptions_scheduleIdleDisconnect.
  unfold scheduleIdleDisconnect.
  destruct (0 <? _) eqn:E; [exact H|]. intros _.
  destruct (subscriptions st); [reflexivity|].
  apply Z.ltb_ge in E. simpl length in E. lia.
Qed.

Lemma idle_delete st k :
  (idleArmed st = true -> subscriptions st = []) ->
  idleArmed (with_subscriptions (map_delete k (subscriptions st)) st) = true ->
  map_delete k (subscriptions st) = [].
Proof. intros H Harmed. now rewrite (H Harmed). Qed.

Lemma idle_cleanup st id outcome :
  (idleArmed st = true -> subscriptions st = []) ->
  let st' :=
    settle id outcome
      (scheduleIdleDisconnect
         (with_subscriptions (map_delete id (subscriptions st)) st)) in
  idleArmed st' = true -> subscriptions st' = [].
Proof.
  intros H st'. subst st'.
  set (st1 := with_subscriptions (map_delete id (subscriptions st)) st).
  apply (idle_frame (scheduleIdleDisconnect st1)); try reflexivity.
  apply idle_scheduleIdleDisconnect. intros Ha. subst st1. simpl.
  now apply idle_delete.
Qed.

Lemma idle_fire st h :
  (idleArmed st = true -> subscriptions st = []) ->
  idleArmed (fire h st) = true -> subscriptions (fire h st) = [].
Proof.
  intros H. unfold fire. destruct (timers st !! h) as [t|]; [|exact H].
  assert (H1 : idleArmed (clearTimeout h st) = true ->
               subscriptions (clearTimeout h st) = []).
  { intros Ha. apply H. now apply idle_clearTimeout in Ha. }
  destruct (callback t).
  - now apply idle_cleanup.
  - unfold onIdleTimeout. destruct (ws _) as [s|]; [|exact H1].
    destruct (_ =? 0); [|exact H1].
    refine (idle_frame (clearTimeout h st) _ _ _ _ H1); try reflexivity.
    unfold closeSocket. simpl. now destruct (sockets st !! s).
    unfold closeSocket. simpl. now destruct (sockets st !! s).
    unfold closeSocket. simpl. now destruct (sockets st !! s).
Qed.

Lemma idle_subscribe st call sig timeoutMs :
  idleArmed (subscribe call sig timeoutMs st) = false.
Proof.
  unfold subscribe, setTimeout. cbv beta iota zeta.
  pose proof (idleTimeout_cancelIdleTimeout st) as Hi.
  set (st1 := cancelIdleTimeout st) in *.
  match goal with
  | |- idleArmed (match ws ?x with _ => _ end) = _ => destruct (ws x)
  end; unfold idleArmed; simpl; now rewrite Hi.
Qed.

Lemma idle_rejectEach reason todo st :
  (idleArmed st = true -> subscriptions st = []) ->
  idleArmed (rejectEach reason todo st) = true ->
  subscriptions (rejectEach reason todo st) = [].
Proof.
  revert st. induction todo as [|[key sub] todo IH]; intros st H; simpl;
    [exact H|].
  destruct (map_has key (subscriptions st)); [|now apply IH].
  apply IH. apply idle_cleanup.
  intros Ha. apply H. now apply idle_clearTimeout in Ha.
Qed.

Lemma idle_handleWebSocketMessage st m :
  (idleArmed st = true -> subscriptions st = []) ->
  idleArmed (handleWebSocketMessage m st) = true ->
  subscriptions (handleWebSocketMessage m st) = [].
Proof.
  intros H. unfold handleWebSocketMessage.
  destruct (asNotification m) as [p|].
  - destruct (map_get _ _) as [sub|]; [|exact H].
    assert (H2 : let st2 := with_subscriptions
                    (map_delete (subscription p)
                       (subscriptions (clearTimeout (timeout sub) st)))
                    (clearTimeout (timeout sub) st) in
                 idleArmed st2 = true -> subscriptions st2 = []).
    { intros st2 Ha. subst st2.
      refine (idle_delete (clearTimeout (timeout sub) st) _ _ Ha).
      intros Ha'. apply H. now apply idle_clearTimeout in Ha'. }
    destruct (reportsError _); now apply idle_cleanup.
  - destruct (msg_result m) as [serverId|], (msg_id m) as [localId|];
      cbv zeta.
    + destruct (map_get _ _) as [sub|] eqn:Hget; [|exact H].
      intros Ha. exfalso.
      assert (Hnil : subscriptions st = []) by (apply H; exact Ha).
      simpl in Hget. rewrite Hnil in Hget. discriminate.
    + destruct (msg_error m) as [e|]; [|exact H].
      now destruct (isInvalidSubscription e).
    + destruct (msg_error m) as [e|]; [|exact H].
      destruct (isInvalidSubscription e); [exact H|].
      destruct (map_get _ _) as [sub|]; [|exact H].
      apply idle_cleanup. intros Ha.
      refine (idle_delete (clearTimeout (timeout sub) _) _ _ Ha).
      intros Ha'. apply H. now apply idle_clearTimeout in Ha'.
    + destruct (msg_error m) as [e|]; [|exact H].
      now destruct (isInvalidSubscription e).
Qed.

Lemma idle_continueAll done st :
  (idleArmed st = true -> subscriptions st = []) ->
  idleArmed (continueAll done st) = true ->
  subscriptions (continueAll done st) = [].
Proof.
  revert st. induction done as [|[w connected] done IH]; intros st H; simpl;
    [exact H|].
  apply IH. destruct connected; [|exact H].
  now rewrite idle_subscribe.
Qed.

Lemma idle_settleConnect st s ok :
  (idleArmed st = true -> subscriptions st = []) ->
  idleArmed (settleConnect s ok st) = true ->
  subscriptions (settleConnect s ok st) = [].
Proof.
  intros H. unfold settleConnect.
  destruct (sockets st !! s) as [sk|]; [|exact H].
  destruct (connectSettled sk); [exact H|].
  match goal with
  | |- context [resumeAll ok ?l ?x] =>
      pose proof (resumeAll_untouched ok l x) as (Hi & Ht & Hs & _);
      destruct (resumeAll ok l x) as [done st3]
  end.
  simpl in Hi, Ht, Hs. apply idle_continueAll.
  now apply (idle_frame st).
Qed.

Section IdleTimer.
Variable isApiKeyValid : string -> bool.
Variable config : RPCProviderConfig.
Variable networkInfo : NetworkInfo.

Lemma idle_step st e :
  (idleArmed st = true -> subscriptions st = []) ->
  idleArmed (step isApiKeyValid config networkInfo st e) = true ->
  subscriptions (step isApiKeyValid config networkInfo st e) = [].
Proof.
  intros H. destruct e; simpl.
  - unfold monitorTransaction.
    match goal with
    | |- context [isWebSocketConnected ?x] => set (st0 := x)
    end.
    assert (H0 : idleArmed st0 = true -> subscriptions st0 = []) by exact H.
    clearbody st0.
    destruct (negb _); [exact H0|].
    destruct (isWebSocketConnected st0); [now rewrite idle_subscribe|].
    destruct (connecting st0); [exact H0|].
    now destruct (getWebSocketUrl _ _ _).
  - unfold disconnect.
    set (st1 := cancelIdleTimeout st).
    assert (H1 : idleArmed st1 = true -> subscriptions st1 = []).
    { subst st1. now rewrite idle_cancelIdleTimeout. }
    pose proof (idle_rejectEach "Service disconnected" (subscriptions st1) st1 H1)
      as H2.
    match goal with |- context [ws ?x] => destruct (ws x) as [s|] end;
      intros _; [|reflexivity].
    simpl. unfold closeSocket. now destruct (sockets _ !! s).
  - now apply idle_fire.
  - destruct (isConnecting s st); [|exact H].
    apply idle_settleConnect. refine (idle_frame st _ _ _ _ H); try reflexivity;
      unfold setReadyState; simpl; now destruct (sockets st !! s).
  - destruct (isAlive s st); [|exact H].
    destruct data; [exact H|now apply idle_handleWebSocketMessage].
  - destruct (isAlive s st); [|exact H].
    apply idle_settleConnect. refine (idle_frame st _ _ _ _ H); try reflexivity;
      unfold setReadyState; simpl; now destruct (sockets st !! s).
  - destruct (isAlive s st); [|exact H].
    intros _. unfold handleWebSocketClose.
    now rewrite subscriptions_cancelIdleTimeout.
  - destruct (isAlive s st); [|exact H].
    apply idle_settleConnect. intros _. unfold handleWebSocketClose.
    now rewrite subscriptions_cancelIdleTimeout.
Qed.

(** The idle timer is armed only while the table is empty. *)
Lemma idle_armed_only_when_empty st :
  reachable isApiKeyValid config networkInfo st ->
  idleArmed st = true -> subscriptions st = [].
Proof.
  induction 1 as [|st e _ IH]; [discriminate|]. now apply idle_step.
Qed.

End IdleTimer.

(** The idle callback closes nothing while the table has an entry. *)
Lemma idle_callback_guarded st :
  subscriptions st <> [] -> onIdleTimeout st = st.
Proof.
  intros Hne. unfold onIdleTimeout. destruct (ws st); [|reflexivity].
  destruct (subscriptions st); [contradiction|reflexivity].
Qed.

(** C7. [disconnect()] cancels the idle timer before it rejects the
    subscriptions, and rejecting the last one arms it again: after a
    [disconnect()] with a subscription that was not acknowledged the table
    is empty, there is no connection, and the idle timer is armed.  The
    close handler cancels after its loop and leaves no timer. *)
Theorem disconnect_leaves_idle_timer_armed :
  let pending := [CallMonitor "sig" 30000; SocketOpen 0%nat] in
  let disconnected := testRun initial (pending ++ [CallDisconnect]) in
  let closed := testRun initial (pending ++ [SocketClose 0%nat]) in
  (subscriptions disconnected = [] /\
   ws disconnected = None /\
   isWebSocketConnected disconnected = false /\
   idleArmed disconnected = true) /\
  (subscriptions closed = [] /\
   ws closed = None /\
   idleArmed closed = false).
Proof. vm_compute. repeat split; reflexivity. Qed.

(* ===================================================================== *)
(** ** Concurrent callers and the single connection attempt *)
(* ===================================================================== *)

Lemma joining_not_connected s st :
  joining s st -> isWebSocketConnected st = false.
Proof.
  intros (Hws & _ & Hc). unfold isWebSocketConnected, isConnecting in *.
  rewrite Hws. destruct (sockets st !! s) as [sk|]; [|reflexivity].
  now destruct (readyState sk).
Qed.

Lemma calls_subscribe st call sig timeoutMs c :
  calls (subscribe call sig timeoutMs st) !! c
  = if decide (call = c) then Some (Monitoring (nextSubscriptionId st))
    else calls st !! c.
Proof.
  unfold subscribe, setTimeout. cbv beta iota zeta.
  assert (Hnext : nextSubscriptionId (cancelIdleTimeout st) = nextSubscriptionId st).
  { unfold cancelIdleTimeout. now destruct (idleTimeout st). }
  assert (Hcalls : calls (cancelIdleTimeout st) = calls st).
  { unfold cancelIdleTimeout. now destruct (idleTimeout st). }
  match goal with
  | |- calls (match ws ?x with _ => _ end) !! _ = _ => destruct (ws x)
  end; simpl; rewrite Hnext, Hcalls; apply lookup_insert.
Qed.

Lemma calls_unavailable st call c :
  calls (unavailable call st) !! c
  = if decide (call = c) then Some Unavailable else calls st !! c.
Proof. simpl. apply lookup_insert. Qed.

Lemma calls_continueAll_other done st c :
  c ∉ (fun d => w_call (fst d)) <$> done ->
  calls (continueAll done st) !! c = calls st !! c.
Proof.
  revert st. induction done as [|[w connected] done IH]; intros st Hc; simpl;
    [reflexivity|].
  simpl in Hc. apply not_elem_of_cons in Hc as [Hne Hc].
  rewrite IH by exact Hc. destruct connected.
  - rewrite calls_subscribe.
    destruct (decide (w_call w = c)); [congruence|reflexivity].
  - rewrite calls_unavailable.
    destruct (decide (w_call w = c)); [congruence|reflexivity].
Qed.

Lemma calls_continueAll_proceed done st c :
  Forall (fun d => snd d = true) done ->
  c ∈ (fun d => w_call (fst d)) <$> done ->
  exists id, calls (continueAll done st) !! c = Some (Monitoring id).
Proof.
  revert st. induction done as [|[w connected] done IH]; intros st Hall Hc; simpl.
  - now apply elem_of_nil in Hc.
  - apply Forall_cons in Hall as [Hw Hall]. simpl in Hw. subst connected.
    destruct (decide (c ∈ (fun d => w_call (fst d)) <$> done)) as [Hin|Hout].
    + now apply IH.
    + simpl in Hc. apply elem_of_cons in Hc as [->|Hc]; [|contradiction].
      rewrite calls_continueAll_other by exact Hout.
      rewrite calls_subscribe. rewrite decide_True by reflexivity. eauto.
Qed.

Lemma calls_continueAll_fail done st c :
  Forall (fun d => snd d = false) done ->
  c ∈ (fun d => w_call (fst d)) <$> done ->
  calls (continueAll done st) !! c = Some Unavailable.
Proof.
  revert st. induction done as [|[w connected] done IH]; intros st Hall Hc; simpl.
  - now apply elem_of_nil in Hc.
  - apply Forall_cons in Hall as [Hw Hall]. simpl in Hw. subst connected.
    destruct (decide (c ∈ (fun d => w_call (fst d)) <$> done)) as [Hin|Hout].
    + now apply IH.
    + simpl in Hc. apply elem_of_cons in Hc as [->|Hc]; [|contradiction].
      rewrite calls_continueAll_other by exact Hout.
      rewrite calls_unavailable. now rewrite decide_True by reflexivity.
Qed.

Section OneAttempt.
Variable isApiKeyValid : string -> bool.
Variable config : RPCProviderConfig.
Variable networkInfo : NetworkInfo.
Hypothesis key_valid : isApiKeyValid (apiKey config) = true.


(** The caller that finds the service disconnected opens the socket. *)
Lemma monitorTransaction_starts st sig timeoutMs :
  isWebSocketConnected st = false -> connecting st = None ->
  let st' := monitorTransaction isApiKeyValid config networkInfo sig timeoutMs st in
  joining (nextSocket st) st' /\
  nextSocket st' = S (nextSocket st) /\
  nextCall st' = S (nextCall st) /\
  waiters st'
  = (waiters st ++
     [{| w_call := nextCall st; w_attempt := nextSocket st;
         w_initiator := true; w_signature := sig;
         w_timeoutMs := timeoutMs |}])%list.
Proof.
  intros Hnc Hc. unfold monitorTransaction, getWebSocketUrl.
  rewrite key_valid. simpl.
  replace (isWebSocketConnected _) with false.
  rewrite Hc. simpl.
  unfold joining, isConnecting. simpl. rewrite lookup_insert_eq. simpl.
  repeat split; reflexivity.
Qed.

(** A caller that finds the attempt in flight waits for it. *)
Lemma monitorTransaction_joins s st sig timeoutMs :
  joining s st ->
  let st' := monitorTransaction isApiKeyValid config networkInfo sig timeoutMs st in
  joining s st' /\
  nextSocket st' = nextSocket st /\
  nextCall st' = S (nextCall st) /\
  waiters st'
  = (waiters st ++
     [{| w_call := nextCall st; w_attempt := s;
         w_initiator := false; w_signature := sig;
         w_timeoutMs := timeoutMs |}])%list.
Proof.
  intros Hj. pose proof (joining_not_connected _ _ Hj) as Hnc.
  destruct Hj as (Hws & Hc & Hs).
  unfold monitorTransaction. rewrite key_valid. simpl.
  replace (isWebSocketConnected _) with false.
  rewrite Hc. simpl.
  unfold joining, isConnecting in *. simpl. now rewrite Hws, Hc, Hs.
Qed.

Lemma joining_run s st requests :
  joining s st ->
  let st' := run isApiKeyValid config networkInfo st (monitorCalls requests) in
  joining s st' /\
  nextSocket st' = nextSocket st /\
  w_call <$> waiters st'
  = ((w_call <$> waiters st) ++ seq (nextCall st) (length requests))%list /\
  (Forall (fun w => w_attempt w = s) (waiters st) ->
   Forall (fun w => w_attempt w = s) (waiters st')).
Proof.
  revert st. induction requests as [|[sig timeoutMs] requests IH];
    intros st Hj; simpl.
  - rewrite app_nil_r. auto.
  - destruct (monitorTransaction_joins s st sig timeoutMs Hj)
      as (Hj' & Hn & Hcall & Hw).
    destruct (IH _ Hj') as (Hj'' & Hn' & Hw' & Hall).
    unfold monitorCalls in *.
    split; [exact Hj''|]. split; [congruence|]. split.
    + rewrite Hw', Hw, Hcall, fmap_app. simpl. now rewrite <- app_assoc.
    + intros Hst. apply Hall. rewrite Hw. apply Forall_app.
      split; [exact Hst|]. now repeat constructor.
Qed.

(** What settling the attempt in flight does: every suspended caller is
    resumed, in order, and none is left waiting. *)
Lemma settleConnect_resumes st s sk ok :
  attempt_shared st -> sockets st !! s = Some sk -> connectSettled sk = false ->
  let st1 :=
    with_waiters []
      (with_sockets
         (<[s := {| readyState := readyState sk; url := url sk;
                    connectSettled := true |}]> (sockets st))
         (nextSocket st) st) in
  settleConnect s ok st
  = continueAll
      ((fun w => (w, if w_initiator w then ok
                     else if ok then isWebSocketConnected st1 else false))
         <$> waiters st)
      (with_connecting None (if ok then st1 else log LogConnectFailed st1)).
Proof.
  intros Hat Hs Hun st1. unfold settleConnect. rewrite Hs, Hun.
  pose proof (at_unsettled _ Hat s sk Hs Hun) as Hc.
  destruct (at_waiters _ Hat s Hc)
    as (_ & Hall & first & rest & Hw & Hfirst & Hrest).
  cbn [waiters with_sockets with_waiters].
  destruct (awaited_all s (waiters st) Hall) as [-> ->].
  fold st1. rewrite Hw.
  pose proof (resumeAll_state ok first rest st1 Hfirst Hrest) as Hst.
  pose proof (resumeAll_answers ok (first :: rest) st1) as Hans.
  destruct (resumeAll ok (first :: rest) st1) as [done st3].
  simpl in Hst, Hans. now subst done st3.
Qed.

End OneAttempt.

(** C6.  Two [monitorTransaction] calls made while the service is
    disconnected share one connection attempt: one socket is created and
    both callers wait for it.  But the callers do not always proceed
    together when it succeeds.  Here [disconnect()] has closed socket 0,
    whose ['close'] event is still to come; calls [b] and [c] start and
    join the attempt on socket 1; the ['close'] of socket 0 then arrives,
    and its listener (lines 214-218) sets [this.ws] to null although
    [this.ws] is socket 1 by now; socket 1 opens.  The caller that started
    the attempt is told [true] (line 173) and goes on to
    [this.ws.send] on null: its promise is rejected with the [TypeError];
    the caller that joined re-reads [isWebSocketConnected()] (line 164) and
    throws 'WebSocket not available'.  Without that ['close'] both
    subscribe, and when the attempt fails both fail.  The same happens
    when it was the idle timer that closed socket 0. *)
Theorem stale_close_splits_waiting_callers :
  let disconnected :=
    testRun initial [CallMonitor "a" 30000; SocketOpen 0%nat; CallDisconnect] in
  let called :=
    testRun disconnected [CallMonitor "b" 30000; CallMonitor "c" 30000] in
  let closed := step nonEmptyKey testConfig mainnetBeta called (SocketClose 0%nat) in
  let opened := step nonEmptyKey testConfig mainnetBeta closed (SocketOpen 1%nat) in
  let undisturbed := step nonEmptyKey testConfig mainnetBeta called (SocketOpen 1%nat) in
  let failed := step nonEmptyKey testConfig mainnetBeta called (SocketFail 1%nat) in
  let idled :=
    testRun initial
      [CallMonitor "a" 30000; SocketOpen 0%nat;
       SocketMessage 0%nat (Parsed (notificationFrame (signatureResult 1 JNull) 1));
       TimerFires 1%nat;
       CallMonitor "b" 30000; CallMonitor "c" 30000;
       SocketClose 0%nat; SocketOpen 1%nat] in
  (* the service is disconnected, the socket it closed has yet to emit 'close' *)
  (isWebSocketConnected disconnected = false /\ ws disconnected = None /\
   connecting disconnected = None /\ nextSocket disconnected = 1%nat /\
   isAlive 0%nat disconnected = true) /\
  (* the two calls share one attempt *)
  (nextSocket called = 2%nat /\ ws called = Some 1%nat /\
   connecting called = Some 1%nat /\ isConnecting 1%nat called = true /\
   waiters called
   = [{| w_call := 1%nat; w_attempt := 1%nat; w_initiator := true;
         w_signature := "b"; w_timeoutMs := 30000 |};
      {| w_call := 2%nat; w_attempt := 1%nat; w_initiator := false;
         w_signature := "c"; w_timeoutMs := 30000 |}]) /\
  (* the 'close' of the old socket arrives while the attempt is in flight *)
  (ws closed = None /\ connecting closed = Some 1%nat /\
   isConnecting 1%nat closed = true /\ waiters closed = waiters called) /\
  (* the attempt succeeds, and the callers neither proceed nor fail together *)
  (nextSocket opened = 2%nat /\
   readyState <$> sockets opened !! 1%nat = Some OPEN /\
   connecting opened = None /\ waiters opened = [] /\ ws opened = None /\
   calls opened !! 1%nat = Some (Monitoring 2) /\
   promises opened !! 2
   = Some (Rejected "Cannot read properties of null (reading 'send')") /\
   calls opened !! 2%nat = Some Unavailable /\
   sent opened = [(0%nat, 1, "a")]) /\
  (* without that 'close' both subscribe ... *)
  (calls undisturbed !! 1%nat = Some (Monitoring 2) /\
   promises undisturbed !! 2 = Some Pending /\
   calls undisturbed !! 2%nat = Some (Monitoring 3) /\
   promises undisturbed !! 3 = Some Pending /\
   sent undisturbed = [(0%nat, 1, "a"); (1%nat, 2, "b"); (1%nat, 3, "c")]) /\
  (* ... and when the attempt fails both fail *)
  (calls failed !! 1%nat = Some Unavailable /\
   calls failed !! 2%nat = Some Unavailable /\
   connecting failed = None /\ waiters failed = [] /\
   nextSocket failed = 2%nat) /\
  (* the same when the idle timer, not [disconnect()], closed socket 0 *)
  (nextSocket idled = 2%nat /\
   readyState <$> sockets idled !! 1%nat = Some OPEN /\ ws idled = None /\
   calls idled !! 1%nat = Some (Monitoring 2) /\
   promises idled !! 2
   = Some (Rejected "Cannot read properties of null (reading 'send')") /\
   calls idled !! 2%nat = Some Unavailable).
Proof. vm_compute. repeat split; reflexivity. Qed.

(* ===================================================================== *)
(** ** Identifiers are handed out once *)
(* ===================================================================== *)

Lemma allocates_refl st : allocates st st.
Proof.
  split; try reflexivity; auto.
  exists []. rewrite app_nil_r. repeat split; constructor.
Qed.

Lemma allocates_trans st1 st2 st3 :
  allocates st1 st2 -> allocates st2 st3 -> allocates st1 st3.
Proof.
  intros [n1 p1 (new1 & e1 & f1 & d1) c1 s1] [n2 p2 (new2 & e2 & f2 & d2) c2 s2].
  split; [lia| | |congruence|congruence].
  - intros id Hid. destruct (p2 id Hid) as [H|H]; [|right; lia].
    destruct (p1 id H) as [H'|H']; [now left|right; lia].
  - exists (new1 ++ new2)%list. split; [|split].
    + now rewrite e2, e1, app_assoc.
    + apply Forall_app. split.
      * eapply Forall_impl; [exact f1|]. simpl. intros; lia.
      * eapply Forall_impl; [exact f2|]. simpl. intros; lia.
    + rewrite fmap_app. apply NoDup_app. split; [exact d1|]. split; [|exact d2].
      intros id Hin1 Hin2.
      apply list_elem_of_fmap in Hin1 as (x1 & -> & Hx1).
      apply list_elem_of_fmap in Hin2 as (x2 & Heq & Hx2).
      rewrite Forall_forall in f1, f2.
      pose proof (f1 _ Hx1). pose proof (f2 _ Hx2). lia.
Qed.

(** A transition that sends nothing and creates no promise. *)
Lemma allocates_quiet st st' :
  nextSubscriptionId st' = nextSubscriptionId st ->
  (forall id, is_Some (promises st' !! id) -> is_Some (promises st !! id)) ->
  sent st' = sent st -> nextCall st' = nextCall st ->
  nextSocket st' = nextSocket st ->
  allocates st st'.
Proof.
  intros Hn Hp Hs Hc Hk. split; [lia|auto| |exact Hc|exact Hk].
  exists []. rewrite app_nil_r. repeat split; [exact Hs|constructor|constructor].
Qed.

Ltac quiet_fields := apply allocates_quiet; simpl; auto.

Lemma allocates_clearTimeout st h : allocates st (clearTimeout h st).
Proof. quiet_fields. Qed.

Lemma allocates_settle st id outcome : allocates st (settle id outcome st).
Proof. quiet_fields. apply (sh_promises _ _ (shrinks_settle st id outcome)). Qed.

Lemma allocates_cancelIdleTimeout st : allocates st (cancelIdleTimeout st).
Proof.
  unfold cancelIdleTimeout. destruct (idleTimeout st); [quiet_fields|apply allocates_refl].
Qed.

Lemma allocates_scheduleIdleDisconnect st : allocates st (scheduleIdleDisconnect st).
Proof.
  unfold scheduleIdleDisconnect. destruct (0 <? _); [apply allocates_refl|].
  eapply allocates_trans; [apply allocates_cancelIdleTimeout|]. quiet_fields.
Qed.

Lemma allocates_subscriptions st x : allocates st (with_subscriptions x st).
Proof. quiet_fields. Qed.

Lemma allocates_cleanup st id outcome :
  allocates st
    (settle id outcome
       (scheduleIdleDisconnect
          (with_subscriptions (map_delete id (subscriptions st)) st))).
Proof.
  eapply allocates_trans; [apply (allocates_subscriptions st)|].
  eapply allocates_trans; [apply allocates_scheduleIdleDisconnect|].
  apply allocates_settle.
Qed.

Lemma allocates_closeSocket st s : allocates st (closeSocket s st).
Proof. unfold closeSocket. destruct (sockets st !! s); quiet_fields. Qed.

Lemma allocates_setReadyState st s r : allocates st (setReadyState s r st).
Proof. unfold setReadyState. destruct (sockets st !! s); quiet_fields. Qed.

Lemma allocates_with_ws st x : allocates st (with_ws x st).
Proof. quiet_fields. Qed.

Lemma allocates_log st entry : allocates st (log entry st).
Proof. quiet_fields. Qed.

Lemma allocates_fire st h : allocates st (fire h st).
Proof.
  unfold fire. destruct (timers st !! h) as [t|]; [|apply allocates_refl].
  eapply allocates_trans; [apply (allocates_clearTimeout st h)|].
  destruct (callback t).
  - apply allocates_cleanup.
  - unfold onIdleTimeout.
    match goal with |- context [ws ?x] => destruct (ws x) as [s|] end;
      [|apply allocates_refl].
    destruct (_ =? 0); [|apply allocates_refl].
    eapply allocates_trans; [apply allocates_log|].
    eapply allocates_trans; [apply allocates_closeSocket|apply allocates_with_ws].
Qed.

Lemma allocates_rejectEach reason todo st :
  allocates st (rejectEach reason todo st).
Proof.
  revert st. induction todo as [|[key sub] todo IH]; intros st; simpl.
  - apply allocates_refl.
  - destruct (map_has key (subscriptions st)); [|apply IH].
    eapply allocates_trans; [|apply IH].
    eapply allocates_trans; [apply (allocates_clearTimeout st (timeout sub))|].
    apply allocates_cleanup.
Qed.

Lemma allocates_handleWebSocketClose st : allocates st (handleWebSocketClose st).
Proof.
  unfold handleWebSocketClose.
  eapply allocates_trans; [apply allocates_rejectEach|].
  eapply allocates_trans; [apply allocates_subscriptions|].
  apply allocates_cancelIdleTimeout.
Qed.

Lemma allocates_disconnect st : allocates st (disconnect st).
Proof.
  unfold disconnect.
  eapply allocates_trans; [apply allocates_cancelIdleTimeout|].
  eapply allocates_trans; [apply allocates_rejectEach|].
  eapply allocates_trans; [apply allocates_subscriptions|].
  match goal with |- context [ws ?x] => destruct (ws x) as [s|] end;
    [|apply allocates_refl].
  eapply allocates_trans; [apply allocates_closeSocket|].
  eapply allocates_trans; [apply allocates_with_ws|apply allocates_log].
Qed.

Lemma allocates_handleWebSocketMessage st m :
  allocates st (handleWebSocketMessage m st).
Proof.
  unfold handleWebSocketMessage.
  destruct (asNotification m) as [p|].
  - destruct (map_get _ _) as [sub|]; [|apply allocates_refl].
    eapply allocates_trans; [apply (allocates_clearTimeout st (timeout sub))|].
    eapply allocates_trans; [apply allocates_subscriptions|].
    destruct (reportsError _); apply allocates_cleanup.
  - destruct (msg_result m) as [serverId|], (msg_id m) as [localId|].
    + eapply allocates_trans; [apply allocates_log|].
      destruct (map_get _ _); [apply allocates_subscriptions|apply allocates_refl].
    + destruct (msg_error m) as [e|]; [|apply allocates_refl].
      destruct (isInvalidSubscription e); apply allocates_refl || apply allocates_log.
    + destruct (msg_error m) as [e|]; [|apply allocates_refl].
      destruct (isInvalidSubscription e); [apply allocates_refl|].
      eapply allocates_trans; [apply allocates_log|].
      destruct (map_get _ _) as [sub|]; [|apply allocates_refl].
      eapply allocates_trans; [apply (allocates_clearTimeout _ (timeout sub))|].
      eapply allocates_trans; [apply allocates_subscriptions|].
      apply allocates_cleanup.
    + destruct (msg_error m) as [e|]; [|apply allocates_refl].
      destruct (isInvalidSubscription e); apply allocates_refl || apply allocates_log.
Qed.

Lemma allocates_unavailable st call : allocates st (unavailable call st).
Proof. quiet_fields. Qed.

Lemma allocates_subscribe st call sig timeoutMs :
  allocates st (subscribe call sig timeoutMs st).
Proof.
  pose proof (allocates_cancelIdleTimeout st) as H0.
  unfold subscribe, setTimeout. cbv beta iota zeta.
  set (st1 := cancelIdleTimeout st) in *.
  eapply allocates_trans; [exact H0|]. clearbody st1. clear H0.
  match goal with |- context [ws ?x] => destruct (ws x) as [s|] eqn:E end.
  - split; simpl; auto; try lia.
    + intros id Hid. destruct (decide (nextSubscriptionId st1 = id)) as [<-|Hne].
      * right. lia.
      * left. now rewrite lookup_insert_ne in Hid.
    + exists [(s, nextSubscriptionId st1, sig)]. split; [reflexivity|].
      split; [constructor; [unfold frameId; simpl; lia|constructor]|].
      simpl. apply NoDup_singleton.
  - eapply allocates_trans; [|apply allocates_settle].
    split; simpl; auto; try lia.
    + intros id Hid. destruct (decide (nextSubscriptionId st1 = id)) as [<-|Hne].
      * right. lia.
      * left. now rewrite lookup_insert_ne in Hid.
    + exists []. rewrite app_nil_r. repeat split; constructor.
Qed.

Lemma allocates_continueAll done st : allocates st (continueAll done st).
Proof.
  revert st. induction done as [|[w connected] done IH]; intros st; simpl.
  - apply allocates_refl.
  - eapply allocates_trans; [|apply IH].
    destruct connected; [apply allocates_subscribe|apply allocates_unavailable].
Qed.

Lemma allocates_resumeAll ok l st : allocates st (resumeAll ok l st).2.
Proof.
  revert st. induction l as [|w l IH]; intros st; simpl; [apply allocates_refl|].
  destruct (resumeEnsure ok w st) as [connected st1] eqn:E1.
  destruct (resumeAll ok l st1) as [done st2] eqn:E2. simpl.
  assert (H1 : allocates st st1).
  { unfold resumeEnsure in E1. destruct (w_initiator w); inversion E1; subst.
    - match goal with |- context [if ?b then _ else _] => destruct b end;
        quiet_fields.
    - apply allocates_refl. }
  eapply allocates_trans; [exact H1|].
  specialize (IH st1). now rewrite E2 in IH.
Qed.

Lemma allocates_settleConnect st s ok : allocates st (settleConnect s ok st).
Proof.
  unfold settleConnect. destruct (sockets st !! s) as [sk|]; [|apply allocates_refl].
  destruct (connectSettled sk); [apply allocates_refl|]. cbv zeta.
  match goal with
  | |- context [resumeAll ok ?l ?x] =>
      pose proof (allocates_resumeAll ok l x) as H;
      destruct (resumeAll ok l x) as [done st3]
  end.
  simpl in H.
  eapply allocates_trans; [|apply allocates_continueAll].
  eapply allocates_trans; [|exact H]. quiet_fields.
Qed.

Section Allocation.
Variable isApiKeyValid : string -> bool.
Variable config : RPCProviderConfig.
Variable networkInfo : NetworkInfo.


(** Every event but a [monitorTransaction] call. *)
Lemma allocates_step st e :
  match e with
  | CallMonitor _ _ => True
  | _ => allocates st (step isApiKeyValid config networkInfo st e)
  end.
Proof.
  destruct e as [sig ms| |h|s|s data|s|s|s]; simpl; [exact I| | | | | | |].
  - apply allocates_disconnect.
  - apply allocates_fire.
  - destruct (isConnecting s st); [|apply allocates_refl].
    eapply allocates_trans; [apply allocates_setReadyState|].
    eapply allocates_trans; [apply allocates_log|apply allocates_settleConnect].
  - destruct (isAlive s st); [|apply allocates_refl].
    destruct data; [apply allocates_log|apply allocates_handleWebSocketMessage].
  - destruct (isAlive s st); [|apply allocates_refl].
    eapply allocates_trans; [apply allocates_setReadyState|].
    eapply allocates_trans; [apply allocates_log|apply allocates_settleConnect].
  - destruct (isAlive s st); [|apply allocates_refl].
    eapply allocates_trans; [apply allocates_setReadyState|].
    eapply allocates_trans; [apply allocates_log|].
    eapply allocates_trans; [apply allocates_with_ws|].
    apply allocates_handleWebSocketClose.
  - destruct (isAlive s st); [|apply allocates_refl].
    eapply allocates_trans; [apply (allocates_setReadyState st s CLOSING)|].
    eapply allocates_trans; [apply allocates_log|].
    eapply allocates_trans; [apply (allocates_setReadyState _ s CLOSED)|].
    eapply allocates_trans; [apply allocates_log|].
    eapply allocates_trans; [apply allocates_with_ws|].
    eapply allocates_trans; [apply allocates_handleWebSocketClose|].
    apply allocates_settleConnect.
Qed.

(** A [monitorTransaction] call is accepted, and opens at most one
    socket. *)
Lemma allocates_monitorTransaction st sig timeoutMs :
  let st' := monitorTransaction isApiKeyValid config networkInfo sig timeoutMs st in
  exists st0,
    allocates st0 st' /\
    nextSubscriptionId st0 = nextSubscriptionId st /\
    promises st0 = promises st /\ sent st0 = sent st /\
    nextCall st0 = S (nextCall st) /\
    (nextSocket st0 = nextSocket st \/ nextSocket st0 = S (nextSocket st)).
Proof.
  unfold Helius.monitorTransaction. cbv zeta.
  set (st0 := with_calls _ _ st).
  destruct (negb _).
  { exists st0. split; [apply allocates_unavailable|]. simpl. auto 10. }
  destruct (isWebSocketConnected st0).
  { exists st0. split; [apply allocates_subscribe|]. simpl. auto 10. }
  destruct (connecting st0) as [attempt|].
  { exists st0. split; [quiet_fields|]. simpl. auto 10. }
  destruct (getWebSocketUrl _ _ _) as [wsUrl|].
  - eexists. split; [apply allocates_refl|]. simpl. auto 10.
  - exists st0. split; [apply allocates_unavailable|]. simpl. auto 10.
Qed.

End Allocation.

Lemma wire_ok_initial : wire_ok initial.
Proof. split; simpl; [constructor|constructor|lia]. Qed.

Lemma wire_ok_allocates st st' :
  wire_ok st -> allocates st st' -> (nextSocket st' <= nextCall st')%nat ->
  wire_ok st'.
Proof.
  intros [Ha Hd Hs] [Hn _ (new & Hsent & Hnew & Hdn) _ _] Hle.
  split; [| |exact Hle]; rewrite Hsent.
  - apply Forall_app. split.
    + eapply Forall_impl; [exact Ha|]. simpl. intros; lia.
    + eapply Forall_impl; [exact Hnew|]. simpl. intros; lia.
  - rewrite fmap_app. apply NoDup_app. split; [exact Hd|]. split; [|exact Hdn].
    intros id Hin1 Hin2.
    apply list_elem_of_fmap in Hin1 as (x1 & -> & Hx1).
    apply list_elem_of_fmap in Hin2 as (x2 & Heq & Hx2).
    rewrite Forall_forall in Ha, Hnew.
    pose proof (Ha _ Hx1). pose proof (Hnew _ Hx2). lia.
Qed.

Section Wire.
Variable isApiKeyValid : string -> bool.
Variable config : RPCProviderConfig.
Variable networkInfo : NetworkInfo.

Lemma wire_ok_step st e :
  wire_ok st -> wire_ok (step isApiKeyValid config networkInfo st e).
Proof.
  intros Hw. pose proof (allocates_step isApiKeyValid config networkInfo st e) as H.
  destruct e as [sig ms| |h|s|s data|s|s|s];
    try (apply (wire_ok_allocates _ _ Hw H);
         rewrite (al_nextCall _ _ H), (al_nextSocket _ _ H); apply (wo_sockets _ Hw)).
  clear H. unfold step.
  destruct (allocates_monitorTransaction isApiKeyValid config networkInfo st sig ms)
    as (st0 & Hal & Hn & Hp & Hs & Hc & Hk).
  assert (Hw0 : wire_ok st0).
  { destruct Hw as [Ha Hd Hle]. split; rewrite ?Hs, ?Hn; auto. lia. }
  apply (wire_ok_allocates _ _ Hw0 Hal).
  rewrite (al_nextCall _ _ Hal), (al_nextSocket _ _ Hal). apply (wo_sockets _ Hw0).
Qed.

Lemma reachable_wire_ok st :
  reachable isApiKeyValid config networkInfo st -> wire_ok st.
Proof.
  induction 1 as [|st e _ IH]; [apply wire_ok_initial|now apply wire_ok_step].
Qed.

End Wire.

(** X1. Local subscription ids are never reused: no event lowers the
    counter, every promise that exists was given an id below it, and a
    promise that an event creates gets an id the counter passed over
    during that event, so it differs from every id handed out before,
    whatever happened to the connection in between. *)
Theorem subscription_ids_never_reused (isApiKeyValid : string -> bool)
    (config : RPCProviderConfig) (networkInfo : NetworkInfo)
    (st : state) (e : event) :
  reachable isApiKeyValid config networkInfo st ->
  let st' := step isApiKeyValid config networkInfo st e in
  nextSubscriptionId st <= nextSubscriptionId st' /\
  (forall id, is_Some (promises st !! id) -> id < nextSubscriptionId st) /\
  (forall id, promises st !! id = None -> is_Some (promises st' !! id) ->
              nextSubscriptionId st <= id < nextSubscriptionId st').
Proof.
  intros Hreach st'.
  pose proof (reachable_well_formed _ _ _ _ Hreach) as Hwf.
  assert (H : exists st0, allocates st0 st' /\
                nextSubscriptionId st0 = nextSubscriptionId st /\
                promises st0 = promises st).
  { pose proof (allocates_step isApiKeyValid config networkInfo st e) as H.
    destruct e as [sig ms| |h|s|s data|s|s|s];
      try (exists st; split; [exact H|split; reflexivity]).
    destruct (allocates_monitorTransaction isApiKeyValid config networkInfo st sig ms)
      as (st0 & Hal & Hn & Hp & _).
    exists st0. auto. }
  destruct H as (st0 & [Hn Hp _ _ _] & Hn0 & Hp0).
  rewrite Hn0 in Hn, Hp. split; [exact Hn|]. split; [apply (wf_promises _ Hwf)|].
  intros id Hnone Hsome. destruct (Hp id Hsome) as [H|H]; [|exact H].
  rewrite Hp0, Hnone in H. now destruct H.
Qed.

Lemma subscription_ids_never_reused_witness :
  let st := testRun initial [CallMonitor "sigA" 30000; SocketOpen 0%nat] in
  let st' := step nonEmptyKey testConfig mainnetBeta st (CallMonitor "sigB" 1000) in
  nextSubscriptionId st = 2 /\ nextSubscriptionId st' = 3 /\
  promises st !! 2 = None /\ promises st' !! 2 = Some Pending /\
  2 <= 2 < 3.
Proof.
  intros st st'.
  assert (Hreach : reachable nonEmptyKey testConfig mainnetBeta st).
  { apply reachable_run. constructor. }
  destruct (subscription_ids_never_reused nonEmptyKey testConfig mainnetBeta st
              (CallMonitor "sigB" 1000) Hreach) as (_ & _ & Hnew).
  do 4 (split; [reflexivity|]).
  apply (Hnew 2); [reflexivity|now exists Pending].
Defined.

(** X2. Every [signatureSubscribe] frame the service has sent carries an
    id the counter handed out, and no two frames carry the same id: a
    response is correlated with at most one request. *)
Theorem subscribe_requests_have_distinct_ids (isApiKeyValid : string -> bool)
    (config : RPCProviderConfig) (networkInfo : NetworkInfo) (st : state) :
  reachable isApiKeyValid config networkInfo st ->
  NoDup (frameId <$> sent st) /\
  Forall (fun f => frameId f < nextSubscriptionId st) (sent st).
Proof.
  intros Hreach.
  destruct (reachable_wire_ok _ _ _ _ Hreach) as [Ha Hd _]. now split.
Qed.

Lemma subscribe_requests_have_distinct_ids_witness :
  let st :=
    testRun initial
      [CallMonitor "sigA" 30000; CallMonitor "sigB" 30000; SocketOpen 0%nat;
       CallDisconnect; CallMonitor "sigC" 30000; SocketOpen 1%nat] in
  sent st = [(0%nat, 1, "sigA"); (0%nat, 2, "sigB"); (1%nat, 3, "sigC")] /\
  NoDup (frameId <$> sent st).
Proof.
  intros st. split; [reflexivity|].
  apply (subscribe_requests_have_distinct_ids nonEmptyKey testConfig mainnetBeta st).
  apply reachable_run. constructor.
Defined.

(** X3. Only [monitorTransaction] opens sockets, and each call opens at
    most one: a timer, a frame, a transport error or close, and
    [disconnect()] leave the number of sockets created as it is, so a
    failed or lost connection is never retried by the service itself, and
    the sockets ever created are no more than the calls made. *)
Theorem only_monitorTransaction_opens_sockets (isApiKeyValid : string -> bool)
    (config : RPCProviderConfig) (networkInfo : NetworkInfo)
    (st : state) (e : event) :
  reachable isApiKeyValid config networkInfo st ->
  let st' := step isApiKeyValid config networkInfo st e in
  (nextSocket st <= nextCall st)%nat /\
  match e with
  | CallMonitor _ _ =>
      nextCall st' = S (nextCall st) /\
      (nextSocket st' = nextSocket st \/ nextSocket st' = S (nextSocket st))
  | _ => nextCall st' = nextCall st /\ nextSocket st' = nextSocket st
  end.
Proof.
  intros Hreach st'. split; [apply (wo_sockets _ (reachable_wire_ok _ _ _ _ Hreach))|].
  pose proof (allocates_step isApiKeyValid config networkInfo st e) as H.
  destruct e as [sig ms| |h|s|s data|s|s|s];
    try (split; [apply (al_nextCall _ _ H)|apply (al_nextSocket _ _ H)]).
  destruct (allocates_monitorTransaction isApiKeyValid config networkInfo st sig ms)
    as (st0 & Hal & _ & _ & _ & Hc & Hk).
  subst st'. unfold step.
  rewrite (al_nextCall _ _ Hal), (al_nextSocket _ _ Hal). auto.
Qed.

Lemma only_monitorTransaction_opens_sockets_witness :
  let st := testRun initial [CallMonitor "sigA" 30000; SocketError 0%nat] in
  nextSocket st = 1%nat /\
  nextSocket (step nonEmptyKey testConfig mainnetBeta st (SocketClose 0%nat)) = 1%nat /\
  nextSocket (step nonEmptyKey testConfig mainnetBeta st (TimerFires 0%nat)) = 1%nat.
Proof.
  intros st.
  assert (Hreach : reachable nonEmptyKey testConfig mainnetBeta st).
  { apply reachable_run. constructor. }
  split; [reflexivity|]. split.
  - apply (only_monitorTransaction_opens_sockets nonEmptyKey testConfig mainnetBeta
             st (SocketClose 0%nat) Hreach).
  - apply (only_monitorTransaction_opens_sockets nonEmptyKey testConfig mainnetBeta
             st (TimerFires 0%nat) Hreach).
Defined.

(* ===================================================================== *)
(** ** Promises and their countdowns *)
(* ===================================================================== *)

Lemma NoDup_fmap_eq {A B} (f : A -> B) (l : list A) x y :
  NoDup (f <$> l) -> x ∈ l -> y ∈ l -> f x = f y -> x = y.
Proof.
  induction l as [|a l IH]; intros Hnd Hx Hy Hf; [now apply elem_of_nil in Hx|].
  rewrite fmap_cons in Hnd. apply NoDup_cons in Hnd as [Hnot Hnd].
  apply elem_of_cons in Hx as [->|Hx]; apply elem_of_cons in Hy as [->|Hy].
  - reflexivity.
  - exfalso. apply Hnot. rewrite Hf. apply list_elem_of_fmap. eauto.
  - exfalso. apply Hnot. rewrite <- Hf. apply list_elem_of_fmap. eauto.
  - now apply IH.
Qed.

(** X4. A subscription is in the table under one key at a time: in every
    reachable state two entries that belong to the same subscription are
    the same entry, under the same key, before and after the
    acknowledgment has moved it. *)
Theorem subscription_under_one_key (isApiKeyValid : string -> bool)
    (config : RPCProviderConfig) (networkInfo : NetworkInfo)
    (st : state) (k k' : Z) (sub sub' : WebSocketSubscription) :
  reachable isApiKeyValid config networkInfo st ->
  map_get k (subscriptions st) = Some sub ->
  map_get k' (subscriptions st) = Some sub' ->
  owner sub = owner sub' ->
  k = k' /\ sub = sub'.
Proof.
  intros Hreach Hk Hk' Ho.
  pose proof (wf_owners _ (reachable_well_formed _ _ _ _ Hreach)) as Hnd.
  apply map_get_elem_of in Hk, Hk'.
  pose proof (NoDup_fmap_eq (fun e => owner (snd e)) _ (k, sub) (k', sub')
                Hnd Hk Hk' Ho) as Heq.
  now inversion Heq.
Qed.

Lemma subscription_under_one_key_witness :
  let st :=
    testRun initial
      [CallMonitor "sigA" 30000; SocketOpen 0%nat; CallMonitor "sigB" 30000;
       SocketMessage 0%nat (Parsed (ackFrame 20100749 1))] in
  let sub := {| signature := "sigA"; owner := 1; timeout := 0%nat |} in
  map_get 20100749 (subscriptions st) = Some sub /\
  forall k sub', map_get k (subscriptions st) = Some sub' -> owner sub' = 1 ->
                 k = 20100749.
Proof.
  intros st sub. split; [reflexivity|]. intros k sub' Hk Ho.
  assert (Hreach : reachable nonEmptyKey testConfig mainnetBeta st).
  { apply reachable_run. constructor. }
  symmetry.
  apply (subscription_under_one_key nonEmptyKey testConfig mainnetBeta st
           20100749 k sub sub' Hreach eq_refl Hk).
  now rewrite Ho.
Defined.



(** X6. A promise is settled at most once: once it is resolved or
    rejected, no sequence of calls, frames, timers and transport events
    changes its outcome. *)
Theorem settled_outcome_is_final (isApiKeyValid : string -> bool)
    (config : RPCProviderConfig) (networkInfo : NetworkInfo)
    (st : state) (es : list event) (id : Z) (outcome : promise) :
  reachable isApiKeyValid config networkInfo st ->
  promises st !! id = Some outcome -> outcome <> Pending ->
  promises (run isApiKeyValid config networkInfo st es) !! id = Some outcome.
Proof. apply settled_promise_final. Qed.

Lemma settled_outcome_is_final_witness :
  let success := signatureResult 5207624 JNull in
  let st :=
    testRun initial
      [CallMonitor "sig" 30000; SocketOpen 0%nat;
       SocketMessage 0%nat (Parsed (ackFrame 20100749 1));
       SocketMessage 0%nat (Parsed (notificationFrame success 20100749))] in
  promises
    (testRun st
       [SocketMessage 0%nat (Parsed (notificationFrame success 20100749));
        SocketMessage 0%nat (Parsed (errorFrame 1 (-32000) "late"));
        TimerFires 0%nat; SocketClose 0%nat; CallDisconnect]) !! 1
  = Some (Resolved {| confirmed := true; txData := Some success |}).
Proof.
  intros success st.
  apply (settled_outcome_is_final nonEmptyKey testConfig mainnetBeta st).
  - apply reachable_run. constructor.
  - reflexivity.
  - discriminate.
Defined.

(* ===================================================================== *)
(** ** The idle timer *)
(* ===================================================================== *)

Lemma held_frame st st' :
  timers st' = timers st -> idleTimeout st' = idleTimeout st ->
  idle_timers_held st -> idle_timers_held st'.
Proof. intros Ht Hi H h t. rewrite Ht, Hi. apply H. Qed.

Lemma held_clearTimeout st h0 :
  idle_timers_held st -> idle_timers_held (clearTimeout h0 st).
Proof.
  intros H h t Hh. simpl in *.
  destruct (decide (h0 = h)) as [->|Hne].
  - now rewrite lookup_delete_eq in Hh.
  - rewrite lookup_delete_ne in Hh by exact Hne. now apply H.
Qed.

(** After [cancelIdleTimeout] no idle timer is set. *)
Lemma held_cancelled st h t :
  idle_timers_held st ->
  timers (cancelIdleTimeout st) !! h = Some t -> callback t <> IdleDisconnect.
Proof.
  intros H Hh Hcb. unfold cancelIdleTimeout in Hh.
  destruct (idleTimeout st) as [h0|] eqn:E; simpl in Hh.
  - destruct (decide (h0 = h)) as [->|Hne].
    + now rewrite lookup_delete_eq in Hh.
    + rewrite lookup_delete_ne in Hh by exact Hne.
      destruct (H h t Hh Hcb) as [Heq _]. congruence.
  - destruct (H h t Hh Hcb) as [Heq _]. congruence.
Qed.

Lemma held_cancelIdleTimeout st :
  idle_timers_held st -> idle_timers_held (cancelIdleTimeout st).
Proof. intros H h t Hh Hcb. now destruct (held_cancelled st h t H Hh Hcb). Qed.

Lemma held_scheduleIdleDisconnect st :
  idle_timers_held st -> idle_timers_held (scheduleIdleDisconnect st).
Proof.
  intros H. unfold scheduleIdleDisconnect. destruct (0 <? _); [exact H|].
  unfold setTimeout. cbv beta iota zeta.
  set (st1 := cancelIdleTimeout st).
  intros h t Hh Hcb. simpl in Hh |- *.
  destruct (decide (nextTimer st1 = h)) as [<-|Hne].
  - rewrite lookup_insert_eq in Hh. inversion Hh. now split.
  - rewrite lookup_insert_ne in Hh by exact Hne.
    now destruct (held_cancelled st h t H Hh Hcb).
Qed.

Lemma held_cleanup st id outcome :
  idle_timers_held st ->
  idle_timers_held
    (settle id outcome
       (scheduleIdleDisconnect
          (with_subscriptions (map_delete id (subscriptions st)) st))).
Proof.
  intros H. eapply held_frame; [reflexivity|reflexivity|].
  apply held_scheduleIdleDisconnect. now apply (held_frame st).
Qed.

Lemma held_closeSocket st s :
  idle_timers_held st -> idle_timers_held (closeSocket s st).
Proof.
  unfold closeSocket. destruct (sockets st !! s); [|auto].
  now apply held_frame.
Qed.

Lemma held_setReadyState st s r :
  idle_timers_held st -> idle_timers_held (setReadyState s r st).
Proof.
  unfold setReadyState. destruct (sockets st !! s); [|auto].
  now apply held_frame.
Qed.

Lemma held_fire st h :
  idle_timers_held st -> idle_timers_held (fire h st).
Proof.
  intros H. unfold fire. destruct (timers st !! h) as [t|]; [|exact H].
  apply (held_clearTimeout _ h) in H. destruct (callback t).
  - now apply held_cleanup.
  - unfold onIdleTimeout.
    match goal with |- context [ws ?x] => destruct (ws x) as [s|] end; [|exact H].
    destruct (_ =? 0); [|exact H].
    eapply held_frame; [reflexivity|reflexivity|].
    apply held_closeSocket. now apply (held_frame (clearTimeout h st)).
Qed.

Lemma held_rejectEach reason todo st :
  idle_timers_held st -> idle_timers_held (rejectEach reason todo st).
Proof.
  revert st. induction todo as [|[key sub] todo IH]; intros st H; simpl; [exact H|].
  destruct (map_has key (subscriptions st)); [|now apply IH].
  apply IH. apply held_cleanup. now apply held_clearTimeout.
Qed.

Lemma held_handleWebSocketClose st :
  idle_timers_held st -> idle_timers_held (handleWebSocketClose st).
Proof.
  intros H. unfold handleWebSocketClose. apply held_cancelIdleTimeout.
  eapply held_frame; [reflexivity|reflexivity|]. now apply held_rejectEach.
Qed.

Lemma held_disconnect st :
  idle_timers_held st -> idle_timers_held (disconnect st).
Proof.
  intros H. unfold disconnect.
  apply held_cancelIdleTimeout in H.
  apply (held_rejectEach "Service disconnected" (subscriptions (cancelIdleTimeout st)))
    in H.
  match goal with |- context [ws ?x] => destruct (ws x) as [s|] end.
  - eapply held_frame; [reflexivity|reflexivity|]. apply held_closeSocket.
    now eapply held_frame; [reflexivity|reflexivity|].
  - now eapply held_frame; [reflexivity|reflexivity|].
Qed.

Lemma held_subscribe st call sig timeoutMs :
  idle_timers_held st -> idle_timers_held (subscribe call sig timeoutMs st).
Proof.
  intros H. apply held_cancelIdleTimeout in H.
  unfold subscribe, setTimeout. cbv beta iota zeta.
  set (st1 := cancelIdleTimeout st) in *. clearbody st1.
  assert (Hset : forall h t,
            <[nextTimer st1 := {| callback := SubscriptionTimeout (nextSubscriptionId st1);
                                  delay := timeoutMs |}]> (timers st1) !! h = Some t ->
            callback t = IdleDisconnect ->
            idleTimeout st1 = Some h /\ delay t = idleTimeoutMs).
  { intros h t Hh Hcb. destruct (decide (nextTimer st1 = h)) as [<-|Hne].
    - rewrite lookup_insert_eq in Hh. inversion Hh. subst t. discriminate Hcb.
    - rewrite lookup_insert_ne in Hh by exact Hne. now apply H. }
  match goal with |- context [ws ?x] => destruct (ws x) as [s|] end;
    intros h t Hh Hcb; simpl in Hh |- *; now apply Hset.
Qed.

Lemma held_handleWebSocketMessage st m :
  idle_timers_held st -> idle_timers_held (handleWebSocketMessage m st).
Proof.
  intros H. unfold handleWebSocketMessage.
  destruct (asNotification m) as [p|].
  - destruct (map_get _ _) as [sub|]; [|exact H].
    destruct (reportsError _); apply held_cleanup;
      (eapply held_frame; [reflexivity|reflexivity|]); now apply held_clearTimeout.
  - destruct (msg_result m) as [serverId|], (msg_id m) as [localId|].
    + destruct (map_get _ _); now apply (held_frame st).
    + destruct (msg_error m) as [e|]; [|exact H].
      destruct (isInvalidSubscription e); [exact H|now apply (held_frame st)].
    + destruct (msg_error m) as [e|]; [|exact H].
      destruct (isInvalidSubscription e); [exact H|]. cbv zeta.
      destruct (map_get _ _) as [sub|]; [|now apply (held_frame st)].
      apply held_cleanup. eapply held_frame; [reflexivity|reflexivity|].
      apply held_clearTimeout. now apply (held_frame st).
    + destruct (msg_error m) as [e|]; [|exact H].
      destruct (isInvalidSubscription e); [exact H|now apply (held_frame st)].
Qed.

Lemma held_continueAll done st :
  idle_timers_held st -> idle_timers_held (continueAll done st).
Proof.
  revert st. induction done as [|[w connected] done IH]; intros st H; simpl;
    [exact H|].
  apply IH. destruct connected; [now apply held_subscribe|now apply (held_frame st)].
Qed.

Lemma held_settleConnect st s ok :
  idle_timers_held st -> idle_timers_held (settleConnect s ok st).
Proof.
  intros H. unfold settleConnect. destruct (sockets st !! s) as [sk|]; [|exact H].
  destruct (connectSettled sk); [exact H|]. cbv zeta.
  match goal with
  | |- context [resumeAll ok ?l ?x] =>
      pose proof (resumeAll_untouched ok l x) as (Hi & Ht & _);
      destruct (resumeAll ok l x) as [done st3]
  end.
  simpl in Hi, Ht. apply held_continueAll.
  eapply held_frame; [exact Ht|exact Hi|]. now apply (held_frame st).
Qed.

Section IdleTimers.
Variable isApiKeyValid : string -> bool.
Variable config : RPCProviderConfig.
Variable networkInfo : NetworkInfo.

Lemma held_step st e :
  idle_timers_held st ->
  idle_timers_held (step isApiKeyValid config networkInfo st e).
Proof.
  intros H. destruct e as [sig ms| |h|s|s data|s|s|s]; simpl.
  - unfold monitorTransaction. cbv zeta.
    set (st0 := with_calls _ _ st).
    assert (H0 : idle_timers_held st0) by now apply (held_frame st).
    destruct (negb _); [now apply (held_frame st0)|].
    destruct (isWebSocketConnected st0); [now apply held_subscribe|].
    destruct (connecting st0); [now apply (held_frame st0)|].
    destruct (getWebSocketUrl _ _ _); now apply (held_frame st0).
  - now apply held_disconnect.
  - now apply held_fire.
  - destruct (isConnecting s st); [|exact H]. apply held_settleConnect.
    eapply held_frame; [reflexivity|reflexivity|]. now apply held_setReadyState.
  - destruct (isAlive s st); [|exact H].
    destruct data; [now apply (held_frame st)|now apply held_handleWebSocketMessage].
  - destruct (isAlive s st); [|exact H]. apply held_settleConnect.
    eapply held_frame; [reflexivity|reflexivity|]. now apply held_setReadyState.
  - destruct (isAlive s st); [|exact H]. apply held_handleWebSocketClose.
    eapply held_frame; [reflexivity|reflexivity|].
    eapply held_frame; [reflexivity|reflexivity|]. now apply held_setReadyState.
  - destruct (isAlive s st); [|exact H]. apply held_settleConnect.
    apply held_handleWebSocketClose.
    eapply held_frame; [reflexivity|reflexivity|].
    eapply held_frame; [reflexivity|reflexivity|]. apply held_setReadyState.
    eapply held_frame; [reflexivity|reflexivity|]. now apply held_setReadyState.
Qed.

Lemma reachable_held st :
  reachable isApiKeyValid config networkInfo st -> idle_timers_held st.
Proof.
  induction 1 as [|st e _ IH]; [|now apply held_step].
  intros h t Hh. simpl in Hh. now rewrite lookup_empty in Hh.
Qed.

End IdleTimers.

(** X7. The idle timer cannot fire while subscriptions are outstanding:
    in every reachable state an idle timer that is set is the one
    [idleTimeout] holds (so there is at most one), it has the delay of
    30000 ms, and the subscription table is empty. *)
Theorem idle_timer_waits_for_empty_table (isApiKeyValid : string -> bool)
    (config : RPCProviderConfig) (networkInfo : NetworkInfo)
    (st : state) (h : nat) (t : timer) :
  reachable isApiKeyValid config networkInfo st ->
  timers st !! h = Some t -> callback t = IdleDisconnect ->
  idleTimeout st = Some h /\ delay t = 30000 /\ subscriptions st = [].
Proof.
  intros Hreach Hh Hcb.
  destruct (reachable_held _ _ _ _ Hreach h t Hh Hcb) as [Hi Hd].
  split; [exact Hi|]. split; [exact Hd|].
  apply (idle_armed_only_when_empty _ _ _ _ Hreach).
  unfold idleArmed. now rewrite Hi, Hh, Hcb.
Qed.

Lemma idle_timer_waits_for_empty_table_witness :
  let st :=
    testRun initial
      [CallMonitor "sig" 30000; SocketOpen 0%nat;
       SocketMessage 0%nat (Parsed (ackFrame 20100749 1));
       SocketMessage 0%nat
         (Parsed (notificationFrame (signatureResult 5207624 JNull) 20100749))] in
  timers st !! 1%nat = Some {| callback := IdleDisconnect; delay := 30000 |} /\
  idleTimeout st = Some 1%nat /\ subscriptions st = [].
Proof.
  intros st. split; [reflexivity|].
  destruct (idle_timer_waits_for_empty_table nonEmptyKey testConfig mainnetBeta st
              1%nat {| callback := IdleDisconnect; delay := 30000 |})
    as (Hi & _ & Hs); [apply reachable_run; constructor|reflexivity|reflexivity|].
  now split.
Defined.

Lemma nextTimer_cancelIdleTimeout st :
  nextTimer (cancelIdleTimeout st) = nextTimer st.
Proof. unfold cancelIdleTimeout. now destruct (idleTimeout st). Qed.

(** Emptying the table arms the idle timer, under a fresh handle. *)
Lemma cleanup_arms st id outcome :
  map_delete id (subscriptions st) = [] ->
  let st' :=
    settle id outcome
      (scheduleIdleDisconnect
         (with_subscriptions (map_delete id (subscriptions st)) st)) in
  subscriptions st' = [] /\
  idleTimeout st' = Some (nextTimer st) /\
  timers st' !! nextTimer st
  = Some {| callback := IdleDisconnect; delay := idleTimeoutMs |}.
Proof.
  intros Hempty. unfold scheduleIdleDisconnect. simpl subscriptions.
  rewrite Hempty. simpl. rewrite nextTimer_cancelIdleTimeout. simpl.
  rewrite subscriptions_cancelIdleTimeout. simpl.
  split; [reflexivity|]. split; [reflexivity|]. apply lookup_insert_eq.
Qed.

(** X8. When the last subscription leaves the table, by its notification
    or by its countdown, the idle timer is armed: [idleTimeout] holds a
    new timer that will run the idle callback after 30000 ms. *)
Theorem last_resolution_arms_idle_timer (st : state) (sub : WebSocketSubscription) :
  (forall m p,
     asNotification m = Some p ->
     subscriptions st = [(subscription p, sub)] ->
     let st' := handleWebSocketMessage m st in
     subscriptions st' = [] /\ idleArmed st' = true /\
     idleTimeout st' = Some (nextTimer st) /\
     timers st' !! nextTimer st
     = Some {| callback := IdleDisconnect; delay := 30000 |}) /\
  (forall h id ms,
     timers st !! h = Some {| callback := SubscriptionTimeout id; delay := ms |} ->
     subscriptions st = [(id, sub)] ->
     let st' := fire h st in
     subscriptions st' = [] /\ idleArmed st' = true /\
     idleTimeout st' = Some (nextTimer st) /\
     timers st' !! nextTimer st
     = Some {| callback := IdleDisconnect; delay := 30000 |}).
Proof.
  split.
  - intros m p Hm Hsub st'. subst st'. unfold handleWebSocketMessage.
    rewrite Hm, Hsub. simpl. rewrite Z.eqb_refl.
    set (st2 := with_subscriptions _ (clearTimeout (timeout sub) st)).
    assert (Hst2 : subscriptions st2 = []) by (subst st2; simpl; rewrite ?Hsub; simpl; now rewrite ?Z.eqb_refl).
    assert (H : forall r,
              let st' := resolveWithCleanup (owner sub) r st2 in
              subscriptions st' = [] /\ idleArmed st' = true /\
              idleTimeout st' = Some (nextTimer st) /\
              timers st' !! nextTimer st
              = Some {| callback := IdleDisconnect; delay := 30000 |}).
    { intros r. destruct (cleanup_arms st2 (owner sub) (Resolved r)) as (H1 & H2 & H3).
      - now rewrite Hst2.
      - fold (resolveWithCleanup (owner sub) r st2) in H1, H2, H3.
        change (nextTimer st2) with (nextTimer st) in H2, H3.
        repeat split; auto. unfold idleArmed. now rewrite H2, H3. }
    destruct (reportsError (result p)); apply H.
  - intros h id ms Hh Hsub st'. subst st'. unfold fire. rewrite Hh. simpl.
    destruct (cleanup_arms (clearTimeout h st) id
                (Resolved {| confirmed := false; txData := None |}))
      as (H1 & H2 & H3).
    + simpl. rewrite Hsub. simpl. now rewrite Z.eqb_refl.
    + fold (onSubscriptionTimeout id (clearTimeout h st)) in H1, H2, H3.
      change (nextTimer (clearTimeout h st)) with (nextTimer st) in H2, H3.
      repeat split; auto. unfold idleArmed. now rewrite H2, H3.
Qed.

Lemma last_resolution_arms_idle_timer_witness :
  let st :=
    testRun initial
      [CallMonitor "sig" 30000; SocketOpen 0%nat;
       SocketMessage 0%nat (Parsed (ackFrame 20100749 1))] in
  let note := notificationFrame (signatureResult 5207624 JNull) 20100749 in
  idleArmed st = false /\ idleArmed (handleWebSocketMessage note st) = true.
Proof.
  intros st note. split; [reflexivity|].
  destruct (last_resolution_arms_idle_timer st
              {| signature := "sig"; owner := 1; timeout := 0%nat |}) as [H _].
  apply (H note {| result := signatureResult 5207624 JNull; subscription := 20100749 |});
    reflexivity.
Defined.

(** X9. When the idle timer fires on an open connection the service
    closes the socket and forgets it: [this.ws] is null,
    [isWebSocketConnected()] is false, the socket is closing, the line
    'Closing idle Helius WebSocket' is logged, and no promise is touched. *)
Theorem idle_timer_closes_idle_connection (isApiKeyValid : string -> bool)
    (config : RPCProviderConfig) (networkInfo : NetworkInfo)
    (st : state) (h s : nat) (t : timer) (sk : socket) :
  reachable isApiKeyValid config networkInfo st ->
  timers st !! h = Some t -> callback t = IdleDisconnect ->
  ws st = Some s -> sockets st !! s = Some sk ->
  let st' := step isApiKeyValid config networkInfo st (TimerFires h) in
  ws st' = None /\ isWebSocketConnected st' = false /\
  sockets st' !! s
  = Some {| readyState := CLOSING; url := url sk;
            connectSettled := connectSettled sk |} /\
  logs st' = (logs st ++ [LogIdleClose])%list /\
  promises st' = promises st /\ subscriptions st' = [] /\
  timers st' = delete h (timers st).
Proof.
  intros Hreach Hh Hcb Hws Hs st'.
  assert (Hempty : subscriptions st = []).
  { apply (idle_armed_only_when_empty _ _ _ _ Hreach).
    destruct (reachable_held _ _ _ _ Hreach h t Hh Hcb) as [Hi _].
    unfold idleArmed. now rewrite Hi, Hh, Hcb. }
  subst st'. simpl. unfold fire. rewrite Hh, Hcb. unfold onIdleTimeout.
  simpl. rewrite Hws, Hempty. simpl. unfold closeSocket. simpl. rewrite Hs. simpl.
  repeat split; [apply lookup_insert_eq|exact Hempty].
Qed.

Lemma idle_timer_closes_idle_connection_witness :
  let st :=
    testRun initial
      [CallMonitor "sig" 30000; SocketOpen 0%nat;
       SocketMessage 0%nat (Parsed (ackFrame 20100749 1));
       SocketMessage 0%nat
         (Parsed (notificationFrame (signatureResult 5207624 JNull) 20100749))] in
  let st' := step nonEmptyKey testConfig mainnetBeta st (TimerFires 1%nat) in
  isWebSocketConnected st = true /\
  ws st' = None /\ isWebSocketConnected st' = false.
Proof.
  intros st st'. split; [reflexivity|].
  destruct (idle_timer_closes_idle_connection nonEmptyKey testConfig mainnetBeta st
              1%nat 0%nat {| callback := IdleDisconnect; delay := 30000 |}
              {| readyState := OPEN;
                 url := "wss://mainnet.helius-rpc.com/?api-key=test-api-key-123";
                 connectSettled := true |})
    as (H1 & H2 & _);
    [apply reachable_run; constructor|reflexivity|reflexivity|reflexivity|
     reflexivity|].
  now split.
Defined.

(* ===================================================================== *)
(** ** Disconnection when no key is shared *)
(* ===================================================================== *)

Lemma rejectEach_rejects_all reason st st' k sub :
  well_formed st -> unaliased (subscriptions st) ->
  (k, sub) ∈ subscriptions st ->
  shrinks (rejectEach reason (subscriptions st) st) st' ->
  timers st' !! timeout sub = None /\
  (promises st !! owner sub = Some Pending ->
   promises st' !! owner sub = Some (Rejected reason)).
Proof.
  intros Hwf Hun Hk Hsh.
  assert (Hall : forall k sub, (k, sub) ∈ subscriptions st ->
            map_get k (subscriptions st) = Some sub /\
            (timeout sub < nextTimer st)%nat).
  { intros k0 sub0 Hk0. split.
    - apply elem_of_map_get; [apply (wf_keys _ Hwf)|exact Hk0].
    - pose proof (wf_handles _ Hwf) as H. rewrite Forall_forall in H.
      apply (H _ Hk0). }
  destruct (rejectEach_reaches_all reason _ st
              (wf_keys _ Hwf) (wf_owners _ Hwf) Hun Hall k sub Hk) as [Ht Hp].
  pose proof (shrinks_rejectEach reason (subscriptions st) st) as Hsh0.
  split.
  - apply (timers_stay_cleared _ _ _ Hsh Ht).
    pose proof (sh_nextTimer _ _ Hsh0). destruct (Hall k sub Hk) as [_ Hlt]. lia.
  - intros Hpending. apply (sh_outcomes _ _ Hsh); [now apply Hp|discriminate].
Qed.

Lemma subscriptions_setReadyState st s r :
  subscriptions (setReadyState s r st) = subscriptions st.
Proof. unfold setReadyState. now destruct (sockets st !! s). Qed.

Lemma promises_setReadyState st s r :
  promises (setReadyState s r st) = promises st.
Proof. unfold setReadyState. now destruct (sockets st !! s). Qed.

Lemma promises_cancelIdleTimeout st :
  promises (cancelIdleTimeout st) = promises st.
Proof. unfold cancelIdleTimeout. now destruct (idleTimeout st). Qed.

(** X10. Unless the server has handed out an id that is also the local id
    of another tracked subscription, a transport close and [disconnect()]
    reach every subscription of the table: its countdown is cleared, its
    pending promise is rejected with 'WebSocket disconnected' or 'Service
    disconnected', and the table is empty afterwards. *)
Theorem disconnection_rejects_every_subscription (isApiKeyValid : string -> bool)
    (config : RPCProviderConfig) (networkInfo : NetworkInfo)
    (st : state) (k : Z) (sub : WebSocketSubscription) :
  reachable isApiKeyValid config networkInfo st ->
  unaliased (subscriptions st) ->
  (k, sub) ∈ subscriptions st ->
  promises st !! owner sub = Some Pending ->
  (forall s, isAlive s st = true ->
     let st' := step isApiKeyValid config networkInfo st (SocketClose s) in
     subscriptions st' = [] /\ timers st' !! timeout sub = None /\
     promises st' !! owner sub = Some (Rejected "WebSocket disconnected")) /\
  (let st' := step isApiKeyValid config networkInfo st CallDisconnect in
   subscriptions st' = [] /\ timers st' !! timeout sub = None /\
   promises st' !! owner sub = Some (Rejected "Service disconnected")).
Proof.
  intros Hreach Hun Hk Hpending.
  pose proof (reachable_well_formed _ _ _ _ Hreach) as Hwf.
  split.
  - intros s Halive st'. subst st'. simpl. rewrite Halive.
    set (st0 := with_ws None (log LogClosed (setReadyState s CLOSED st))).
    assert (Hsub0 : subscriptions st0 = subscriptions st)
      by apply subscriptions_setReadyState.
    assert (Hp0 : promises st0 = promises st) by apply promises_setReadyState.
    assert (Hwf0 : well_formed st0).
    { apply (shrinks_well_formed st); [exact Hwf|]. subst st0.
      eapply shrinks_trans; [apply shrinks_setReadyState|].
      eapply shrinks_trans; [apply shrinks_log|apply shrinks_with_ws]. }
    rewrite <- Hsub0 in Hun, Hk. rewrite <- Hp0 in Hpending.
    split.
    + unfold handleWebSocketClose. now rewrite subscriptions_cancelIdleTimeout.
    + destruct (rejectEach_rejects_all "WebSocket disconnected" st0
                  (handleWebSocketClose st0) k sub Hwf0 Hun Hk) as [Ht Hp].
      * unfold handleWebSocketClose.
        eapply shrinks_trans; [apply shrinks_clear|apply shrinks_cancelIdleTimeout].
      * split; [exact Ht|exact (Hp Hpending)].
  - intros st'. subst st'. simpl.
    set (st0 := cancelIdleTimeout st).
    assert (Hsub0 : subscriptions st0 = subscriptions st)
      by apply subscriptions_cancelIdleTimeout.
    assert (Hp0 : promises st0 = promises st) by apply promises_cancelIdleTimeout.
    assert (Hwf0 : well_formed st0).
    { apply (shrinks_well_formed st); [exact Hwf|apply shrinks_cancelIdleTimeout]. }
    rewrite <- Hsub0 in Hun, Hk. rewrite <- Hp0 in Hpending.
    assert (Hsh : shrinks (rejectEach "Service disconnected" (subscriptions st0) st0)
                    (disconnect st)).
    { unfold disconnect. fold st0.
      eapply shrinks_trans; [apply shrinks_clear|].
      match goal with |- context [ws ?x] => destruct (ws x) as [s|] end;
        [|apply shrinks_refl].
      eapply shrinks_trans; [apply shrinks_closeSocket|].
      eapply shrinks_trans; [apply shrinks_with_ws|apply shrinks_log]. }
    destruct (rejectEach_rejects_all "Service disconnected" st0
                (disconnect st) k sub Hwf0 Hun Hk Hsh) as [Ht Hp].
    split; [|split; [exact Ht|now apply Hp]].
    unfold disconnect. fold st0.
    match goal with |- context [ws ?x] => destruct (ws x) as [s|] end;
      [|reflexivity].
    unfold closeSocket. simpl. now destruct (sockets _ !! s).
Qed.

Lemma disconnection_rejects_every_subscription_witness :
  let st :=
    testRun initial
      [CallMonitor "sigA" 30000; SocketOpen 0%nat; CallMonitor "sigB" 30000;
       SocketMessage 0%nat (Parsed (ackFrame 20100749 1))] in
  promises (step nonEmptyKey testConfig mainnetBeta st (SocketClose 0%nat)) !! 2
    = Some (Rejected "WebSocket disconnected") /\
  promises (step nonEmptyKey testConfig mainnetBeta st CallDisconnect) !! 1
    = Some (Rejected "Service disconnected").
Proof.
  intros st.
  assert (Hreach : reachable nonEmptyKey testConfig mainnetBeta st).
  { apply reachable_run. constructor. }
  assert (Hun : unaliased (subscriptions st)).
  { intros k sub k' sub' Hk Hk' ->. revert Hk Hk'. vm_compute subscriptions.
    rewrite !elem_of_cons, !elem_of_nil.
    intros [H|[H|[]]] [H'|[H'|[]]]; inversion H; inversion H'; subst;
      simpl in *; congruence. }
  split.
  - destruct (disconnection_rejects_every_subscription nonEmptyKey testConfig
                mainnetBeta st 2 {| signature := "sigB"; owner := 2; timeout := 1%nat |}
                Hreach Hun) as [Hclose _].
    + vm_compute subscriptions. apply elem_of_cons. left. reflexivity.
    + reflexivity.
    + apply (Hclose 0%nat). reflexivity.
  - destruct (disconnection_rejects_every_subscription nonEmptyKey testConfig
                mainnetBeta st 20100749
                {| signature := "sigA"; owner := 1; timeout := 0%nat |}
                Hreach Hun) as [_ Hdis].
    + vm_compute subscriptions. apply elem_of_cons. right.
      apply elem_of_cons. left. reflexivity.
    + reflexivity.
    + apply Hdis.
Defined.

(* ===================================================================== *)
(** ** A service without a valid key *)
(* ===================================================================== *)

(** X11. With an API key that [isApiKeyValid] refuses the service never
    touches the network: whatever is called and whatever happens, no
    socket is created, no timer set, no promise created and no frame sent,
    and every [monitorTransaction] call has thrown 'WebSocket not
    available'. *)
Theorem invalid_key_never_connects (isApiKeyValid : string -> bool)
    (config : RPCProviderConfig) (networkInfo : NetworkInfo) (st : state) :
  isApiKeyValid (apiKey config) = false ->
  reachable isApiKeyValid config networkInfo st ->
  (sockets st = ∅ /\ nextSocket st = 0%nat /\ ws st = None /\
   connecting st = None /\ waiters st = []) /\
  (subscriptions st = [] /\ timers st = ∅ /\ idleTimeout st = None /\
   promises st = ∅ /\ sent st = []) /\
  (forall c, (c < nextCall st)%nat -> calls st !! c = Some Unavailable).
Proof.
  intros Hkey. induction 1 as [|st e _ IH].
  - repeat split. intros c Hc. simpl in Hc. lia.
  - destruct st as [ws0 subs next idle conn tms nt proms sc socks ns wts cls nc snt lgs].
    simpl in IH.
    destruct IH as ((-> & -> & -> & -> & ->) & (-> & -> & -> & -> & ->) & Hcalls).
    destruct e as [sig ms| |h|s|s data|s|s|s];
      try (simpl; unfold isConnecting, isAlive, fire; simpl;
           rewrite lookup_empty; simpl; repeat split; exact Hcalls).
    + simpl. unfold monitorTransaction. rewrite Hkey. simpl.
      repeat split. intros c Hc.
      destruct (decide (nc = c)) as [->|Hne]; [apply lookup_insert_eq|].
      rewrite !lookup_insert_ne by exact Hne. apply Hcalls. lia.
    + simpl. repeat split. exact Hcalls.
Qed.

Lemma invalid_key_never_connects_witness :
  let st :=
    run nonEmptyKey {| apiKey := "" |} mainnetBeta initial
      [CallMonitor "sigA" 30000; SocketOpen 0%nat; CallMonitor "sigB" 30000;
       CallDisconnect] in
  sockets st = ∅ /\ sent st = [] /\
  calls st !! 0%nat = Some Unavailable /\ calls st !! 1%nat = Some Unavailable.
Proof.
  intros st.
  destruct (invalid_key_never_connects nonEmptyKey {| apiKey := "" |} mainnetBeta st)
    as ((Hs & _) & (_ & _ & _ & _ & Hsent) & Hcalls);
    [reflexivity|apply reachable_run; constructor|].
  split; [exact Hs|]. split; [exact Hsent|].
  split; apply Hcalls; change (nextCall st) with 2%nat; lia.
Defined.

(* ===================================================================== *)
(** ** One frame, one subscription *)
(* ===================================================================== *)

Lemma promises_cleanup_other st id outcome x other :
  other <> id ->
  promises
    (settle id outcome (scheduleIdleDisconnect (with_subscriptions x st))) !! other
  = promises st !! other.
Proof.
  intros Hne. rewrite promises_settle_other by exact Hne.
  now rewrite promises_scheduleIdleDisconnect.
Qed.

Lemma promises_handleWebSocketMessage_scope st m :
  exists id, forall other, other <> id ->
    promises (handleWebSocketMessage m st) !! other = promises st !! other.
Proof.
  unfold handleWebSocketMessage.
  destruct (asNotification m) as [p|].
  - destruct (map_get _ _) as [sub|]; [|now exists 0].
    exists (owner sub). intros other Hne.
    destruct (reportsError _); unfold resolveWithCleanup;
      now rewrite promises_cleanup_other.
  - destruct (msg_result m) as [serverId|], (msg_id m) as [localId|].
    + exists 0. intros other _. simpl. now destruct (map_get _ _).
    + exists 0. intros other _. destruct (msg_error m) as [e|]; [|reflexivity].
      now destruct (isInvalidSubscription e).
    + destruct (msg_error m) as [e|]; [|now exists 0].
      destruct (isInvalidSubscription e); [now exists 0|]. cbv zeta.
      destruct (map_get _ _) as [sub|]; [|now exists 0].
      exists (owner sub). intros other Hne. unfold rejectWithCleanup.
      now rewrite promises_cleanup_other.
    + exists 0. intros other _. destruct (msg_error m) as [e|]; [|reflexivity].
      now destruct (isInvalidSubscription e).
Qed.

(** X12. A frame or a timer concerns one subscription: whatever frame the
    socket delivers and whichever timer fires, at most one promise changes;
    every other promise is as it was. *)
Theorem frame_or_timer_settles_one_promise (isApiKeyValid : string -> bool)
    (config : RPCProviderConfig) (networkInfo : NetworkInfo) (st : state) :
  (forall s data,
     exists id, forall other, other <> id ->
       promises (step isApiKeyValid config networkInfo st (SocketMessage s data))
         !! other
       = promises st !! other) /\
  (forall h,
     exists id, forall other, other <> id ->
       promises (step isApiKeyValid config networkInfo st (TimerFires h)) !! other
       = promises st !! other).
Proof.
  split.
  - intros s data. simpl. destruct (isAlive s st); [|now exists 0].
    destruct data as [|m]; [now exists 0|].
    apply promises_handleWebSocketMessage_scope.
  - intros h. simpl. unfold fire. destruct (timers st !! h) as [t|]; [|now exists 0].
    destruct (callback t) as [id|].
    + exists id. intros other Hne. unfold onSubscriptionTimeout.
      now rewrite promises_cleanup_other.
    + exists 0. intros other _. unfold onIdleTimeout.
      match goal with |- context [ws ?x] => destruct (ws x) as [s|] end;
        [|reflexivity].
      destruct (_ =? 0); [|reflexivity].
      unfold closeSocket. simpl. now destruct (sockets st !! s).
Qed.

(* ===================================================================== *)
(** ** Acknowledgments *)
(* ===================================================================== *)

Lemma map_delete_set_eq {V} (m : list (Z * V)) k v :
  map_delete k (map_set k v m) = map_delete k m.
Proof.
  induction m as [|[k' v'] m IH]; simpl; [now rewrite Z.eqb_refl|].
  destruct (Z.eqb_spec k' k) as [->|Hne]; simpl.
  - now rewrite Z.eqb_refl.
  - destruct (Z.eqb_spec k' k); [contradiction|]. now rewrite IH.
Qed.

Lemma map_set_fresh {V} (m : list (Z * V)) k v :
  map_get k m = None -> map_set k v m = (m ++ [(k, v)])%list.
Proof.
  induction m as [|[k' v'] m IH]; simpl; [reflexivity|].
  destruct (k' =? k); [discriminate|]. intros H. now rewrite IH.
Qed.

Lemma map_delete_values {V} (m : list (Z * V)) k v :
  NoDup (fst <$> m) -> map_get k m = Some v ->
  snd <$> m ≡ₚ v :: (snd <$> map_delete k m).
Proof.
  induction m as [|[k' v'] m IH]; simpl; [discriminate|].
  rewrite NoDup_cons. intros [Hnot Hnd].
  destruct (Z.eqb_spec k' k) as [->|Hne].
  - intros H. inversion H; subst v'. clear H.
    assert (Hm : map_delete k m = m).
    { clear IH Hnd. induction m as [|[k0 v0] m IH]; simpl; [reflexivity|].
      destruct (Z.eqb_spec k0 k) as [->|Hne].
      - exfalso. apply Hnot. simpl. apply elem_of_cons. now left.
      - rewrite IH; [reflexivity|]. intros Hin. apply Hnot. simpl.
        apply elem_of_cons. now right. }
    now rewrite Hm.
  - intros H. simpl. rewrite (IH Hnd H). apply Permutation_swap.
Qed.

(** X13. A duplicated acknowledgment is harmless: handling the same
    acknowledgment a second time writes its debug line again and changes
    nothing else. *)
Theorem duplicate_acknowledgment_harmless (st : state) (ack : WebSocketMessage)
    (localId serverId : Z) :
  asNotification ack = None ->
  msg_result ack = Some serverId -> msg_id ack = Some localId ->
  let st1 := handleWebSocketMessage ack st in
  handleWebSocketMessage ack st1 = log (LogRemapped localId (JNum serverId)) st1.
Proof.
  intros Hn Hr Hi st1. subst st1. unfold handleWebSocketMessage.
  rewrite Hn, Hr, Hi. cbv zeta.
  change (subscriptions (log (LogRemapped localId (JNum serverId)) st))
    with (subscriptions st).
  destruct (map_get localId (subscriptions st)) as [sub|] eqn:E.
  - set (m1 := map_set serverId sub (map_delete localId (subscriptions st))).
    simpl subscriptions.
    destruct (Z.eq_dec serverId localId) as [->|Hne].
    + subst m1. rewrite map_get_set_eq, map_delete_set_eq.
      assert (Hd : forall m : list (Z * WebSocketSubscription),
                map_delete localId (map_delete localId m) = map_delete localId m).
      { induction m as [|[k v] m IH]; simpl; [reflexivity|].
        destruct (Z.eqb_spec k localId) as [->|Hne]; [exact IH|].
        simpl. destruct (Z.eqb_spec k localId); [contradiction|]. now rewrite IH. }
      now rewrite Hd.
    + subst m1. rewrite map_get_set_ne by exact Hne.
      now rewrite map_get_delete_eq.
  - simpl subscriptions. now rewrite E.
Qed.

Lemma duplicate_acknowledgment_harmless_witness :
  let st := testRun initial [CallMonitor "sig" 30000; SocketOpen 0%nat] in
  let st1 := handleWebSocketMessage (ackFrame 20100749 1) st in
  subscriptions (handleWebSocketMessage (ackFrame 20100749 1) st1)
  = [(20100749, {| signature := "sig"; owner := 1; timeout := 0%nat |})].
Proof.
  intros st st1. subst st1.
  rewrite (duplicate_acknowledgment_harmless st (ackFrame 20100749 1) 1 20100749
             eq_refl eq_refl eq_refl).
  reflexivity.
Defined.

(** X14. An acknowledgment only changes the key: when the server id is
    not the key of another entry, the subscriptions in the table after the
    acknowledgment are those before it, the acknowledged one now under the
    server id, and no timer or promise is touched. *)
Theorem acknowledgment_only_rekeys (isApiKeyValid : string -> bool)
    (config : RPCProviderConfig) (networkInfo : NetworkInfo)
    (st : state) (ack : WebSocketMessage) (localId serverId : Z)
    (sub : WebSocketSubscription) :
  reachable isApiKeyValid config networkInfo st ->
  asNotification ack = None ->
  msg_result ack = Some serverId -> msg_id ack = Some localId ->
  map_get localId (subscriptions st) = Some sub ->
  serverId = localId \/ map_get serverId (subscriptions st) = None ->
  let st' := handleWebSocketMessage ack st in
  snd <$> subscriptions st' ≡ₚ snd <$> subscriptions st /\
  map_get serverId (subscriptions st') = Some sub /\
  timers st' = timers st /\ promises st' = promises st /\
  settleCalls st' = settleCalls st.
Proof.
  intros Hreach Hn Hr Hi Hsub Hfree st'. subst st'.
  pose proof (wf_keys _ (reachable_well_formed _ _ _ _ Hreach)) as Hnd.
  unfold handleWebSocketMessage. rewrite Hn, Hr, Hi. cbv zeta.
  change (subscriptions (log (LogRemapped localId (JNum serverId)) st))
    with (subscriptions st).
  rewrite Hsub. simpl.
  split; [|split; [apply map_get_set_eq|now repeat split]].
  assert (Hnone : map_get serverId (map_delete localId (subscriptions st)) = None).
  { destruct Hfree as [->|Hnone]; [apply map_get_delete_eq|].
    now apply map_get_delete_None. }
  rewrite (map_set_fresh _ _ _ Hnone), fmap_app. simpl.
  rewrite (map_delete_values _ _ _ Hnd Hsub).
  symmetry. apply Permutation_cons_append.
Qed.

Lemma acknowledgment_only_rekeys_witness :
  let st :=
    testRun initial
      [CallMonitor "sigA" 30000; SocketOpen 0%nat; CallMonitor "sigB" 30000] in
  let subA := {| signature := "sigA"; owner := 1; timeout := 0%nat |} in
  let st' := handleWebSocketMessage (ackFrame 20100749 1) st in
  snd <$> subscriptions st' ≡ₚ snd <$> subscriptions st /\
  map_get 20100749 (subscriptions st') = Some subA.
Proof.
  intros st subA st'.
  destruct (acknowledgment_only_rekeys nonEmptyKey testConfig mainnetBeta st
              (ackFrame 20100749 1) 1 20100749 subA)
    as (Hperm & Hget & _);
    [apply reachable_run; constructor|reflexivity|reflexivity|reflexivity|
     reflexivity|right; reflexivity|].
  now split.
Defined.

(* ===================================================================== *)
(** ** Calling [disconnect()] again *)
(* ===================================================================== *)

Lemma with_subscriptions_same st :
  with_subscriptions (subscriptions st) st = st.
Proof. now destruct st. Qed.

Lemma subscriptions_disconnect st : subscriptions (disconnect st) = [].
Proof.
  unfold disconnect. cbv zeta.
  match goal with
  | |- context [match ws ?x with _ => _ end] => destruct (ws x) as [s|]
  end; [|reflexivity].
  unfold closeSocket. simpl. now destruct (sockets _ !! s).
Qed.

Lemma ws_disconnect st : ws (disconnect st) = None.
Proof.
  unfold disconnect. cbv zeta.
  match goal with
  | |- context [match ws ?x with _ => _ end] => destruct (ws x) as [s|] eqn:E
  end; [reflexivity|exact E].
Qed.

Lemma ws_cancelIdleTimeout st : ws (cancelIdleTimeout st) = ws st.
Proof. unfold cancelIdleTimeout. now destruct (idleTimeout st). Qed.

(** [disconnect()] on a service that has no connection and no
    subscription only cancels the idle timer. *)
Lemma disconnect_idle st :
  subscriptions st = [] -> ws st = None -> disconnect st = cancelIdleTimeout st.
Proof.
  intros Hs Hw. unfold disconnect.
  rewrite subscriptions_cancelIdleTimeout, Hs. simpl.
  rewrite ws_cancelIdleTimeout, Hw.
  rewrite <- (with_subscriptions_same (cancelIdleTimeout st)) at 2.
  now rewrite subscriptions_cancelIdleTimeout, Hs.
Qed.

(** X15. [disconnect()] may be called again: the second call only cancels
    the idle timer the first one may have left armed, a third call changes
    nothing, and on a service that never connected the call changes
    nothing at all. *)
Theorem disconnect_again (st : state) :
  disconnect (disconnect st) = cancelIdleTimeout (disconnect st) /\
  disconnect (disconnect (disconnect st)) = disconnect (disconnect st) /\
  disconnect initial = initial.
Proof.
  assert (H2 : disconnect (disconnect st) = cancelIdleTimeout (disconnect st)).
  { apply disconnect_idle; [apply subscriptions_disconnect|apply ws_disconnect]. }
  split; [exact H2|]. split; [|reflexivity].
  rewrite H2 at 1 2. rewrite disconnect_idle.
  - unfold cancelIdleTimeout at 1. now rewrite idleTimeout_cancelIdleTimeout.
  - rewrite subscriptions_cancelIdleTimeout. apply subscriptions_disconnect.
  - rewrite ws_cancelIdleTimeout. apply ws_disconnect.
Qed.

(* ===================================================================== *)
(** ** Subscribing on an open connection *)
(* ===================================================================== *)

(** X16. The body of [monitorTransaction] that runs once
    [ensureWebSocketConnected()] has answered [true] (lines 90-129; line 85
    awaits, so that it runs a microtask after the call, on the state it
    finds then): it takes the next local id and increments the counter,
    hands [setTimeout] the countdown callback with [timeoutMs], enters the
    subscription under the local id, returns the promise of that id,
    cancels the idle timer and creates no socket.  When the connection
    is open it sends one [signatureSubscribe] frame with the id and the
    signature on the socket and logs the line, and the promise is
    pending; when [this.ws] is null, [send] throws inside the executor:
    the promise is rejected with the [TypeError], nothing is sent, and the
    entry and its countdown stay.  A call made on an open connection, with nothing else
    in its tick, runs this body on the state it found. *)
Theorem monitor_body_registers (isApiKeyValid : string -> bool)
    (config : RPCProviderConfig) (networkInfo : NetworkInfo)
    (st : state) (call : nat) (sig : string) (timeoutMs : Z) :
  (let st' := subscribe call sig timeoutMs st in
   let id := nextSubscriptionId st in
   let h := nextTimer st in
   calls st' !! call = Some (Monitoring id) /\
   nextSubscriptionId st' = id + 1 /\
   timers st' !! h
   = Some {| callback := SubscriptionTimeout id; delay := timeoutMs |} /\
   map_get id (subscriptions st')
   = Some {| signature := sig; owner := id; timeout := h |} /\
   idleTimeout st' = None /\ nextSocket st' = nextSocket st /\ ws st' = ws st /\
   (isWebSocketConnected st = true ->
    exists s, ws st = Some s /\
      promises st' !! id = Some Pending /\
      sent st' = (sent st ++ [(s, id, sig)])%list /\
      logs st' = (logs st ++ [LogMonitoring sig])%list) /\
   (ws st = None ->
    promises st' !! id
    = Some (Rejected "Cannot read properties of null (reading 'send')") /\
    sent st' = sent st /\ logs st' = logs st)) /\
  (isApiKeyValid (apiKey config) = true -> isWebSocketConnected st = true ->
   step isApiKeyValid config networkInfo st (CallMonitor sig timeoutMs)
   = subscribe (nextCall st) sig timeoutMs
       (with_calls (<[nextCall st := Suspended]> (calls st)) (S (nextCall st)) st)).
Proof.
  split.
  - unfold subscribe, setTimeout. cbv beta iota zeta.
    assert (H1 : ws (cancelIdleTimeout st) = ws st) by apply ws_cancelIdleTimeout.
    assert (H2 : nextTimer (cancelIdleTimeout st) = nextTimer st)
      by exact (nextTimer_cancelIdleTimeout st).
    assert (H3 : nextSubscriptionId (cancelIdleTimeout st) = nextSubscriptionId st)
      by (unfold cancelIdleTimeout; now destruct (idleTimeout st)).
    assert (H4 : sent (cancelIdleTimeout st) = sent st)
      by (unfold cancelIdleTimeout; now destruct (idleTimeout st)).
    assert (H5 : logs (cancelIdleTimeout st) = logs st)
      by (unfold cancelIdleTimeout; now destruct (idleTimeout st)).
    assert (H6 : nextSocket (cancelIdleTimeout st) = nextSocket st)
      by (unfold cancelIdleTimeout; now destruct (idleTimeout st)).
    pose proof (idleTimeout_cancelIdleTimeout st) as H8.
    set (st1 := cancelIdleTimeout st) in *. clearbody st1.
    cbn [ws with_calls with_subscriptions with_timers with_promises
         with_nextSubscriptionId].
    rewrite H1.
    assert (Hopen : isWebSocketConnected st = true -> exists s, ws st = Some s).
    { unfold isWebSocketConnected. destruct (ws st) as [s|]; [eauto|discriminate]. }
    destruct (ws st) as [s|]; simpl; rewrite H2, H3, ?H4, ?H5, H6, H8.
    + split; [apply lookup_insert_eq|]. split; [reflexivity|].
      split; [apply lookup_insert_eq|]. split; [apply map_get_set_eq|].
      split; [reflexivity|]. split; [reflexivity|]. split; [exact H1|].
      split; [|discriminate].
      intros _. exists s. split; [reflexivity|].
      split; [apply lookup_insert_eq|]. now split.
    + split; [apply lookup_insert_eq|]. split; [reflexivity|].
      split; [apply lookup_insert_eq|]. split; [apply map_get_set_eq|].
      split; [reflexivity|]. split; [reflexivity|]. split; [exact H1|].
      split; [intros Ho; destruct (Hopen Ho); discriminate|].
      intros _. split; [|now split].
      rewrite lookup_insert_eq. apply lookup_insert_eq.
  - intros Hkey Hconn. simpl. unfold monitorTransaction. rewrite Hkey. simpl.
    change (isWebSocketConnected (with_calls _ _ st)) with (isWebSocketConnected st).
    now rewrite Hconn.
Qed.

Lemma monitor_body_registers_witness :
  let st := testRun initial [CallMonitor "sigA" 30000; SocketOpen 0%nat] in
  let st' := step nonEmptyKey testConfig mainnetBeta st (CallMonitor "sigB" 1000) in
  isWebSocketConnected st = true /\
  calls st' !! 1%nat = Some (Monitoring 2) /\
  timers st' !! 1%nat
  = Some {| callback := SubscriptionTimeout 2; delay := 1000 |} /\
  map_get 2 (subscriptions st')
  = Some {| signature := "sigB"; owner := 2; timeout := 1%nat |}.
Proof.
  intros st st'. split; [reflexivity|].
  destruct (monitor_body_registers nonEmptyKey testConfig mainnetBeta
              st 1%nat "sigB" 1000) as [_ Hcall].
  subst st'. rewrite (Hcall eq_refl eq_refl).
  destruct (monitor_body_registers nonEmptyKey testConfig mainnetBeta
              (with_calls (<[nextCall st := Suspended]> (calls st))
                          (S (nextCall st)) st) 1%nat "sigB" 1000)
    as [(Hc & _ & Ht & Hm & _) _].
  split; [exact Hc|]. split; [exact Ht|exact Hm].
Defined.

(* ===================================================================== *)
(** ** More on the endpoints *)
(* ===================================================================== *)

Lemma prefix_cons x a y b :
  String.prefix (String x a) (String y b)
  = if Ascii.ascii_dec x y then String.prefix a b else false.
Proof. reflexivity. Qed.

Lemma append_cons x (a b : string) : String x a +:+ b = String x (a +:+ b).
Proof. reflexivity. Qed.

Lemma prefix_app (a b : string) :
  String.prefix a b = true <-> exists post, b = a +:+ post.
Proof.
  revert b. induction a as [|x a IH]; intros b.
  - destruct b; (split; [intros _; eexists; reflexivity|reflexivity]).
  - destruct b as [|y b].
    + split; [discriminate|]. intros [post H]. discriminate H.
    + rewrite prefix_cons. destruct (Ascii.ascii_dec x y) as [->|Hne].
      * rewrite IH. split; intros [post H]; exists post.
        -- now rewrite append_cons, H.
        -- rewrite append_cons in H. now inversion H.
      * split; [discriminate|]. intros [post H].
        rewrite append_cons in H. congruence.
Qed.

Lemma includes_cons needle c hay :
  includes needle (String c hay)
  = String.prefix needle (String c hay) || includes needle hay.
Proof. reflexivity. Qed.

Lemma includes_app (needle hay : string) :
  includes needle hay = true <->
  exists pre post, hay = pre +:+ needle +:+ post.
Proof.
  induction hay as [|c hay IH].
  - change (includes needle "") with (String.prefix needle "" || false).
    rewrite orb_false_r, prefix_app. split.
    + intros [post H]. now exists "", post.
    + intros (pre & post & H). destruct pre; [now exists post|discriminate H].
  - rewrite includes_cons, orb_true_iff, prefix_app, IH. split.
    + intros [[post H]|(pre & post & H)].
      * now exists "", post.
      * exists (String c pre), post. now rewrite append_cons, H.
    + intros (pre & post & H). destruct pre as [|c' pre].
      * left. now exists post.
      * right. exists pre, post. rewrite append_cons in H. now inversion H.
Qed.

(** X18. The Helius subdomain is 'devnet' exactly when the text 'devnet'
    occurs somewhere in the network name, in this spelling, and 'mainnet'
    for every other name. *)
Theorem devnet_subdomain_iff_substring (networkInfo : NetworkInfo) :
  (Helius.subdomain networkInfo = "devnet" <->
   exists pre post, network networkInfo = pre +:+ "devnet" +:+ post) /\
  (Helius.subdomain networkInfo = "devnet" \/
   Helius.subdomain networkInfo = "mainnet").
Proof.
  unfold Helius.subdomain. rewrite <- includes_app.
  destruct (includes "devnet" (network networkInfo)).
  - split; [now split|now left].
  - split; [split; discriminate|now right].
Qed.

Lemma reportsError_signatureResult slot err :
  reportsError (signatureResult slot err) = truthy err.
Proof. reflexivity. Qed.

(** X19. What a notification settles its promise with is decided by the
    truthiness of [result.value.err] alone: a payload
    [{context, value: {err}}] resolves [confirmed: false] when [err] is
    truthy and [confirmed: true] when it is null, false, 0 or the empty
    string; a payload whose [value] is missing or is not an object resolves
    [confirmed: true].  [txData] is the payload in every case. *)
Theorem notification_outcome_follows_err (st : state) (note : WebSocketMessage)
    (payload : json) (serverId : Z) (sub : WebSocketSubscription) :
  asNotification note = Some {| result := payload; subscription := serverId |} ->
  map_get serverId (subscriptions st) = Some sub ->
  promises st !! owner sub = Some Pending ->
  let outcome := promises (handleWebSocketMessage note st) !! owner sub in
  (forall slot err, payload = signatureResult slot err ->
     outcome = Some (Resolved {| confirmed := negb (truthy err);
                                 txData := Some payload |})) /\
  (get_field "value" payload = None ->
   outcome = Some (Resolved {| confirmed := true; txData := Some payload |})) /\
  (forall v, get_field "value" payload = Some v -> is_object v = false ->
     outcome = Some (Resolved {| confirmed := true; txData := Some payload |})).
Proof.
  intros Hn Hsub Hp outcome. subst outcome.
  rewrite (notification_resolves st note payload serverId sub Hn Hsub Hp).
  split; [|split].
  - intros slot err ->. now rewrite reportsError_signatureResult.
  - intros Hv. unfold reportsError. rewrite Hv. now rewrite andb_false_r.
  - intros v Hv Ho. unfold reportsError. rewrite Hv, Ho.
    now rewrite andb_false_r, andb_false_r.
Qed.

Lemma notification_outcome_follows_err_witness :
  let st :=
    testRun initial
      [CallMonitor "sig" 30000; SocketOpen 0%nat;
       SocketMessage 0%nat (Parsed (ackFrame 20100749 1))] in
  let zero := signatureResult 5207624 (JNum 0) in
  let text := signatureResult 5207624 (JStr "AccountInUse") in
  promises (handleWebSocketMessage (notificationFrame zero 20100749) st) !! 1
    = Some (Resolved {| confirmed := true; txData := Some zero |}) /\
  promises (handleWebSocketMessage (notificationFrame text 20100749) st) !! 1
    = Some (Resolved {| confirmed := false; txData := Some text |}).
Proof.
  intros st zero text. split.
  - destruct (notification_outcome_follows_err st (notificationFrame zero 20100749)
                zero 20100749 {| signature := "sig"; owner := 1; timeout := 0%nat |}
                eq_refl eq_refl eq_refl) as [H _].
    apply (H 5207624 (JNum 0) eq_refl).
  - destruct (notification_outcome_follows_err st (notificationFrame text 20100749)
                text 20100749 {| signature := "sig"; owner := 1; timeout := 0%nat |}
                eq_refl eq_refl eq_refl) as [H _].
    apply (H 5207624 (JStr "AccountInUse") eq_refl).
Defined.

(* ===================================================================== *)
(** ** The Infura service once constructed *)
(* ===================================================================== *)

Lemma string_length_app (a b : string) :
  String.length (a +:+ b) = (String.length a + String.length b)%nat.
Proof.
  induction a as [|x a IH]; [reflexivity|].
  rewrite append_cons. simpl. now rewrite IH.
Qed.

Lemma append_inv_tail (a b c : string) : a +:+ c = b +:+ c -> a = b.
Proof.
  revert b. induction a as [|x a IH]; intros [|y b] H.
  - reflexivity.
  - apply (f_equal String.length) in H.
    rewrite !string_length_app in H. simpl in H. lia.
  - apply (f_equal String.length) in H.
    rewrite !string_length_app in H. simpl in H. lia.
  - rewrite !append_cons in H. inversion H. f_equal. now apply IH.
Qed.

Lemma lookup_network_In id m name :
  Infura.lookup_network id m = Some name -> In (id, name) m.
Proof.
  induction m as [|[k n] m IH]; simpl; [discriminate|].
  destruct (Z.eqb_spec k id) as [->|Hne].
  - intros H. inversion H. now left.
  - intros H. right. now apply IH.
Qed.

(** No two chain ids of the table share a network name. *)
Lemma NETWORK_MAP_names_distinct id1 id2 name :
  In (id1, name) Infura.NETWORK_MAP -> In (id2, name) Infura.NETWORK_MAP ->
  id1 = id2.
Proof.
  assert (Hcheck :
            forallb (fun e1 =>
              forallb (fun e2 =>
                implb (String.eqb (snd e1) (snd e2)) (fst e1 =? fst e2))
                Infura.NETWORK_MAP) Infura.NETWORK_MAP = true)
    by (vm_compute; reflexivity).
  intros H1 H2. rewrite forallb_forall in Hcheck.
  specialize (Hcheck _ H1). rewrite forallb_forall in Hcheck.
  specialize (Hcheck _ H2). simpl in Hcheck.
  rewrite String.eqb_refl in Hcheck. simpl in Hcheck. now apply Z.eqb_eq.
Qed.

(** X20. An Infura endpoint identifies its chain: with one API key, two
    networks for which [getHttpUrl] gives the same URL have the same chain
    id, since no two chain ids of the network map share a name. *)
Theorem infura_url_determines_chain (config : RPCProviderConfig)
    (n1 n2 : NetworkInfo) (endpoint : string) :
  Infura.getHttpUrl config n1 = inr endpoint ->
  Infura.getHttpUrl config n2 = inr endpoint ->
  chainId n1 = chainId n2.
Proof.
  unfold Infura.getHttpUrl, Infura.getInfuraNetworkName.
  destruct (Infura.lookup_network (chainId n1) _) as [name1|] eqn:E1; [|discriminate].
  destruct (Infura.lookup_network (chainId n2) _) as [name2|] eqn:E2; [|discriminate].
  destruct (String.eqb name1 ""); [discriminate|].
  destruct (String.eqb name2 ""); [discriminate|].
  intros H1 H2. inversion H1 as [Hu1]. inversion H2 as [Hu2].
  rewrite <- Hu2 in Hu1. clear H1 H2 Hu2.
  apply String.app_inj in Hu1. apply append_inv_tail in Hu1. subst name2.
  apply lookup_network_In in E1, E2.
  exact (NETWORK_MAP_names_distinct _ _ _ E1 E2).
Qed.

Lemma infura_url_determines_chain_witness :
  Infura.getHttpUrl {| apiKey := "k" |}
      {| chain := "ethereum"; network := "base"; chainId := 8453 |}
    = inr "https://base-mainnet.infura.io/v3/k" /\
  chainId {| chain := "ethereum"; network := "base"; chainId := 8453 |}
    = chainId {| chain := "ethereum"; network := "base-mainnet"; chainId := 8453 |}.
Proof.
  split; [reflexivity|].
  apply (infura_url_determines_chain {| apiKey := "k" |}
           {| chain := "ethereum"; network := "base"; chainId := 8453 |}
           {| chain := "ethereum"; network := "base-mainnet"; chainId := 8453 |}
           "https://base-mainnet.infura.io/v3/k" eq_refl eq_refl).
Defined.

Lemma getInfuraNetworkName_mapped (networkInfo : NetworkInfo) :
  Infura.mapped (chainId networkInfo) <->
  exists name, Infura.getInfuraNetworkName networkInfo = inr name.
Proof.
  unfold Infura.getInfuraNetworkName. split.
  - unfold Infura.mapped. simpl. intros Hin.
    repeat (destruct Hin as [<-|Hin]; [eexists; reflexivity|]). contradiction.
  - intros [name H].
    destruct (Infura.lookup_network _ _) as [n|] eqn:E; [|discriminate].
    apply lookup_network_In in E.
    apply (in_map fst) in E. exact E.
Qed.

(** X21. An [InfuraService] exists exactly for the chain 'ethereum' with a
    chain id of the network map.  Once constructed it keeps its arguments,
    its HTTP provider was created with the URL [getHttpUrl] gives, it has
    no WebSocket URL, and [healthCheck] never throws: it returns true when
    the RPC call returned and false when it threw. *)
Theorem infura_constructed_service (config : RPCProviderConfig)
    (networkInfo : NetworkInfo) :
  (chain networkInfo = "ethereum" -> Infura.mapped (chainId networkInfo) ->
   exists svc, Infura.new config networkInfo = inr svc) /\
  (forall svc, Infura.new config networkInfo = inr svc ->
     chain networkInfo = "ethereum" /\ Infura.mapped (chainId networkInfo) /\
     Infura.config svc = config /\ Infura.networkInfo svc = networkInfo /\
     Infura.getHttpUrl config networkInfo = inr (Infura.providerUrl svc) /\
     Infura.getWebSocketUrl config networkInfo = None /\
     forall outcome, exists line,
       Infura.healthCheck svc outcome
       = inr (match outcome with
              | Infura.BlockNumber _ => true
              | Infura.RpcFailed _ => false
              end, line)).
Proof.
  split.
  - intros Hchain Hin. apply getInfuraNetworkName_mapped in Hin as [name Hname].
    unfold Infura.new, Infura.getHttpUrl. rewrite Hchain, Hname. simpl. eauto.
  - intros svc. unfold Infura.new.
    destruct (String.eqb_spec (chain networkInfo) "ethereum") as [Hchain|Hne];
      [|discriminate]. simpl.
    destruct (Infura.getHttpUrl config networkInfo) as [e|endpoint] eqn:Hurl;
      [discriminate|].
    intros H. inversion H; subst svc. clear H. simpl.
    assert (Hname : exists name, Infura.getInfuraNetworkName networkInfo = inr name).
    { unfold Infura.getHttpUrl in Hurl.
      destruct (Infura.getInfuraNetworkName networkInfo) as [e|name];
        [discriminate|eauto]. }
    split; [exact Hchain|]. split; [now apply getInfuraNetworkName_mapped|].
    do 4 (split; [reflexivity|]).
    destruct Hname as [name Hname]. intros outcome.
    unfold Infura.healthCheck. simpl. rewrite Hname.
    destruct outcome; eauto.
Qed.

Lemma infura_constructed_service_witness :
  let sepolia := {| chain := "ethereum"; network := "sepolia"; chainId := 11155111 |} in
  let svc :=
    {| Infura.config := {| apiKey := "k" |}; Infura.networkInfo := sepolia;
       Infura.providerUrl := "https://sepolia.infura.io/v3/k" |} in
  Infura.new {| apiKey := "k" |} sepolia = inr svc /\
  (exists line, Infura.healthCheck svc (Infura.RpcFailed "timeout") = inr (false, line)).
Proof.
  intros sepolia svc. split; [reflexivity|].
  destruct (infura_constructed_service {| apiKey := "k" |} sepolia) as [_ H].
  destruct (H svc eq_refl) as (_ & _ & _ & _ & _ & _ & Hhealth).
  apply (Hhealth (Infura.RpcFailed "timeout")).
Defined.

(* ===================================================================== *)
(** ** The order in which waiting callers subscribe *)
(* ===================================================================== *)

Lemma subscribe_fields st call sig timeoutMs s :
  ws st = Some s ->
  let st' := subscribe call sig timeoutMs st in
  ws st' = Some s /\
  nextSubscriptionId st' = nextSubscriptionId st + 1 /\
  sent st' = (sent st ++ [(s, nextSubscriptionId st, sig)])%list.
Proof.
  intros Hws. unfold subscribe, setTimeout. cbv beta iota zeta.
  assert (H1 : ws (cancelIdleTimeout st) = Some s)
    by (rewrite ws_cancelIdleTimeout; exact Hws).
  assert (H2 : nextSubscriptionId (cancelIdleTimeout st) = nextSubscriptionId st)
    by (unfold cancelIdleTimeout; now destruct (idleTimeout st)).
  assert (H3 : sent (cancelIdleTimeout st) = sent st)
    by (unfold cancelIdleTimeout; now destruct (idleTimeout st)).
  set (st1 := cancelIdleTimeout st) in *. clearbody st1.
  simpl. rewrite H1. simpl. now rewrite H1, H2, H3.
Qed.

(** Callers that all go on to subscribe do so one after the other, each
    with the next id. *)
Lemma continueAll_cons w connected done st :
  continueAll ((w, connected) :: done) st
  = continueAll done
      (if connected then subscribe (w_call w) (w_signature w) (w_timeoutMs w) st
       else unavailable (w_call w) st).
Proof. reflexivity. Qed.

Lemma continueAll_in_order done st s :
  ws st = Some s ->
  Forall (fun d => snd d = true) done ->
  NoDup ((fun d => w_call (fst d)) <$> done) ->
  let st' := continueAll done st in
  nextSubscriptionId st' = nextSubscriptionId st + Z.of_nat (length done) /\
  sent st'
  = (sent st ++
     imap (fun i d => (s, nextSubscriptionId st + Z.of_nat i, w_signature (fst d)))
          done)%list /\
  forall i d, done !! i = Some d ->
    calls st' !! w_call (fst d)
    = Some (Monitoring (nextSubscriptionId st + Z.of_nat i)).
Proof.
  intros Hws Hall Hnd st'. subst st'. revert st Hws Hall Hnd.
  induction done as [|[w connected] done IH]; intros st Hws Hall Hnd.
  - split; [cbn; lia|]. split; [cbn; now rewrite app_nil_r|]. intros i d H.
    now rewrite lookup_nil in H.
  - apply Forall_cons in Hall as [Hc Hall]. cbn in Hc. subst connected.
    rewrite fmap_cons in Hnd. apply NoDup_cons in Hnd as [Hnot Hnd].
    rewrite continueAll_cons.
    destruct (subscribe_fields st (w_call w) (w_signature w) (w_timeoutMs w) s Hws)
      as (Hws' & Hn' & Hs').
    pose proof (calls_subscribe st (w_call w) (w_signature w) (w_timeoutMs w)
                  (w_call w)) as Hcalls1.
    destruct (decide (w_call w = w_call w)) as [_|Hx]; [|contradiction].
    generalize dependent (subscribe (w_call w) (w_signature w) (w_timeoutMs w) st).
    intros st1 Hws' Hn' Hs' Hcalls1.
    destruct (IH st1 Hws' Hall Hnd) as (Hn & Hs & Hcalls).
    split; [|split].
    + rewrite Hn, Hn'. rewrite length_cons. lia.
    + rewrite Hs, Hs', <- app_assoc, imap_cons. f_equal.
      change ([(s, nextSubscriptionId st, w_signature w)] ++ ?l)%list
        with ((s, nextSubscriptionId st, w_signature w) :: l).
      f_equal.
      * cbn. now rewrite Z.add_0_r.
      * apply imap_ext. intros i d _. cbn. rewrite Hn'. do 2 f_equal. lia.
    + intros [|i] d Hd.
      * assert (Hd' : d = (w, true)) by (cbn in Hd; congruence). subst d.
        cbn [fst]. rewrite calls_continueAll_other by exact Hnot.
        rewrite Hcalls1. now rewrite Z.add_0_r.
      * rewrite (Hcalls i d Hd), Hn'. do 2 f_equal. lia.
Qed.

Section CallOrder.
Variable isApiKeyValid : string -> bool.
Variable config : RPCProviderConfig.
Variable networkInfo : NetworkInfo.
Hypothesis key_valid : isApiKeyValid (apiKey config) = true.

(** A call that has to wait registers nothing yet. *)
Lemma monitorTransaction_waits st sig timeoutMs :
  isWebSocketConnected st = false ->
  let st' := monitorTransaction isApiKeyValid config networkInfo sig timeoutMs st in
  nextSubscriptionId st' = nextSubscriptionId st /\ sent st' = sent st.
Proof.
  intros Hnc. unfold monitorTransaction, getWebSocketUrl.
  rewrite key_valid. simpl.
  replace (isWebSocketConnected _) with false.
  now destruct (connecting _).
Qed.

Lemma joining_run_waiters s st requests :
  joining s st ->
  let st' := run isApiKeyValid config networkInfo st (monitorCalls requests) in
  nextSubscriptionId st' = nextSubscriptionId st /\ sent st' = sent st /\
  w_signature <$> waiters st'
  = ((w_signature <$> waiters st) ++ (fst <$> requests))%list.
Proof.
  revert st. induction requests as [|[sig timeoutMs] requests IH];
    intros st Hj; simpl.
  - now rewrite app_nil_r.
  - destruct (monitorTransaction_joins isApiKeyValid config networkInfo key_valid
                s st sig timeoutMs Hj) as (Hj' & _ & _ & Hw).
    destruct (monitorTransaction_waits st sig timeoutMs
                (joining_not_connected _ _ Hj)) as [Hn Hs].
    destruct (IH _ Hj') as (Hn' & Hs' & Hw').
    unfold monitorCalls in *.
    split; [congruence|]. split; [congruence|].
    rewrite Hw', Hw, fmap_app. simpl. now rewrite <- app_assoc.
Qed.

(** The calls made while the service is not connected: the first opens the
    socket, all wait for it, in the order they were made. *)
Lemma waiting_run st requests :
  attempt_shared st ->
  isWebSocketConnected st = false -> connecting st = None ->
  requests <> [] ->
  let st1 := run isApiKeyValid config networkInfo st (monitorCalls requests) in
  joining (nextSocket st) st1 /\
  nextSubscriptionId st1 = nextSubscriptionId st /\ sent st1 = sent st /\
  w_call <$> waiters st1 = seq (nextCall st) (length requests) /\
  w_signature <$> waiters st1 = fst <$> requests.
Proof.
  intros Hat Hnc Hc Hne.
  destruct requests as [|[sig timeoutMs] requests]; [contradiction|]. clear Hne.
  destruct (monitorTransaction_starts isApiKeyValid config networkInfo key_valid
              st sig timeoutMs Hnc Hc) as (Hj & Hn & Hcall & Hw).
  destruct (monitorTransaction_waits st sig timeoutMs Hnc) as [Hnx0 Hsent0].
  rewrite (at_idle _ Hat Hc) in Hw. simpl in Hw.
  destruct (joining_run isApiKeyValid config networkInfo key_valid _ _ requests Hj)
    as (Hj1 & Hn1 & Hw1 & _).
  destruct (joining_run_waiters _ _ requests Hj) as (Hnx1 & Hsent1 & Hsig1).
  rewrite Hw, Hcall in Hw1. rewrite Hw in Hsig1.
  simpl. split; [exact Hj1|]. split; [congruence|]. split; [congruence|].
  split; [exact Hw1|exact Hsig1].
Qed.

End CallOrder.

(** X22. Callers that waited for the connection subscribe in the order
    they called: when [monitorTransaction] is called n times on a service
    that is not connected and the socket then opens, the i-th call gets
    the i-th id after the counter, the [signatureSubscribe] frames go out
    on the new socket in call order with these ids, and nothing was
    allocated or sent before the socket opened. *)
Theorem waiting_calls_subscribe_in_call_order (isApiKeyValid : string -> bool)
    (config : RPCProviderConfig) (networkInfo : NetworkInfo)
    (st : state) (requests : list (string * Z)) :
  reachable isApiKeyValid config networkInfo st ->
  isApiKeyValid (apiKey config) = true ->
  isWebSocketConnected st = false -> connecting st = None ->
  requests <> [] ->
  let s := nextSocket st in
  let st1 := run isApiKeyValid config networkInfo st (monitorCalls requests) in
  let st2 := step isApiKeyValid config networkInfo st1 (SocketOpen s) in
  (nextSubscriptionId st1 = nextSubscriptionId st /\ sent st1 = sent st) /\
  nextSubscriptionId st2
  = nextSubscriptionId st + Z.of_nat (length requests) /\
  sent st2
  = (sent st ++
     imap (fun i r => (s, nextSubscriptionId st + Z.of_nat i, fst r)) requests)%list /\
  forall i r, requests !! i = Some r ->
    calls st2 !! (nextCall st + i)%nat
    = Some (Monitoring (nextSubscriptionId st + Z.of_nat i)).
Proof.
  intros Hreach Hvalid Hnc Hc Hne s st1 st2.
  pose proof (reachable_attempt_shared _ _ _ _ Hreach) as Hat.
  pose proof (reachable_run _ _ _ _ (monitorCalls requests) Hreach) as Hreach1.
  fold st1 in Hreach1.
  pose proof (reachable_attempt_shared _ _ _ _ Hreach1) as Hat1.
  destruct (waiting_run isApiKeyValid config networkInfo Hvalid st requests
              Hat Hnc Hc Hne) as (Hj1 & Hnx1 & Hsent1 & Hcs & Hsig).
  fold st1 in Hj1, Hnx1, Hsent1, Hcs, Hsig. fold s in Hj1.
  clearbody st1. clear Hne.
  split; [now split|].
  destruct Hj1 as (Hws1 & Hc1 & Hs1).
  destruct (at_waiters _ Hat1 s Hc1) as ((sk & Hsk & Hun) & _).
  subst st2. unfold step. rewrite Hs1.
  set (sto := log LogConnected (setReadyState s OPEN st1)).
  assert (Hsame : same_attempt st1 sto).
  { eapply same_attempt_trans;
      [apply (same_attempt_readyState st1 s OPEN)|apply same_attempt_log]. }
  assert (Hsko : sockets sto !! s
                 = Some {| readyState := OPEN; url := url sk;
                           connectSettled := connectSettled sk |}).
  { subst sto. unfold setReadyState. rewrite Hsk. simpl. apply lookup_insert_eq. }
  assert (Hato : attempt_shared sto).
  { eapply same_attempt_shared; [exact Hat1|exact Hsame]. }
  assert (Hwo : waiters sto = waiters st1) by apply (sa_waiters _ _ Hsame).
  assert (Hwso : ws sto = Some s).
  { subst sto. unfold setReadyState. now rewrite Hsk. }
  assert (Hnxo : nextSubscriptionId sto = nextSubscriptionId st).
  { subst sto. unfold setReadyState. now rewrite Hsk. }
  assert (Hsento : sent sto = sent st).
  { subst sto. unfold setReadyState. now rewrite Hsk. }
  rewrite (settleConnect_resumes sto s _ true Hato Hsko Hun).
  match goal with
  | |- context [continueAll ?d ?x] => set (done := d) in *; set (st3 := x) in *
  end.
  assert (Hdone : Forall (fun d => snd d = true) done).
  { subst done. apply Forall_fmap, Forall_true. intros w. simpl.
    destruct (w_initiator w); [reflexivity|].
    unfold isWebSocketConnected.
    cbn [ws sockets with_waiters with_sockets].
    rewrite Hwso, lookup_insert_eq. reflexivity. }
  assert (Hcallsd : (fun d => w_call (fst d)) <$> done
                    = seq (nextCall st) (length requests)).
  { subst done. rewrite <- list_fmap_compose.
    change (w_call <$> waiters sto = seq (nextCall st) (length requests)).
    now rewrite Hwo, Hcs. }
  assert (Hsigd : (fun d => w_signature (fst d)) <$> done = fst <$> requests).
  { subst done. rewrite <- list_fmap_compose.
    change (w_signature <$> waiters sto = fst <$> requests).
    now rewrite Hwo, Hsig. }
  assert (Hlen : length done = length requests).
  { rewrite <- (length_fmap (fun d => w_call (fst d))), Hcallsd. apply length_seq. }
  destruct (continueAll_in_order done st3 s Hwso Hdone) as (Hnx & Hsent & Hcalls).
  { rewrite Hcallsd. apply NoDup_seq. }
  change (nextSubscriptionId st3) with (nextSubscriptionId sto) in Hnx, Hsent, Hcalls.
  change (sent st3) with (sent sto) in Hsent.
  rewrite Hnxo in Hnx, Hsent, Hcalls. rewrite Hsento in Hsent.
  split; [now rewrite Hnx, Hlen|]. split.
  - rewrite Hsent. f_equal. apply list_eq. intros i.
    rewrite !list_lookup_imap.
    pose proof (f_equal (fun l => l !! i) Hsigd) as Hi. simpl in Hi.
    rewrite !list_lookup_fmap in Hi.
    destruct (done !! i) as [d|], (requests !! i) as [r|];
      simpl in Hi |- *; try discriminate; [|reflexivity].
    now inversion Hi.
  - intros i r Hr.
    assert (Hlt : (i < length requests)%nat) by now apply lookup_lt_Some in Hr.
    destruct (lookup_lt_is_Some_2 done i) as [d Hd]; [lia|].
    pose proof (f_equal (fun l => l !! i) Hcallsd) as Hi. simpl in Hi.
    rewrite list_lookup_fmap, Hd, lookup_seq_lt in Hi by exact Hlt.
    simpl in Hi.
    assert (Hci : w_call (fst d) = (nextCall st + i)%nat) by congruence.
    rewrite <- Hci. now apply Hcalls.
Qed.

Lemma waiting_calls_subscribe_in_call_order_witness :
  let requests := [("sigA", 30000); ("sigB", 30000); ("sigC", 1000)] in
  let st1 := testRun initial (monitorCalls requests) in
  let st2 := step nonEmptyKey testConfig mainnetBeta st1 (SocketOpen 0%nat) in
  sent st2 = [(0%nat, 1, "sigA"); (0%nat, 2, "sigB"); (0%nat, 3, "sigC")] /\
  calls st2 !! 2%nat = Some (Monitoring 3).
Proof.
  intros requests st1 st2.
  destruct (waiting_calls_subscribe_in_call_order nonEmptyKey testConfig mainnetBeta
              initial requests (reachable_initial _ _ _) eq_refl eq_refl eq_refl)
    as (_ & _ & Hsent & Hcalls); [discriminate|].
  split.
  - etransitivity; [exact Hsent|reflexivity].
  - exact (Hcalls 2%nat ("sigC", 1000) eq_refl).
Defined.

(* ===================================================================== *)
(** ** No caller waits without an attempt in flight *)
(* ===================================================================== *)

Lemma keeps_callers_refl st : keeps_callers st st.
Proof. now split. Qed.

Lemma keeps_callers_trans st1 st2 st3 :
  keeps_callers st1 st2 -> keeps_callers st2 st3 -> keeps_callers st1 st3.
Proof. intros [c1 w1 n1] [c2 w2 n2]. split; congruence. Qed.

Lemma keeps_callers_wait st st' :
  keeps_callers st st' -> callers_wait st -> callers_wait st'.
Proof. intros [Hc Hw Hn] [H1 H2]. split; rewrite ?Hc, ?Hw, ?Hn; assumption. Qed.

Ltac same_callers := split; reflexivity.

Lemma keeps_callers_clearTimeout st h : keeps_callers st (clearTimeout h st).
Proof. same_callers. Qed.

Lemma keeps_callers_settle st id outcome : keeps_callers st (settle id outcome st).
Proof. same_callers. Qed.

Lemma keeps_callers_cancelIdleTimeout st : keeps_callers st (cancelIdleTimeout st).
Proof.
  unfold cancelIdleTimeout. destruct (idleTimeout st); [same_callers|apply keeps_callers_refl].
Qed.

Lemma keeps_callers_scheduleIdleDisconnect st :
  keeps_callers st (scheduleIdleDisconnect st).
Proof.
  unfold scheduleIdleDisconnect. destruct (0 <? _); [apply keeps_callers_refl|].
  eapply keeps_callers_trans; [apply keeps_callers_cancelIdleTimeout|]. same_callers.
Qed.

Lemma keeps_callers_subscriptions st x : keeps_callers st (with_subscriptions x st).
Proof. same_callers. Qed.

Lemma keeps_callers_cleanup st id outcome :
  keeps_callers st
    (settle id outcome
       (scheduleIdleDisconnect
          (with_subscriptions (map_delete id (subscriptions st)) st))).
Proof.
  eapply keeps_callers_trans; [apply (keeps_callers_subscriptions st)|].
  eapply keeps_callers_trans; [apply keeps_callers_scheduleIdleDisconnect|].
  apply keeps_callers_settle.
Qed.

Lemma keeps_callers_closeSocket st s : keeps_callers st (closeSocket s st).
Proof. unfold closeSocket. destruct (sockets st !! s); same_callers. Qed.

Lemma keeps_callers_setReadyState st s r : keeps_callers st (setReadyState s r st).
Proof. unfold setReadyState. destruct (sockets st !! s); same_callers. Qed.

Lemma keeps_callers_with_ws st x : keeps_callers st (with_ws x st).
Proof. same_callers. Qed.

Lemma keeps_callers_log st entry : keeps_callers st (log entry st).
Proof. same_callers. Qed.

Lemma keeps_callers_fire st h : keeps_callers st (fire h st).
Proof.
  unfold fire. destruct (timers st !! h) as [t|]; [|apply keeps_callers_refl].
  eapply keeps_callers_trans; [apply (keeps_callers_clearTimeout st h)|].
  destruct (callback t).
  - apply keeps_callers_cleanup.
  - unfold onIdleTimeout.
    match goal with |- context [ws ?x] => destruct (ws x) as [s|] end;
      [|apply keeps_callers_refl].
    destruct (_ =? 0); [|apply keeps_callers_refl].
    eapply keeps_callers_trans; [apply keeps_callers_log|].
    eapply keeps_callers_trans;
      [apply keeps_callers_closeSocket|apply keeps_callers_with_ws].
Qed.

Lemma keeps_callers_rejectEach reason todo st :
  keeps_callers st (rejectEach reason todo st).
Proof.
  revert st. induction todo as [|[key sub] todo IH]; intros st; simpl.
  - apply keeps_callers_refl.
  - destruct (map_has key (subscriptions st)); [|apply IH].
    eapply keeps_callers_trans; [|apply IH].
    eapply keeps_callers_trans; [apply (keeps_callers_clearTimeout st (timeout sub))|].
    apply keeps_callers_cleanup.
Qed.

Lemma keeps_callers_handleWebSocketClose st :
  keeps_callers st (handleWebSocketClose st).
Proof.
  unfold handleWebSocketClose.
  eapply keeps_callers_trans; [apply keeps_callers_rejectEach|].
  eapply keeps_callers_trans; [apply keeps_callers_subscriptions|].
  apply keeps_callers_cancelIdleTimeout.
Qed.

Lemma keeps_callers_disconnect st : keeps_callers st (disconnect st).
Proof.
  unfold disconnect.
  eapply keeps_callers_trans; [apply keeps_callers_cancelIdleTimeout|].
  eapply keeps_callers_trans; [apply keeps_callers_rejectEach|].
  eapply keeps_callers_trans; [apply keeps_callers_subscriptions|].
  match goal with |- context [ws ?x] => destruct (ws x) as [s|] end;
    [|apply keeps_callers_refl].
  eapply keeps_callers_trans; [apply keeps_callers_closeSocket|].
  eapply keeps_callers_trans; [apply keeps_callers_with_ws|apply keeps_callers_log].
Qed.

Lemma keeps_callers_handleWebSocketMessage st m :
  keeps_callers st (handleWebSocketMessage m st).
Proof.
  unfold handleWebSocketMessage.
  destruct (asNotification m) as [p|].
  - destruct (map_get _ _) as [sub|]; [|apply keeps_callers_refl].
    eapply keeps_callers_trans; [apply (keeps_callers_clearTimeout st (timeout sub))|].
    eapply keeps_callers_trans; [apply keeps_callers_subscriptions|].
    destruct (reportsError _); apply keeps_callers_cleanup.
  - destruct (msg_result m) as [serverId|], (msg_id m) as [localId|].
    + eapply keeps_callers_trans; [apply keeps_callers_log|].
      destruct (map_get _ _);
        [apply keeps_callers_subscriptions|apply keeps_callers_refl].
    + destruct (msg_error m) as [e|]; [|apply keeps_callers_refl].
      destruct (isInvalidSubscription e);
        apply keeps_callers_refl || apply keeps_callers_log.
    + destruct (msg_error m) as [e|]; [|apply keeps_callers_refl].
      destruct (isInvalidSubscription e); [apply keeps_callers_refl|].
      eapply keeps_callers_trans; [apply keeps_callers_log|].
      destruct (map_get _ _) as [sub|]; [|apply keeps_callers_refl].
      eapply keeps_callers_trans; [apply (keeps_callers_clearTimeout _ (timeout sub))|].
      eapply keeps_callers_trans; [apply keeps_callers_subscriptions|].
      apply keeps_callers_cleanup.
    + destruct (msg_error m) as [e|]; [|apply keeps_callers_refl].
      destruct (isInvalidSubscription e);
        apply keeps_callers_refl || apply keeps_callers_log.
Qed.

Lemma keeps_callers_resumeAll ok l st : keeps_callers st (resumeAll ok l st).2.
Proof.
  revert st. induction l as [|w l IH]; intros st; simpl; [apply keeps_callers_refl|].
  destruct (resumeEnsure ok w st) as [connected st1] eqn:E1.
  destruct (resumeAll ok l st1) as [done st2] eqn:E2. simpl.
  assert (H1 : keeps_callers st st1).
  { unfold resumeEnsure in E1. destruct (w_initiator w); inversion E1; subst.
    - match goal with |- context [if ?b then _ else _] => destruct b end;
        same_callers.
    - apply keeps_callers_refl. }
  eapply keeps_callers_trans; [exact H1|].
  specialize (IH st1). now rewrite E2 in IH.
Qed.

(** A call that goes on, to subscribe or to throw, is suspended no more. *)
Lemma calls_answer st call (connected : bool) sig timeoutMs c :
  let st' := if connected then subscribe call sig timeoutMs st
             else unavailable call st in
  waiters st' = waiters st /\ nextCall st' = nextCall st /\
  (calls st' !! c = Some Suspended -> c <> call /\ calls st !! c = Some Suspended).
Proof.
  destruct connected; cbv zeta.
  - pose proof (calls_subscribe st call sig timeoutMs c) as Hc.
    pose proof (sa_waiters _ _ (same_attempt_subscribe st call sig timeoutMs)) as Hw.
    pose proof (al_nextCall _ _ (allocates_subscribe st call sig timeoutMs)) as Hn.
    split; [exact Hw|]. split; [exact Hn|]. rewrite Hc.
    destruct (decide (call = c)); [discriminate|auto].
  - simpl. split; [reflexivity|]. split; [reflexivity|].
    destruct (decide (call = c)) as [->|Hne].
    + rewrite lookup_insert_eq. discriminate.
    + rewrite lookup_insert_ne by exact Hne. auto.
Qed.

Lemma callers_wait_continueAll done st :
  (forall c, calls st !! c = Some Suspended ->
     c ∈ w_call <$> waiters st \/ c ∈ (fun d => w_call (fst d)) <$> done) ->
  Forall (fun w => (w_call w < nextCall st)%nat) (waiters st) ->
  callers_wait (continueAll done st).
Proof.
  revert st. induction done as [|[w connected] done IH]; intros st Hs Hw.
  - split; [|exact Hw]. intros c Hc. destruct (Hs c Hc) as [H|H]; [exact H|].
    now apply elem_of_nil in H.
  - rewrite continueAll_cons.
    pose proof (fun c => calls_answer st (w_call w) connected (w_signature w)
                           (w_timeoutMs w) c) as Ha.
    cbv zeta in Ha.
    generalize dependent (if connected
                          then subscribe (w_call w) (w_signature w) (w_timeoutMs w) st
                          else unavailable (w_call w) st).
    intros st1 Ha. apply IH.
    + intros c Hc. destruct (Ha c) as (Hw1 & _ & Hc1). rewrite Hw1.
      destruct (Hc1 Hc) as [Hne Hc0].
      destruct (Hs c Hc0) as [H|H]; [now left|right].
      rewrite fmap_cons in H. apply elem_of_cons in H as [H|H]; [|exact H].
      simpl in H. contradiction.
    + destruct (Ha 0%nat) as (Hw1 & Hn1 & _). now rewrite Hw1, Hn1.
Qed.

Lemma callers_wait_settleConnect st s ok :
  callers_wait st -> callers_wait (settleConnect s ok st).
Proof.
  intros [Hs Hw]. unfold settleConnect.
  destruct (sockets st !! s) as [sk|]; [|now split].
  destruct (connectSettled sk); [now split|]. cbv zeta.
  cbn [waiters with_sockets].
  set (woken := filter (fun w => awaits s w = true) (waiters st)).
  set (kept := filter (fun w => awaits s w = false) (waiters st)).
  match goal with
  | |- context [resumeAll ok woken ?x] =>
      pose proof (keeps_callers_resumeAll ok woken x) as [Hc3 Hw3 Hn3];
      pose proof (resumeAll_answers ok woken x) as Hans;
      destruct (resumeAll ok woken x) as [done st3]
  end.
  simpl in Hc3, Hw3, Hn3, Hans. apply callers_wait_continueAll.
  - intros c Hc. rewrite Hc3 in Hc. rewrite Hw3.
    specialize (Hs c Hc). apply list_elem_of_fmap in Hs as (w & -> & Hin).
    destruct (awaits s w) eqn:E.
    + right. rewrite Hans, <- list_fmap_compose. apply list_elem_of_fmap.
      exists w. split; [reflexivity|]. subst woken. apply list_elem_of_filter. auto.
    + left. apply list_elem_of_fmap. exists w. split; [reflexivity|].
      subst kept. apply list_elem_of_filter. auto.
  - rewrite Hw3, Hn3. simpl. subst kept. rewrite Forall_forall in Hw |- *.
    intros w [_ Hin]%list_elem_of_filter. now apply Hw.
Qed.

Section Callers.
Variable isApiKeyValid : string -> bool.
Variable config : RPCProviderConfig.
Variable networkInfo : NetworkInfo.

Lemma callers_wait_monitorTransaction st sig timeoutMs :
  callers_wait st ->
  callers_wait (monitorTransaction isApiKeyValid config networkInfo sig timeoutMs st).
Proof.
  intros [Hs Hw]. unfold monitorTransaction. cbv zeta.
  set (call := nextCall st).
  set (st0 := with_calls (<[call := Suspended]> (calls st)) (S call) st).
  assert (Hs0 : forall c, calls st0 !! c = Some Suspended ->
                  c ∈ w_call <$> waiters st0 \/ c = call).
  { intros c Hc. simpl in Hc. destruct (decide (call = c)) as [->|Hne]; [now right|].
    rewrite lookup_insert_ne in Hc by exact Hne. left. now apply Hs. }
  assert (Hw0 : Forall (fun w => (w_call w < nextCall st0)%nat) (waiters st0)).
  { simpl. eapply Forall_impl; [exact Hw|]. simpl. subst call. intros; lia. }
  assert (Hone : forall connected : bool,
            callers_wait (if connected then subscribe call sig timeoutMs st0
                          else unavailable call st0)).
  { intros connected.
    apply (callers_wait_continueAll
             [({| w_call := call; w_attempt := 0%nat; w_initiator := false;
                  w_signature := sig; w_timeoutMs := timeoutMs |}, connected)] st0);
      [|exact Hw0].
    intros c Hc. destruct (Hs0 c Hc) as [H| ->]; [now left|right].
    simpl. apply elem_of_cons. now left. }
  destruct (negb _); [apply (Hone false)|].
  destruct (isWebSocketConnected st0); [apply (Hone true)|].
  assert (Hwait : forall attempt initiator (stx : state),
            calls stx = calls st0 -> waiters stx = waiters st0 ->
            nextCall stx = nextCall st0 ->
            callers_wait
              (with_waiters
                 (waiters stx ++
                    [{| w_call := call; w_attempt := attempt;
                        w_initiator := initiator; w_signature := sig;
                        w_timeoutMs := timeoutMs |}]) stx)).
  { intros attempt initiator stx Hcx Hwx Hnx. split; simpl.
    - intros c Hc. rewrite Hcx in Hc. rewrite Hwx, fmap_app. apply elem_of_app.
      destruct (Hs0 c Hc) as [H| ->]; [now left|right].
      simpl. apply elem_of_cons. now left.
    - rewrite Hwx, Hnx. apply Forall_app. split; [exact Hw0|].
      constructor; [simpl; subst call; lia|constructor]. }
  destruct (connecting st0) as [attempt|].
  - now apply Hwait.
  - destruct (getWebSocketUrl _ _ _) as [wsUrl|]; [|apply (Hone false)].
    now apply Hwait.
Qed.

Lemma callers_wait_step st e :
  callers_wait st -> callers_wait (step isApiKeyValid config networkInfo st e).
Proof.
  intros H. destruct e as [sig ms| |h|s|s data|s|s|s]; simpl.
  - now apply callers_wait_monitorTransaction.
  - apply (keeps_callers_wait st); [apply keeps_callers_disconnect|exact H].
  - apply (keeps_callers_wait st); [apply keeps_callers_fire|exact H].
  - destruct (isConnecting s st); [|exact H]. apply callers_wait_settleConnect.
    apply (keeps_callers_wait st); [|exact H].
    eapply keeps_callers_trans; [apply keeps_callers_setReadyState|apply keeps_callers_log].
  - destruct (isAlive s st); [|exact H].
    destruct data; (apply (keeps_callers_wait st); [|exact H]);
      [apply keeps_callers_log|apply keeps_callers_handleWebSocketMessage].
  - destruct (isAlive s st); [|exact H]. apply callers_wait_settleConnect.
    apply (keeps_callers_wait st); [|exact H].
    eapply keeps_callers_trans; [apply keeps_callers_setReadyState|apply keeps_callers_log].
  - destruct (isAlive s st); [|exact H].
    apply (keeps_callers_wait st); [|exact H].
    eapply keeps_callers_trans; [apply keeps_callers_setReadyState|].
    eapply keeps_callers_trans; [apply keeps_callers_log|].
    eapply keeps_callers_trans; [apply keeps_callers_with_ws|].
    apply keeps_callers_handleWebSocketClose.
  - destruct (isAlive s st); [|exact H]. apply callers_wait_settleConnect.
    apply (keeps_callers_wait st); [|exact H].
    eapply keeps_callers_trans; [apply (keeps_callers_setReadyState st s CLOSING)|].
    eapply keeps_callers_trans; [apply keeps_callers_log|].
    eapply keeps_callers_trans; [apply (keeps_callers_setReadyState _ s CLOSED)|].
    eapply keeps_callers_trans; [apply keeps_callers_log|].
    eapply keeps_callers_trans; [apply keeps_callers_with_ws|].
    apply keeps_callers_handleWebSocketClose.
Qed.

Lemma reachable_callers_wait st :
  reachable isApiKeyValid config networkInfo st -> callers_wait st.
Proof.
  induction 1 as [|st e _ IH]; [|now apply callers_wait_step].
  split; [|constructor]. intros c Hc. simpl in Hc. now rewrite lookup_empty in Hc.
Qed.

End Callers.

(** X23. A caller is suspended only while a connection attempt is in
    flight: in every reachable state a [monitorTransaction] call that has
    neither returned its promise nor thrown is waiting for the attempt
    [connecting] holds, whose socket has neither opened nor failed yet;
    when no attempt is in flight, no call is suspended. *)
Theorem suspended_call_awaits_attempt (isApiKeyValid : string -> bool)
    (config : RPCProviderConfig) (networkInfo : NetworkInfo)
    (st : state) (c : nat) :
  reachable isApiKeyValid config networkInfo st ->
  calls st !! c = Some Suspended ->
  exists s sk w,
    connecting st = Some s /\
    sockets st !! s = Some sk /\ connectSettled sk = false /\
    w ∈ waiters st /\ w_call w = c /\ w_attempt w = s.
Proof.
  intros Hreach Hc.
  pose proof (reachable_attempt_shared _ _ _ _ Hreach) as Hat.
  pose proof (cw_suspended _ (reachable_callers_wait _ _ _ _ Hreach) c Hc) as Hin.
  apply list_elem_of_fmap in Hin as (w & -> & Hw).
  destruct (connecting st) as [s|] eqn:E.
  - destruct (at_waiters _ Hat s E) as ((sk & Hsk & Hun) & Hall & _).
    rewrite Forall_forall in Hall.
    exists s, sk, w. auto 10.
  - rewrite (at_idle _ Hat E) in Hw. now apply elem_of_nil in Hw.
Qed.

Lemma suspended_call_awaits_attempt_witness :
  let st := testRun initial [CallMonitor "sigA" 30000; CallMonitor "sigB" 30000] in
  calls st !! 1%nat = Some Suspended /\
  exists s sk w,
    connecting st = Some s /\
    sockets st !! s = Some sk /\ connectSettled sk = false /\
    w ∈ waiters st /\ w_call w = 1%nat /\ w_attempt w = s.
Proof.
  intros st. split; [reflexivity|].
  apply (suspended_call_awaits_attempt nonEmptyKey testConfig mainnetBeta st 1%nat).
  - apply reachable_run. constructor.
  - reflexivity.
Defined.

(* ===================================================================== *)
(** ** Connected, or connecting, never both *)
(* ===================================================================== *)

Lemma same_connection_refl st : same_connection st st.
Proof. now split. Qed.

Lemma same_connection_trans st1 st2 st3 :
  same_connection st1 st2 -> same_connection st2 st3 -> same_connection st1 st3.
Proof. intros [a1 b1 c1] [a2 b2 c2]. split; congruence. Qed.

Lemma same_connection_pending st st' :
  same_connection st st' -> attempt_pending st -> attempt_pending st'.
Proof.
  intros [Hs Hw Hc] [H1 H2 H3]. split; rewrite ?Hs, ?Hw, ?Hc; assumption.
Qed.

Ltac same_sockets := split; reflexivity.

Lemma same_connection_clearTimeout st h : same_connection st (clearTimeout h st).
Proof. same_sockets. Qed.

Lemma same_connection_settle st id outcome :
  same_connection st (settle id outcome st).
Proof. same_sockets. Qed.

Lemma same_connection_cancelIdleTimeout st :
  same_connection st (cancelIdleTimeout st).
Proof.
  unfold cancelIdleTimeout.
  destruct (idleTimeout st); [same_sockets|apply same_connection_refl].
Qed.

Lemma same_connection_scheduleIdleDisconnect st :
  same_connection st (scheduleIdleDisconnect st).
Proof.
  unfold scheduleIdleDisconnect. destruct (0 <? _); [apply same_connection_refl|].
  eapply same_connection_trans; [apply same_connection_cancelIdleTimeout|].
  same_sockets.
Qed.

Lemma same_connection_subscriptions st x :
  same_connection st (with_subscriptions x st).
Proof. same_sockets. Qed.

Lemma same_connection_cleanup st id outcome :
  same_connection st
    (settle id outcome
       (scheduleIdleDisconnect
          (with_subscriptions (map_delete id (subscriptions st)) st))).
Proof.
  eapply same_connection_trans; [apply (same_connection_subscriptions st)|].
  eapply same_connection_trans; [apply same_connection_scheduleIdleDisconnect|].
  apply same_connection_settle.
Qed.

Lemma same_connection_log st entry : same_connection st (log entry st).
Proof. same_sockets. Qed.

Lemma same_connection_rejectEach reason todo st :
  same_connection st (rejectEach reason todo st).
Proof.
  revert st. induction todo as [|[key sub] todo IH]; intros st; simpl.
  - apply same_connection_refl.
  - destruct (map_has key (subscriptions st)); [|apply IH].
    eapply same_connection_trans; [|apply IH].
    eapply same_connection_trans;
      [apply (same_connection_clearTimeout st (timeout sub))|].
    apply same_connection_cleanup.
Qed.

Lemma same_connection_handleWebSocketClose st :
  same_connection st (handleWebSocketClose st).
Proof.
  unfold handleWebSocketClose.
  eapply same_connection_trans; [apply same_connection_rejectEach|].
  eapply same_connection_trans; [apply same_connection_subscriptions|].
  apply same_connection_cancelIdleTimeout.
Qed.

Lemma same_connection_handleWebSocketMessage st m :
  same_connection st (handleWebSocketMessage m st).
Proof.
  unfold handleWebSocketMessage.
  destruct (asNotification m) as [p|].
  - destruct (map_get _ _) as [sub|]; [|apply same_connection_refl].
    eapply same_connection_trans;
      [apply (same_connection_clearTimeout st (timeout sub))|].
    eapply same_connection_trans; [apply same_connection_subscriptions|].
    destruct (reportsError _); apply same_connection_cleanup.
  - destruct (msg_result m) as [serverId|], (msg_id m) as [localId|].
    + eapply same_connection_trans; [apply same_connection_log|].
      destruct (map_get _ _);
        [apply same_connection_subscriptions|apply same_connection_refl].
    + destruct (msg_error m) as [e|]; [|apply same_connection_refl].
      destruct (isInvalidSubscription e);
        apply same_connection_refl || apply same_connection_log.
    + destruct (msg_error m) as [e|]; [|apply same_connection_refl].
      destruct (isInvalidSubscription e); [apply same_connection_refl|].
      eapply same_connection_trans; [apply same_connection_log|].
      destruct (map_get _ _) as [sub|]; [|apply same_connection_refl].
      eapply same_connection_trans;
        [apply (same_connection_clearTimeout _ (timeout sub))|].
      eapply same_connection_trans; [apply same_connection_subscriptions|].
      apply same_connection_cleanup.
    + destruct (msg_error m) as [e|]; [|apply same_connection_refl].
      destruct (isInvalidSubscription e);
        apply same_connection_refl || apply same_connection_log.
Qed.

Lemma same_connection_subscribe st call sig timeoutMs :
  same_connection st (subscribe call sig timeoutMs st).
Proof.
  pose proof (same_connection_cancelIdleTimeout st) as H0.
  unfold subscribe, setTimeout. cbv beta iota zeta.
  set (st1 := cancelIdleTimeout st) in *.
  eapply same_connection_trans; [exact H0|]. clearbody st1. clear H0.
  match goal with |- context [ws ?x] => destruct (ws x) as [s|] end; same_sockets.
Qed.

Lemma same_connection_continueAll done st :
  same_connection st (continueAll done st).
Proof.
  revert st. induction done as [|[w connected] done IH]; intros st.
  - apply same_connection_refl.
  - rewrite continueAll_cons. eapply same_connection_trans; [|apply IH].
    destruct connected; [apply same_connection_subscribe|same_sockets].
Qed.

(** Changing a socket to a state other than open and connecting, and
    forgetting [this.ws]. *)
Lemma pending_leaves st s r :
  r = CLOSING \/ r = CLOSED ->
  attempt_pending st -> attempt_pending (setReadyState s r st).
Proof.
  intros Hr [H1 H2 H3]. unfold setReadyState.
  destruct (sockets st !! s) as [sk|] eqn:E; [|now split].
  split; simpl; [| |exact H3]; intros s0 sk0 Hs0 Hst;
    (destruct (decide (s = s0)) as [<-|Hne];
     [rewrite lookup_insert_eq in Hs0; inversion Hs0; subst sk0; simpl in Hst;
      destruct Hr; congruence
     |rewrite lookup_insert_ne in Hs0 by exact Hne; eauto]).
Qed.

Lemma pending_closeSocket st s :
  attempt_pending st -> attempt_pending (closeSocket s st).
Proof. apply (pending_leaves st s CLOSING). now left. Qed.

Lemma pending_forget st : attempt_pending st -> attempt_pending (with_ws None st).
Proof. intros [H1 H2 H3]. split; [exact H1|exact H2|]. simpl. discriminate. Qed.

Lemma pending_fire st h : attempt_pending st -> attempt_pending (fire h st).
Proof.
  intros H. unfold fire. destruct (timers st !! h) as [t|]; [|exact H].
  assert (H' : attempt_pending (clearTimeout h st))
    by (eapply same_connection_pending; [apply same_connection_clearTimeout|exact H]).
  destruct (callback t).
  - eapply same_connection_pending; [apply same_connection_cleanup|exact H'].
  - unfold onIdleTimeout.
    match goal with |- context [ws ?x] => destruct (ws x) as [s|] end;
      [|exact H'].
    destruct (_ =? 0); [|exact H'].
    apply pending_forget, pending_closeSocket.
    eapply same_connection_pending; [apply same_connection_log|exact H'].
Qed.

Lemma pending_disconnect st : attempt_pending st -> attempt_pending (disconnect st).
Proof.
  intros H. unfold disconnect. cbv zeta.
  set (st3 := with_subscriptions [] _).
  assert (H3 : attempt_pending st3).
  { eapply same_connection_pending; [|exact H]. subst st3.
    eapply same_connection_trans; [apply same_connection_cancelIdleTimeout|].
    eapply same_connection_trans; [apply same_connection_rejectEach|].
    apply same_connection_subscriptions. }
  clearbody st3. destruct (ws st3) as [s|]; [|exact H3].
  eapply same_connection_pending; [apply same_connection_log|].
  apply pending_forget, pending_closeSocket, H3.
Qed.

(** Settling the attempt: the socket has left the connecting state just
    before, and [connecting] is cleared. *)
Lemma pending_settled st s sk r ok :
  attempt_shared st -> attempt_pending st ->
  sockets st !! s = Some sk -> readyState sk <> CLOSED ->
  (r = OPEN -> readyState sk = CONNECTING) -> r <> CONNECTING ->
  attempt_pending
    (settleConnect s ok
       (log (if ok then LogConnected else LogSocketError) (setReadyState s r st))).
Proof.
  intros Hat Hap Hsk Hlive Hopen Hr.
  set (ste := log _ (setReadyState s r st)).
  assert (Hske : sockets ste !! s
                 = Some {| readyState := r; url := url sk;
                           connectSettled := connectSettled sk |}).
  { subst ste. unfold setReadyState. rewrite Hsk. simpl. apply lookup_insert_eq. }
  assert (Hothers : forall s0, s0 <> s -> sockets ste !! s0 = sockets st !! s0).
  { intros s0 Hne. subst ste. unfold setReadyState. rewrite Hsk. simpl.
    now rewrite lookup_insert_ne. }
  assert (Hwse : ws ste = ws st).
  { subst ste. unfold setReadyState. now rewrite Hsk. }
  assert (Hce : connecting ste = connecting st).
  { subst ste. unfold setReadyState. now rewrite Hsk. }
  assert (Hsame : same_attempt st ste).
  { eapply same_attempt_trans;
      [apply (same_attempt_readyState st s r)|apply same_attempt_log]. }
  assert (Hate : attempt_shared ste).
  { eapply same_attempt_shared; [exact Hat|exact Hsame]. }
  destruct Hap as [H1 H2 H3].
  destruct (connectSettled sk) eqn:Hset.
  - (* the promise was settled before: nothing is resumed *)
    assert (Hro : r <> OPEN).
    { intros ->. specialize (Hopen eq_refl). specialize (H1 _ _ Hsk Hopen).
      congruence. }
    unfold settleConnect. rewrite Hske. simpl.
    split; [| |rewrite Hwse, Hce; exact H3]; intros s0 sk0 Hs0 Hst;
      (destruct (decide (s0 = s)) as [->|Hne];
       [rewrite Hske in Hs0; inversion Hs0; subst sk0; simpl in *; congruence
       |rewrite Hothers in Hs0 by exact Hne; eauto]).
  - rewrite (settleConnect_resumes ste s _ ok Hate Hske eq_refl).
    eapply same_connection_pending; [apply same_connection_continueAll|].
    split; simpl.
    + intros s0 sk0 Hs0 Hst.
      assert (Hs0' : <[s := {| readyState := r; url := url sk; connectSettled := true |}]>
                       (sockets ste) !! s0 = Some sk0) by (destruct ok; exact Hs0).
      destruct (decide (s = s0)) as [<-|Hne].
      * rewrite lookup_insert_eq in Hs0'. inversion Hs0'; subst sk0.
        simpl in Hst. congruence.
      * rewrite lookup_insert_ne in Hs0' by exact Hne.
        rewrite Hothers in Hs0' by auto. eauto.
    + intros s0 sk0 Hs0 Hst.
      assert (Hs0' : <[s := {| readyState := r; url := url sk; connectSettled := true |}]>
                       (sockets ste) !! s0 = Some sk0) by (destruct ok; exact Hs0).
      destruct (decide (s = s0)) as [<-|Hne].
      * rewrite lookup_insert_eq in Hs0'. now inversion Hs0'.
      * rewrite lookup_insert_ne in Hs0' by exact Hne.
        rewrite Hothers in Hs0' by auto. eauto.
    + intros s0 s' Hc. exfalso. destruct ok; discriminate Hc.
Qed.

Lemma sockets_setReadyState_eq st s r sk :
  sockets (setReadyState s r st) !! s = Some sk -> readyState sk = r.
Proof.
  unfold setReadyState. destruct (sockets st !! s) as [sk0|] eqn:E; simpl.
  - rewrite lookup_insert_eq. now intros [= <-].
  - rewrite E. discriminate.
Qed.

(** Settling an attempt whose socket is no longer connecting. *)
Lemma pending_settleConnect st s ok :
  attempt_shared st -> attempt_pending st ->
  (forall sk, sockets st !! s = Some sk -> readyState sk <> CONNECTING) ->
  attempt_pending (settleConnect s ok st).
Proof.
  intros Hat Hap Hr.
  destruct (sockets st !! s) as [sk|] eqn:Hsk.
  2:{ unfold settleConnect. now rewrite Hsk. }
  specialize (Hr sk eq_refl).
  destruct (connectSettled sk) eqn:Hset.
  { unfold settleConnect. now rewrite Hsk, Hset. }
  rewrite (settleConnect_resumes st s sk ok Hat Hsk Hset).
  eapply same_connection_pending; [apply same_connection_continueAll|].
  destruct Hap as [H1 H2 H3].
  split; simpl.
  - intros s0 sk0 Hs0 Hst.
    assert (Hs0' : <[s := {| readyState := readyState sk; url := url sk;
                             connectSettled := true |}]>
                     (sockets st) !! s0 = Some sk0) by (destruct ok; exact Hs0).
    destruct (decide (s = s0)) as [<-|Hne].
    + rewrite lookup_insert_eq in Hs0'. inversion Hs0'; subst sk0.
      simpl in Hst. contradiction.
    + rewrite lookup_insert_ne in Hs0' by exact Hne. eauto.
  - intros s0 sk0 Hs0 Hst.
    assert (Hs0' : <[s := {| readyState := readyState sk; url := url sk;
                             connectSettled := true |}]>
                     (sockets st) !! s0 = Some sk0) by (destruct ok; exact Hs0).
    destruct (decide (s = s0)) as [<-|Hne].
    + rewrite lookup_insert_eq in Hs0'. now inversion Hs0'.
    + rewrite lookup_insert_ne in Hs0' by exact Hne. eauto.
  - intros s0 s' Hc. exfalso. destruct ok; discriminate Hc.
Qed.

Section Connection.
Variable isApiKeyValid : string -> bool.
Variable config : RPCProviderConfig.
Variable networkInfo : NetworkInfo.

Lemma pending_monitorTransaction st sig timeoutMs :
  attempt_pending st ->
  attempt_pending (monitorTransaction isApiKeyValid config networkInfo sig timeoutMs st).
Proof.
  intros H. unfold monitorTransaction. cbv zeta.
  set (st0 := with_calls _ _ st).
  assert (H0 : attempt_pending st0)
    by (eapply same_connection_pending; [|exact H]; same_sockets).
  destruct (negb _);
    [eapply same_connection_pending; [|exact H0]; same_sockets|].
  destruct (isWebSocketConnected st0);
    [eapply same_connection_pending; [apply same_connection_subscribe|exact H0]|].
  destruct (connecting st0) as [attempt|];
    [eapply same_connection_pending; [|exact H0]; same_sockets|].
  destruct (getWebSocketUrl _ _ _) as [wsUrl|];
    [|eapply same_connection_pending; [|exact H0]; same_sockets].
  destruct H0 as [H1 H2 H3]. split; simpl.
  - intros s0 sk0 Hs0 Hst.
    destruct (decide (nextSocket st = s0)) as [<-|Hne].
    + rewrite lookup_insert_eq in Hs0. now inversion Hs0.
    + rewrite lookup_insert_ne in Hs0 by exact Hne. eauto.
  - intros s0 sk0 Hs0 Hst.
    destruct (decide (nextSocket st = s0)) as [<-|Hne].
    + rewrite lookup_insert_eq in Hs0. inversion Hs0; subst sk0. discriminate Hst.
    + rewrite lookup_insert_ne in Hs0 by exact Hne. eauto.
  - intros s0 s' Hc Hw. congruence.
Qed.

Lemma pending_step st e :
  attempt_shared st -> attempt_pending st ->
  attempt_pending (step isApiKeyValid config networkInfo st e).
Proof.
  intros Hat H. destruct e as [sig ms| |h|s|s data|s|s|s]; simpl.
  - now apply pending_monitorTransaction.
  - now apply pending_disconnect.
  - now apply pending_fire.
  - unfold isConnecting. destruct (sockets st !! s) as [sk|] eqn:E; [|exact H].
    destruct (readyState sk) eqn:Er; try exact H.
    apply (pending_settled st s sk OPEN true Hat H E); congruence.
  - destruct (isAlive s st); [|exact H].
    eapply same_connection_pending; [|exact H].
    destruct data; [apply same_connection_log|apply same_connection_handleWebSocketMessage].
  - unfold isAlive. destruct (sockets st !! s) as [sk|] eqn:E; [|exact H].
    destruct (readyState sk) eqn:Er; try exact H;
      apply (pending_settled st s sk CLOSING false Hat H E); congruence.
  - destruct (isAlive s st); [|exact H].
    eapply same_connection_pending; [apply same_connection_handleWebSocketClose|].
    apply pending_forget.
    eapply same_connection_pending; [apply same_connection_log|].
    apply pending_leaves; [now right|exact H].
  - destruct (isAlive s st); [|exact H].
    match goal with
    | |- attempt_pending (settleConnect s false (handleWebSocketClose ?y)) =>
        set (x := y)
    end.
    apply pending_settleConnect.
    + eapply same_attempt_shared; [exact Hat|].
      eapply same_attempt_trans; [apply (same_attempt_readyState st s CLOSING)|].
      eapply same_attempt_trans; [apply same_attempt_log|].
      eapply same_attempt_trans; [apply (same_attempt_readyState _ s CLOSED)|].
      eapply same_attempt_trans; [apply same_attempt_log|].
      eapply same_attempt_trans; [apply same_attempt_with_ws|].
      apply same_attempt_handleWebSocketClose.
    + eapply same_connection_pending; [apply same_connection_handleWebSocketClose|].
      apply pending_forget.
      eapply same_connection_pending; [apply same_connection_log|].
      apply pending_leaves; [now right|].
      eapply same_connection_pending; [apply same_connection_log|].
      apply pending_leaves; [now left|exact H].
    + intros sk Hsk.
      rewrite (sc_sockets _ _ (same_connection_handleWebSocketClose x)) in Hsk.
      subst x.
      match type of Hsk with
      | sockets (with_ws None (log LogClosed (setReadyState s CLOSED ?w))) !! s = _ =>
          change (sockets (setReadyState s CLOSED w) !! s = Some sk) in Hsk
      end.
      apply sockets_setReadyState_eq in Hsk. now rewrite Hsk.
Qed.

Lemma reachable_pending st :
  reachable isApiKeyValid config networkInfo st -> attempt_pending st.
Proof.
  induction 1 as [|st e Hst IH].
  - split; simpl; try discriminate; intros s sk Hs; now rewrite lookup_empty in Hs.
  - apply pending_step; [|exact IH].
    now apply (reachable_attempt_shared isApiKeyValid config networkInfo).
Qed.

End Connection.

(** X24. The service is connected or connecting, never both: in every
    reachable state, while the connection is open no attempt is in flight,
    no caller is waiting and none is suspended; and while an attempt is in
    flight the service is not connected, and [this.ws] is null or the
    socket of that attempt. *)
Theorem connected_or_connecting (isApiKeyValid : string -> bool)
    (config : RPCProviderConfig) (networkInfo : NetworkInfo) (st : state) :
  reachable isApiKeyValid config networkInfo st ->
  (isWebSocketConnected st = true ->
   connecting st = None /\ waiters st = [] /\
   forall c, calls st !! c <> Some Suspended) /\
  (forall s, connecting st = Some s ->
     isWebSocketConnected st = false /\ (ws st = None \/ ws st = Some s)).
Proof.
  intros Hreach.
  pose proof (reachable_attempt_shared _ _ _ _ Hreach) as Hat.
  pose proof (reachable_pending _ _ _ _ Hreach) as [H1 H2 H3].
  pose proof (reachable_callers_wait _ _ _ _ Hreach) as [Hs _].
  assert (Hexcl : forall s, connecting st = Some s ->
            isWebSocketConnected st = false /\ (ws st = None \/ ws st = Some s)).
  { intros s Hc. destruct (at_waiters _ Hat s Hc) as ((sk & Hsk & Hun) & _).
    unfold isWebSocketConnected.
    destruct (ws st) as [s'|] eqn:Hws; [|auto].
    rewrite (H3 s s' Hc eq_refl) in *. rewrite Hsk. split; [|auto].
    destruct (readyState sk) eqn:Er; try reflexivity.
    rewrite (H2 _ _ Hsk Er) in Hun. discriminate. }
  split; [|exact Hexcl].
  intros Hconn.
  assert (Hc : connecting st = None).
  { destruct (connecting st) as [s|] eqn:E; [|reflexivity].
    destruct (Hexcl s eq_refl) as [Hf _]. congruence. }
  split; [exact Hc|]. split; [apply (at_idle _ Hat Hc)|].
  intros c Hsusp. specialize (Hs c Hsusp).
  rewrite (at_idle _ Hat Hc) in Hs. now apply elem_of_nil in Hs.
Qed.

Lemma connected_or_connecting_witness :
  let st := testRun initial [CallMonitor "sigA" 30000; CallMonitor "sigB" 30000] in
  let st' :=
    testRun initial
      [CallMonitor "sigA" 30000; CallMonitor "sigB" 30000; SocketOpen 0%nat] in
  (connecting st = Some 0%nat /\ isWebSocketConnected st = false) /\
  (isWebSocketConnected st' = true /\ connecting st' = None /\ waiters st' = []).
Proof.
  intros st st'. split.
  - split; [reflexivity|].
    destruct (connected_or_connecting nonEmptyKey testConfig mainnetBeta st) as [_ H];
      [apply reachable_run; constructor|].
    now destruct (H 0%nat eq_refl).
  - split; [reflexivity|].
    destruct (connected_or_connecting nonEmptyKey testConfig mainnetBeta st') as [H _];
      [apply reachable_run; constructor|].
    destruct (H eq_refl) as (Hc & Hw & _). now split.
Defined.

(* ===================================================================== *)
(** ** What a countdown, a notification and a close remove *)
(* ===================================================================== *)

Lemma map_delete_absent {V} (m : list (Z * V)) k :
  map_get k m = None -> map_delete k m = m.
Proof.
  induction m as [|[k' v'] m IH]; simpl; [reflexivity|].
  destruct (k' =? k); [discriminate|]. intros H. now rewrite IH.
Qed.

Lemma subscriptions_cleanup st id outcome :
  subscriptions
    (settle id outcome
       (scheduleIdleDisconnect
          (with_subscriptions (map_delete id (subscriptions st)) st)))
  = map_delete id (subscriptions st).
Proof. simpl. now rewrite subscriptions_scheduleIdleDisconnect. Qed.

Lemma settleCalls_cleanup st id outcome :
  settleCalls
    (settle id outcome
       (scheduleIdleDisconnect
          (with_subscriptions (map_delete id (subscriptions st)) st)))
  = (settleCalls st ++ [(id, outcome)])%list.
Proof. simpl. now rewrite settleCalls_scheduleIdleDisconnect. Qed.

Lemma timers_cleanup st id outcome h :
  timers st !! h = None -> (h < nextTimer st)%nat ->
  timers
    (settle id outcome
       (scheduleIdleDisconnect
          (with_subscriptions (map_delete id (subscriptions st)) st))) !! h
  = None.
Proof.
  intros Hnone Hlt. simpl.
  now apply (timers_scheduleIdleDisconnect (with_subscriptions _ st)).
Qed.

(** X25. When the countdown of a subscription fires, exactly the key of
    its local id is deleted from the table, so an entry that is still
    under its local id is removed and no other entry is: the timer is
    gone, a pending promise resolves with [{confirmed: false}] and no
    [txData], and no other promise changes. *)
Theorem countdown_deletes_its_local_id (isApiKeyValid : string -> bool)
    (config : RPCProviderConfig) (networkInfo : NetworkInfo)
    (st : state) (h : nat) (id ms : Z) :
  reachable isApiKeyValid config networkInfo st ->
  timers st !! h = Some {| callback := SubscriptionTimeout id; delay := ms |} ->
  let st' := step isApiKeyValid config networkInfo st (TimerFires h) in
  subscriptions st' = map_delete id (subscriptions st) /\
  map_get id (subscriptions st') = None /\
  timers st' !! h = None /\
  (promises st !! id = Some Pending ->
   promises st' !! id = Some (Resolved {| confirmed := false; txData := None |})) /\
  (forall other, other <> id -> promises st' !! other = promises st !! other).
Proof.
  intros Hreach Hh st'. subst st'.
  pose proof (reachable_well_formed _ _ _ _ Hreach) as Hwf.
  assert (Hlt : (h < nextTimer st)%nat) by (apply (wf_timers _ Hwf); eauto).
  unfold step, fire. rewrite Hh. cbn [callback]. unfold onSubscriptionTimeout.
  cbv zeta. rewrite subscriptions_cleanup.
  split; [reflexivity|]. split; [apply map_get_delete_eq|]. split; [|split].
  - apply timers_cleanup; [apply lookup_delete_eq|exact Hlt].
  - intros Hp. apply (countdown_resolves st h id ms Hh) in Hp.
    unfold fire in Hp. rewrite Hh in Hp. exact Hp.
  - intros other Hne. now rewrite promises_cleanup_other.
Qed.

Lemma countdown_deletes_its_local_id_witness :
  let st :=
    testRun initial
      [CallMonitor "sigA" 30000; SocketOpen 0%nat; CallMonitor "sigB" 1000] in
  let st' := step nonEmptyKey testConfig mainnetBeta st (TimerFires 1%nat) in
  subscriptions st'
    = [(1, {| signature := "sigA"; owner := 1; timeout := 0%nat |})] /\
  promises st' !! 2 = Some (Resolved {| confirmed := false; txData := None |}).
Proof.
  intros st st'.
  destruct (countdown_deletes_its_local_id nonEmptyKey testConfig mainnetBeta
              st 1%nat 2 1000) as (Hs & _ & _ & Hp & _);
    [apply reachable_run; constructor|reflexivity|].
  split; [exact Hs|]. apply Hp. reflexivity.
Defined.

(** X26. A notification removes the entry of its subscription and no
    other, unless another entry sits under that subscription's local id:
    the table afterwards is the table without the notified key, the
    subscription's countdown is cleared, and its [resolve] is called once. *)
Theorem notification_removes_only_its_entry (isApiKeyValid : string -> bool)
    (config : RPCProviderConfig) (networkInfo : NetworkInfo)
    (st : state) (note : WebSocketMessage) (p : notification)
    (sub : WebSocketSubscription) :
  reachable isApiKeyValid config networkInfo st ->
  asNotification note = Some p ->
  map_get (subscription p) (subscriptions st) = Some sub ->
  owner sub = subscription p \/ map_get (owner sub) (subscriptions st) = None ->
  let st' := handleWebSocketMessage note st in
  subscriptions st' = map_delete (subscription p) (subscriptions st) /\
  timers st' !! timeout sub = None /\
  settleCalls st'
  = (settleCalls st ++
     [(owner sub,
       Resolved {| confirmed := negb (reportsError (result p));
                   txData := Some (result p) |})])%list.
Proof.
  intros Hreach Hn Hsub Hfree st'. subst st'.
  pose proof (reachable_well_formed _ _ _ _ Hreach) as Hwf.
  assert (Hlt : (timeout sub < nextTimer st)%nat).
  { pose proof (wf_handles _ Hwf) as H. rewrite Forall_forall in H.
    apply (H (subscription p, sub)). now apply map_get_elem_of. }
  assert (Hgone : map_delete (owner sub)
                    (map_delete (subscription p) (subscriptions st))
                  = map_delete (subscription p) (subscriptions st)).
  { apply map_delete_absent. destruct Hfree as [->|Hnone].
    - apply map_get_delete_eq.
    - now apply map_get_delete_None. }
  unfold handleWebSocketMessage. rewrite Hn, Hsub.
  set (st2 := with_subscriptions _ (clearTimeout (timeout sub) st)).
  assert (H : forall r,
            subscriptions (resolveWithCleanup (owner sub) r st2)
            = map_delete (subscription p) (subscriptions st) /\
            timers (resolveWithCleanup (owner sub) r st2) !! timeout sub = None /\
            settleCalls (resolveWithCleanup (owner sub) r st2)
            = (settleCalls st ++ [(owner sub, Resolved r)])%list).
  { intros r. unfold resolveWithCleanup.
    rewrite subscriptions_cleanup, settleCalls_cleanup.
    split; [exact Hgone|]. split; [|reflexivity].
    apply timers_cleanup; [apply lookup_delete_eq|exact Hlt]. }
  destruct (reportsError (result p)); apply H.
Qed.

Lemma notification_removes_only_its_entry_witness :
  let st :=
    testRun initial
      [CallMonitor "sigA" 30000; SocketOpen 0%nat; CallMonitor "sigB" 30000;
       SocketMessage 0%nat (Parsed (ackFrame 20100749 1))] in
  let payload := signatureResult 5207624 JNull in
  let st' := handleWebSocketMessage (notificationFrame payload 20100749) st in
  subscriptions st'
    = [(2, {| signature := "sigB"; owner := 2; timeout := 1%nat |})] /\
  timers st' !! 0%nat = None.
Proof.
  intros st payload st'.
  destruct (notification_removes_only_its_entry nonEmptyKey testConfig mainnetBeta
              st (notificationFrame payload 20100749)
              {| result := payload; subscription := 20100749 |}
              {| signature := "sigA"; owner := 1; timeout := 0%nat |})
    as (Hs & Ht & _);
    [apply reachable_run; constructor|reflexivity|reflexivity|right; reflexivity|].
  split; [exact Hs|exact Ht].
Defined.

(** X27. After a transport close nothing is left armed: whatever the
    state, once a socket has emitted 'close' the table is empty,
    [this.ws] is null and no idle timer is held; in particular the idle
    timer that [disconnect()] may leave armed is cancelled when the close
    event of the socket it closed arrives. *)
Theorem transport_close_leaves_nothing_armed (isApiKeyValid : string -> bool)
    (config : RPCProviderConfig) (networkInfo : NetworkInfo)
    (st : state) (s : nat) :
  (isAlive s st = true ->
   let st' := step isApiKeyValid config networkInfo st (SocketClose s) in
   subscriptions st' = [] /\ ws st' = None /\
   idleTimeout st' = None /\ idleArmed st' = false) /\
  (ws st = Some s -> isAlive s st = true ->
   let st1 := step isApiKeyValid config networkInfo st CallDisconnect in
   let st2 := step isApiKeyValid config networkInfo st1 (SocketClose s) in
   isAlive s st1 = true /\
   subscriptions st2 = [] /\ ws st2 = None /\
   idleTimeout st2 = None /\ idleArmed st2 = false).
Proof.
  assert (Hclose : forall st0,
            isAlive s st0 = true ->
            let st' := step isApiKeyValid config networkInfo st0 (SocketClose s) in
            subscriptions st' = [] /\ ws st' = None /\
            idleTimeout st' = None /\ idleArmed st' = false).
  { intros st0 Halive st'. subst st'. simpl. rewrite Halive.
    set (stc := with_ws None _).
    pose proof (idleTimeout_cancelIdleTimeout
                  (with_subscriptions []
                     (rejectEach "WebSocket disconnected" (subscriptions stc) stc)))
      as Hi.
    fold (handleWebSocketClose stc) in Hi.
    split; [unfold handleWebSocketClose; now rewrite subscriptions_cancelIdleTimeout|].
    split; [now rewrite (sc_ws _ _ (same_connection_handleWebSocketClose stc))|].
    split; [exact Hi|]. unfold idleArmed. now rewrite Hi. }
  split; [apply Hclose|].
  intros Hws Halive st1 st2.
  assert (Halive1 : isAlive s st1 = true).
  { subst st1. simpl. unfold disconnect. cbv zeta.
    set (st3 := with_subscriptions [] _).
    assert (Hc : same_connection st st3).
    { subst st3.
      eapply same_connection_trans; [apply same_connection_cancelIdleTimeout|].
      eapply same_connection_trans; [apply same_connection_rejectEach|].
      apply same_connection_subscriptions. }
    destruct Hc as [Hso Hw _]. rewrite Hw, Hws.
    unfold isAlive in *. unfold closeSocket. rewrite Hso. simpl.
    destruct (sockets st !! s) as [sk|] eqn:E; [|discriminate]. simpl.
    now rewrite lookup_insert_eq. }
  split; [exact Halive1|]. apply (Hclose st1 Halive1).
Qed.

Lemma transport_close_leaves_nothing_armed_witness :
  let st := testRun initial [CallMonitor "sig" 30000; SocketOpen 0%nat] in
  let st1 := step nonEmptyKey testConfig mainnetBeta st CallDisconnect in
  let st2 := step nonEmptyKey testConfig mainnetBeta st1 (SocketClose 0%nat) in
  idleArmed st1 = true /\ idleArmed st2 = false /\ idleTimeout st2 = None.
Proof.
  intros st st1 st2. split; [reflexivity|].
  destruct (transport_close_leaves_nothing_armed nonEmptyKey testConfig mainnetBeta
              st 0%nat) as [_ H].
  destruct (H eq_refl eq_refl) as (_ & _ & _ & Hi & Ha). now split.
Defined.

(* ===================================================================== *)
(** ** After a failed attempt *)
(* ===================================================================== *)

(** The rejection loop writes no log line and sends nothing. *)
Lemma quiet_rejectEach reason todo st :
  logs (rejectEach reason todo st) = logs st /\
  sent (rejectEach reason todo st) = sent st.
Proof.
  revert st. induction todo as [|[key sub] todo IH]; intros st; simpl;
    [now split|].
  destruct (map_has key (subscriptions st)); [|apply IH].
  destruct (IH (rejectWithCleanup (owner sub) reason (clearTimeout (timeout sub) st)))
    as [-> ->].
  unfold rejectWithCleanup, scheduleIdleDisconnect, cancelIdleTimeout. simpl.
  destruct (0 <? _); [now split|].
  now destruct (idleTimeout st).
Qed.

Lemma quiet_handleWebSocketClose st :
  logs (handleWebSocketClose st) = logs st /\
  sent (handleWebSocketClose st) = sent st.
Proof.
  unfold handleWebSocketClose, cancelIdleTimeout. cbv zeta.
  destruct (quiet_rejectEach "WebSocket disconnected" (subscriptions st) st)
    as [Hl Hs].
  match goal with
  | |- context [match idleTimeout ?x with _ => _ end] => destruct (idleTimeout x)
  end; simpl; now split.
Qed.

Lemma quiet_setReadyState_logs st s r : logs (setReadyState s r st) = logs st.
Proof. unfold setReadyState. now destruct (sockets st !! s). Qed.

Lemma quiet_setReadyState_sent st s r : sent (setReadyState s r st) = sent st.
Proof. unfold setReadyState. now destruct (sockets st !! s). Qed.

(** When every suspended call fails, only the calls change. *)
Lemma continueAll_fail_state done st :
  Forall (fun d => snd d = false) done ->
  let st' := continueAll done st in
  ws st' = ws st /\ logs st' = logs st /\
  connecting st' = connecting st /\ waiters st' = waiters st /\
  nextSocket st' = nextSocket st /\ nextCall st' = nextCall st /\
  subscriptions st' = subscriptions st /\
  idleTimeout st' = idleTimeout st /\ sent st' = sent st.
Proof.
  revert st. induction done as [|[w connected] done IH]; intros st Hall; simpl.
  - now repeat split.
  - apply Forall_cons in Hall as [Hc Hall]. simpl in Hc. subst connected.
    apply (IH (unavailable (w_call w) st) Hall).
Qed.

(** X17. A failed connection attempt is not retried by the service, but
    the next call retries it.  When the socket of the attempt in flight
    fails, that is, emits ['error'] and, in the same tick, ['close']: both
    lines and the failure are logged, in this order; every caller that
    waited throws 'WebSocket not available'; [connecting] and [this.ws]
    are null, the table is empty, no idle timer is held, and nothing was
    sent.  The next [monitorTransaction] opens a new socket and waits for
    it. *)
Theorem failed_attempt_retried_by_next_call (isApiKeyValid : string -> bool)
    (config : RPCProviderConfig) (networkInfo : NetworkInfo)
    (st : state) (s : nat) (sig : string) (timeoutMs : Z) :
  reachable isApiKeyValid config networkInfo st ->
  isApiKeyValid (apiKey config) = true ->
  connecting st = Some s -> isAlive s st = true ->
  let st1 := step isApiKeyValid config networkInfo st (SocketFail s) in
  let st2 := step isApiKeyValid config networkInfo st1 (CallMonitor sig timeoutMs) in
  (logs st1 = (logs st ++ [LogSocketError; LogClosed; LogConnectFailed])%list /\
   connecting st1 = None /\ waiters st1 = [] /\
   (forall w, w ∈ waiters st -> calls st1 !! w_call w = Some Unavailable) /\
   ws st1 = None /\ subscriptions st1 = [] /\ idleTimeout st1 = None /\
   nextSocket st1 = nextSocket st /\ sent st1 = sent st) /\
  (joining (nextSocket st) st2 /\ nextSocket st2 = S (nextSocket st) /\
   waiters st2
   = [{| w_call := nextCall st; w_attempt := nextSocket st;
         w_initiator := true; w_signature := sig; w_timeoutMs := timeoutMs |}]).
Proof.
  intros Hreach Hvalid Hc Halive st1 st2.
  pose proof (reachable_attempt_shared _ _ _ _ Hreach) as Hat.
  destruct (at_waiters _ Hat s Hc) as ((sk & Hsk & Hun) & _).
  set (x := handleWebSocketClose
              (with_ws None
                 (log LogClosed
                    (setReadyState s CLOSED
                       (log LogSocketError (setReadyState s CLOSING st)))))).
  assert (Hst1 : st1 = settleConnect s false x).
  { subst st1 x. simpl. now rewrite Halive. }
  assert (Hsame : same_attempt st x).
  { subst x.
    eapply same_attempt_trans; [apply (same_attempt_readyState st s CLOSING)|].
    eapply same_attempt_trans; [apply same_attempt_log|].
    eapply same_attempt_trans; [apply (same_attempt_readyState _ s CLOSED)|].
    eapply same_attempt_trans; [apply same_attempt_log|].
    eapply same_attempt_trans; [apply same_attempt_with_ws|].
    apply same_attempt_handleWebSocketClose. }
  assert (Hkeep : keeps_callers st x).
  { subst x.
    eapply keeps_callers_trans; [apply (keeps_callers_setReadyState st s CLOSING)|].
    eapply keeps_callers_trans; [apply keeps_callers_log|].
    eapply keeps_callers_trans; [apply (keeps_callers_setReadyState _ s CLOSED)|].
    eapply keeps_callers_trans; [apply keeps_callers_log|].
    eapply keeps_callers_trans; [apply keeps_callers_with_ws|].
    apply keeps_callers_handleWebSocketClose. }
  assert (Hatx : attempt_shared x).
  { eapply same_attempt_shared; [exact Hat|exact Hsame]. }
  assert (Hskx : exists skx, sockets x !! s = Some skx /\ connectSettled skx = false).
  { pose proof (sa_sockets _ _ Hsame s) as H. rewrite Hsk in H. simpl in H.
    destruct (sockets x !! s) as [skx|]; [|discriminate].
    exists skx. split; [reflexivity|]. simpl in H. congruence. }
  destruct Hskx as (skx & Hskx & Hunx).
  assert (Hwsx : ws x = None).
  { subst x.
    now rewrite (sc_ws _ _ (same_connection_handleWebSocketClose _)). }
  assert (Hsubx : subscriptions x = []).
  { subst x. unfold handleWebSocketClose.
    now rewrite subscriptions_cancelIdleTimeout. }
  assert (Hidx : idleTimeout x = None).
  { subst x. unfold handleWebSocketClose. apply idleTimeout_cancelIdleTimeout. }
  assert (Hquiet : logs x = (logs st ++ [LogSocketError; LogClosed])%list /\
                   sent x = sent st).
  { subst x.
    match goal with
    | |- context [handleWebSocketClose ?y] =>
        destruct (quiet_handleWebSocketClose y) as [-> ->]
    end.
    cbn [logs sent with_ws log with_logs].
    rewrite !quiet_setReadyState_logs, !quiet_setReadyState_sent.
    cbn [logs sent with_ws log with_logs].
    rewrite !quiet_setReadyState_logs, !quiet_setReadyState_sent.
    rewrite <- app_assoc. now split. }
  destruct Hquiet as [Hlogx Hsentx].
  rewrite (settleConnect_resumes x s skx false Hatx Hskx Hunx) in Hst1.
  match type of Hst1 with
  | _ = continueAll ?d ?b =>
      destruct (continueAll_fail_state d b)
        as (Hf1 & Hf2 & Hf3 & Hf4 & Hf5 & Hf6 & Hf7 & Hf8 & Hf9);
      [apply Forall_fmap, Forall_true; intros w; simpl;
       now destruct (w_initiator w)|];
      pose proof (fun c => calls_continueAll_fail d b c) as Hcalls
  end.
  rewrite <- Hst1 in Hf1, Hf2, Hf3, Hf4, Hf5, Hf6, Hf7, Hf8, Hf9, Hcalls.
  simpl in Hf1, Hf2, Hf3, Hf4, Hf5, Hf6, Hf7, Hf8, Hf9.
  assert (Hns : nextSocket st1 = nextSocket st).
  { rewrite Hf5. apply (sa_nextSocket _ _ Hsame). }
  assert (Hnc : nextCall st1 = nextCall st).
  { rewrite Hf6. apply (kc_nextCall _ _ Hkeep). }
  assert (Hdisc : isWebSocketConnected st1 = false).
  { unfold isWebSocketConnected. now rewrite Hf1, Hwsx. }
  split.
  - split; [rewrite Hf2, Hlogx; now rewrite <- app_assoc|].
    split; [exact Hf3|]. split; [exact Hf4|]. split.
    { intros w Hw. apply Hcalls.
      - apply Forall_fmap, Forall_true. intros w'. simpl.
        now destruct (w_initiator w').
      - rewrite <- list_fmap_compose.
        change (w_call w ∈ w_call <$> waiters x).
        rewrite (sa_waiters _ _ Hsame). apply list_elem_of_fmap. now exists w. }
    split; [now rewrite Hf1|]. split; [now rewrite Hf7|].
    split; [now rewrite Hf8|]. split; [exact Hns|]. now rewrite Hf9.
  - destruct (monitorTransaction_starts isApiKeyValid config networkInfo Hvalid
                st1 sig timeoutMs Hdisc Hf3) as (Hj & Hn & _ & Hw).
    rewrite Hns in Hj, Hn. rewrite Hf4, Hns, Hnc in Hw.
    split; [exact Hj|]. split; [exact Hn|exact Hw].
Qed.

Lemma failed_attempt_retried_by_next_call_witness :
  let st := testRun initial [CallMonitor "sigA" 30000; CallMonitor "sigB" 30000] in
  let st1 := step nonEmptyKey testConfig mainnetBeta st (SocketFail 0%nat) in
  let st2 := step nonEmptyKey testConfig mainnetBeta st1 (CallMonitor "sigC" 1000) in
  logs st1
  = [LogConnecting "mainnet"; LogSocketError; LogClosed; LogConnectFailed] /\
  connecting st1 = None /\ ws st1 = None /\ sent st1 = [] /\
  nextSocket st2 = 2%nat /\ joining 1%nat st2.
Proof.
  intros st st1 st2.
  destruct (failed_attempt_retried_by_next_call nonEmptyKey testConfig mainnetBeta
              st 0%nat "sigC" 1000)
    as ((Hl & Hc & _ & _ & Hws & _ & _ & _ & Hsent) & (Hj & Hn & _));
    [apply reachable_run; constructor|reflexivity|reflexivity|reflexivity|].
  split; [exact Hl|]. split; [exact Hc|]. split; [exact Hws|].
  split; [exact Hsent|]. split; [exact Hn|exact Hj].
Defined.
